(** * Row-partitioned distributed matrix multiplication

    A shallow embedding of [mpi_matrix_multiplication.py], of the serial
    reference in [serial_matrix_multiplication.py] and of the tests of
    [test_mpi_implementation.py] that call the multiplication.

    Python integers are [Z]; [//] and [%] are [Z.div] and [Z.modulo] (both
    round towards minus infinity, the remainder takes the sign of the
    divisor) with the [ZeroDivisionError] written out.  A two-dimensional
    numpy array is a record of its column count and its rows.  The array
    elements and the pseudo-random generator are interfaces; an instance on
    IEEE binary64 numbers is given at the end of the definitions.

    Each rank runs the same program; the program of one rank is a finite
    tree of effects (random draws, broadcast, send, receive, print), and a
    group of ranks runs under a rendezvous semantics of the transport. *)

From Stdlib Require Import ZArith List Lia Floats Uint63.
From stdpp Require Import base list relations.

Local Open Scope Z_scope.

(** ** Python integers, ranges and slices *)

Inductive exn : Type :=
| ZeroDivisionError
| ValueError
| TypeError.

(** [a // b] *)
Definition py_floordiv (a b : Z) : exn + Z :=
  if b =? 0 then inl ZeroDivisionError else inr (a / b).

(** [a % b] *)
Definition py_mod (a b : Z) : exn + Z :=
  if b =? 0 then inl ZeroDivisionError else inr (a mod b).

(** [range(a, b)] *)
Definition py_range (a b : Z) : list Z :=
  map (fun k => a + Z.of_nat k) (seq 0 (Z.to_nat (b - a))).

(** A slice bound [i] of a sequence of length [len]: negative bounds count
    from the end, and every bound is clipped to [0, len]. *)
Definition slice_index (len i : Z) : Z :=
  if i <? 0 then Z.max 0 (i + len) else Z.min i len.

(** [l[a:b]] *)
Definition py_slice {A : Type} (l : list A) (a b : Z) : list A :=
  let len := Z.of_nat (length l) in
  let lo := slice_index len a in
  let hi := slice_index len b in
  take (Z.to_nat (hi - lo)) (drop (Z.to_nat lo) l).

(** ** Array elements and the random generator *)

(** The [np.float64] operations the program uses.  [isclose x y] is numpy's
    scalar closeness test at [rtol = atol = 1e-10]; [fmax] is the maximum
    that [np.max] folds over an array. *)
Class Scalar : Type := {
  elt : Type;
  zero : elt;
  add : elt -> elt -> elt;
  mul : elt -> elt -> elt;
  sub : elt -> elt -> elt;
  abs : elt -> elt;
  fmax : elt -> elt -> elt;
  isclose : elt -> elt -> bool
}.

(** The state of numpy's global generator: [np.random.seed(s)] replaces the
    state, each sample of [np.random.rand] advances it. *)
Class RandomState `{Scalar} : Type := {
  rng : Type;
  rng_seed : Z -> rng;
  rng_next : rng -> elt * rng
}.

Section Embedding.

Context `{Num : Scalar} `{RS : !RandomState}.

(** ** numpy arrays of dimension two *)

Record matrix : Type := Matrix {
  ncols : Z;
  mrows : list (list elt)
}.

Definition nrows (m : matrix) : Z := Z.of_nat (length (mrows m)).

(** [np.zeros((r, c), dtype=np.float64)]; a negative dimension is a
    [ValueError]. *)
Definition np_zeros (r c : Z) : exn + matrix :=
  if (r <? 0) || (c <? 0) then inl ValueError
  else inr (Matrix c (replicate (Z.to_nat r) (replicate (Z.to_nat c) zero))).

(** [m[a:b]] on the rows of an array *)
Definition np_slice (m : matrix) (a b : Z) : matrix :=
  Matrix (ncols m) (py_slice (mrows m) a b).

(** [A[a:b]] where [A] is a Python object that may be [None] *)
Definition subscript (A : option matrix) (a b : Z) : exn + matrix :=
  match A with
  | Some m => inr (np_slice m a b)
  | None => inl TypeError
  end.

(** The inner product of a row with a column, summed in index order. *)
Definition inner (u v : list elt) : elt :=
  fold_left (fun acc xy => add acc (mul (fst xy) (snd xy))) (zip u v) zero.

Definition column (j : nat) (B : matrix) : list elt :=
  map (fun row => nth j row zero) (mrows B).

Definition dot_row (B : matrix) (r : list elt) : list elt :=
  map (fun j => inner r (column j B)) (seq 0 (Z.to_nat (ncols B))).

(** [np.dot(A, B)] for two-dimensional arrays:
    [C[i][j] = sum over p of A[i][p] * B[p][j]], each row of the result
    computed from the same row of [A]; the inner dimensions must agree. *)
Definition np_dot (A B : matrix) : exn + matrix :=
  if ncols A =? nrows B then inr (Matrix (ncols B) (map (dot_row B) (mrows A)))
  else inl ValueError.

(** [np.dot(local_A, B)] where [B] is the object the broadcast returned *)
Definition dot_obj (A : matrix) (B : option matrix) : exn + matrix :=
  match B with
  | Some b => np_dot A b
  | None => inl TypeError
  end.

(** The value of a slice assignment broadcast to [k] rows of [c] columns:
    a dimension of the value must equal the target's or be 1. *)
Definition broadcast_rows (k : nat) (c : Z) (v : matrix) : exn + list (list elt) :=
  if ((nrows v =? Z.of_nat k) || (nrows v =? 1))
     && ((ncols v =? c) || (ncols v =? 1))
  then
    let rs := if nrows v =? Z.of_nat k then mrows v
              else replicate k (hd [] (mrows v)) in
    inr (map (fun r => if ncols v =? c then r
                       else replicate (Z.to_nat c) (hd zero r)) rs)
  else inl ValueError.

(** [C[a:b] = v] *)
Definition np_setrows (C : matrix) (a b : Z) (v : matrix) : exn + matrix :=
  let len := nrows C in
  let lo := slice_index len a in
  let hi := slice_index len b in
  let k := Z.to_nat (hi - lo) in
  match broadcast_rows k (ncols C) v with
  | inl e => inl e
  | inr rs =>
      inr (Matrix (ncols C)
             (take (Z.to_nat lo) (mrows C) ++ rs
                ++ drop (Z.to_nat lo + k)%nat (mrows C)))
  end.

(** [n] consecutive samples of the generator *)
Fixpoint rand_list (n : nat) (g : rng) : list elt * rng :=
  match n with
  | O => ([], g)
  | S n' =>
      let (x, g1) := rng_next g in
      let (xs, g2) := rand_list n' g1 in
      (x :: xs, g2)
  end.

Fixpoint rand_rows (r c : nat) (g : rng) : list (list elt) * rng :=
  match r with
  | O => ([], g)
  | S r' =>
      let (row, g1) := rand_list c g in
      let (rest, g2) := rand_rows r' c g1 in
      (row :: rest, g2)
  end.

(** [np.random.rand(r, c)]: the array is filled in row-major order; a
    negative dimension is a [ValueError]. *)
Definition np_random_rand (g : rng) (r c : Z) : exn + (matrix * rng) :=
  if (r <? 0) || (c <? 0) then inl ValueError
  else
    let (rs, g') := rand_rows (Z.to_nat r) (Z.to_nat c) g in
    inr (Matrix c rs, g').

Definition same_shape (a b : matrix) : bool :=
  (nrows a =? nrows b) && (ncols a =? ncols b).

(** [np.allclose(a, b, rtol=1e-10, atol=1e-10)] for arrays of one shape (the
    two arrays compared by the program both have shape [(size, size)]; arrays
    of different shapes are refused here). *)
Definition np_allclose (a b : matrix) : exn + bool :=
  if same_shape a b then
    inr (forallb (fun rr => forallb (fun xy => isclose (fst xy) (snd xy))
                              (zip (fst rr) (snd rr)))
           (zip (mrows a) (mrows b)))
  else inl ValueError.

(** [np.max(np.abs(a - b))]; the maximum of an array without elements is a
    [ValueError]. *)
Definition np_max_abs_diff (a b : matrix) : exn + elt :=
  if same_shape a b then
    match concat (map (fun rr => map (fun xy => abs (sub (fst xy) (snd xy)))
                                   (zip (fst rr) (snd rr)))
                    (zip (mrows a) (mrows b))) with
    | [] => inl ValueError
    | d :: ds => inr (fold_left fmax ds d)
    end
  else inl ValueError.


(** [x] and [y] are the elements of [a] and of [b] at one place. *)
Definition at_same_place (a b : matrix) (x y : elt) : Prop :=
  exists (i j : nat) (ra rb : list elt),
    mrows a !! i = Some ra /\ mrows b !! i = Some rb
    /\ ra !! j = Some x /\ rb !! j = Some y.

(** ** Programs of one rank *)

(** What [verify_correctness] prints. *)
Inductive message : Type :=
| MsgVerifying (size : Z)
| MsgCorrect
| MsgErrors
| MsgMaxDiff (d : elt).

(** A program is a tree of the effects of one process: the calls on the
    global random generator, the calls on the communicator, and [print].
    [Bcast v k] is [comm.bcast(v, root=0)], [Send m d t k] is
    [comm.send(m, dest=d, tag=t)], [Recv s t k] is
    [comm.recv(source=s, tag=t)]. *)
Inductive proc (R : Type) : Type :=
| Ret (r : R)
| Raise (e : exn)
| Seed (s : Z) (k : proc R)
| Rand (r c : Z) (k : matrix -> proc R)
| Bcast (v : option matrix) (k : option matrix -> proc R)
| Send (payload : matrix) (dest tag : Z) (k : proc R)
| Recv (source tag : Z) (k : matrix -> proc R)
| Print (m : message) (k : proc R).

Arguments Ret {R} r.
Arguments Raise {R} e.
Arguments Seed {R} s k.
Arguments Rand {R} r c k.
Arguments Bcast {R} v k.
Arguments Send {R} payload dest tag k.
Arguments Recv {R} source tag k.
Arguments Print {R} m k.

Fixpoint bind {A B : Type} (p : proc A) (f : A -> proc B) : proc B :=
  match p with
  | Ret a => f a
  | Raise e => Raise e
  | Seed s k => Seed s (bind k f)
  | Rand r c k => Rand r c (fun m => bind (k m) f)
  | Bcast v k => Bcast v (fun m => bind (k m) f)
  | Send m d t k => Send m d t (bind k f)
  | Recv s t k => Recv s t (fun m => bind (k m) f)
  | Print m k => Print m (bind k f)
  end.

(** A numpy or integer operation that may raise. *)
Definition lift {R : Type} (r : exn + R) : proc R :=
  match r with
  | inl e => Raise e
  | inr x => Ret x
  end.

Notation "'do' x <- c1 ; c2" := (bind c1 (fun x => c2))
  (at level 10, x name, c1 at level 100, c2 at level 200).
Notation "'do' ' pat <- c1 ; c2" :=
  (bind c1 (fun x => match x with pat => c2 end))
  (at level 10, pat pattern, c1 at level 100, c2 at level 200).

(** [initialize_matrices(size, rank)] *)
Definition initialize_matrices (size rank : Z)
  : proc (option matrix * option matrix) :=
  if rank =? 0 then
    Seed 42
      (Rand size size (fun A =>
       Rand size size (fun B =>
       Ret (Some A, Some B))))
  else Ret (None, None).

(** The loop of the root in [distribute_matrix_rows]:
    [for proc in range(1, num_procs)], sending to each rank its rows. *)
Fixpoint send_rows (A : option matrix) (rows_per_proc remainder : Z)
    (procs : list Z) : proc unit :=
  match procs with
  | [] => Ret tt
  | proc :: rest =>
      let '(proc_rows, proc_start) :=
        if proc <? remainder then
          (rows_per_proc + 1, proc * (rows_per_proc + 1))
        else
          (rows_per_proc,
           remainder * (rows_per_proc + 1) + (proc - remainder) * rows_per_proc) in
      if proc_rows >? 0 then
        do block <- lift (subscript A proc_start (proc_start + proc_rows)) ;
        Send block proc proc (send_rows A rows_per_proc remainder rest)
      else send_rows A rows_per_proc remainder rest
  end.

(** [distribute_matrix_rows(A, size, comm, rank, num_procs)], returning
    [(local_A, local_rows, start_row)]. *)
Definition distribute_matrix_rows (A : option matrix) (size rank num_procs : Z)
  : proc (matrix * Z * Z) :=
  do rows_per_proc <- lift (py_floordiv size num_procs) ;
  do remainder <- lift (py_mod size num_procs) ;
  let '(local_rows, start_row) :=
    if rank <? remainder then
      (rows_per_proc + 1, rank * (rows_per_proc + 1))
    else
      (rows_per_proc,
       remainder * (rows_per_proc + 1) + (rank - remainder) * rows_per_proc) in
  do local_A <- lift (np_zeros local_rows size) ;
  if rank =? 0 then
    do _ <- send_rows A rows_per_proc remainder (py_range 1 num_procs) ;
    do local_A <- lift (subscript A start_row (start_row + local_rows)) ;
    Ret (local_A, local_rows, start_row)
  else
    if local_rows >? 0 then
      Recv 0 rank (fun local_A => Ret (local_A, local_rows, start_row))
    else Ret (local_A, local_rows, start_row).

(** The loop of the root in [mpi_matrix_multiply]:
    [for proc in range(1, num_procs)], receiving the rows of each rank into
    [C].  The loop body runs only after [size // num_procs] succeeded in
    [distribute_matrix_rows], so its divisions cannot raise. *)
Fixpoint recv_rows (size num_procs : Z) (procs : list Z) (C : matrix)
  : proc matrix :=
  match procs with
  | [] => Ret C
  | proc :: rest =>
      let '(proc_rows, proc_start) :=
        if proc <? size mod num_procs then
          (size / num_procs + 1, proc * (size / num_procs + 1))
        else
          (size / num_procs,
           (size mod num_procs) * (size / num_procs + 1)
           + (proc - size mod num_procs) * (size / num_procs)) in
      if proc_rows >? 0 then
        Recv proc (proc + 100) (fun received_data =>
          match np_setrows C proc_start (proc_start + proc_rows) received_data with
          | inl e => Raise e
          | inr C' => recv_rows size num_procs rest C'
          end)
      else recv_rows size num_procs rest C
  end.

(** [mpi_matrix_multiply(size, comm, rank, num_procs)] *)
Definition mpi_matrix_multiply (size rank num_procs : Z) : proc (option matrix) :=
  do '(A, B) <- initialize_matrices size rank ;
  do B <- Bcast B Ret ;
  do '(local_A, local_rows, start_row) <-
     distribute_matrix_rows A size rank num_procs ;
  do local_C <- lift (np_zeros local_rows size) ;
  do local_C <- (if local_rows >? 0 then lift (dot_obj local_A B)
                 else Ret local_C) ;
  if rank =? 0 then
    do C <- lift (np_zeros size size) ;
    do C <- lift (np_setrows C start_row (start_row + local_rows) local_C) ;
    do C <- recv_rows size num_procs (py_range 1 num_procs) C ;
    Ret (Some C)
  else
    do _ <- (if local_rows >? 0 then Send local_C 0 (rank + 100) (Ret tt)
             else Ret tt) ;
    Ret None.

(** [serial_matrix_multiply(A, B)] *)
Definition serial_matrix_multiply (A B : matrix) : exn + matrix := np_dot A B.

(** [np.allclose(C_serial, C_mpi, ...)] on Python objects: [None] is not an
    array. *)
Definition allclose_obj (a b : option matrix) : exn + bool :=
  match a, b with
  | Some x, Some y => np_allclose x y
  | _, _ => inl TypeError
  end.

Definition max_abs_diff_obj (a b : option matrix) : exn + elt :=
  match a, b with
  | Some x, Some y => np_max_abs_diff x y
  | _, _ => inl TypeError
  end.

(** Lines 162 to 173 of [verify_correctness]: the comparison on the root
    and the value returned. *)
Definition verdict (rank : Z) (C_serial C_mpi : option matrix)
  : proc (option bool) :=
  if rank =? 0 then
    do close <- lift (allclose_obj C_serial C_mpi) ;
    if close : bool then Print MsgCorrect (Ret (Some true))
    else
      Print MsgErrors
        (do max_diff <- lift (max_abs_diff_obj C_serial C_mpi) ;
         Print (MsgMaxDiff max_diff) (Ret (Some false)))
  else Ret None.

(** [verify_correctness(size, comm, rank)]; [num_procs] is
    [comm.Get_size()].  [C_serial] is bound on the root only. *)
Definition verify_correctness (size rank num_procs : Z) : proc (option bool) :=
  do C_serial <-
    (if rank =? 0 then
       Print (MsgVerifying size)
         (Seed 42
            (Rand size size (fun A =>
             Rand size size (fun B =>
             do C <- lift (np_dot A B) ; Ret (Some C)))))
     else Ret None) ;
  do C_mpi <- mpi_matrix_multiply size rank num_procs ;
  verdict rank C_serial C_mpi.

(** ** The row range of a rank *)

(** Lines 28 to 37 of [distribute_matrix_rows], after the division
    succeeded: [(local_rows, start_row)] of [rank]. *)
Definition row_range (size num_procs rank : Z) : Z * Z :=
  let rows_per_proc := size / num_procs in
  let remainder := size mod num_procs in
  if rank <? remainder then
    (rows_per_proc + 1, rank * (rows_per_proc + 1))
  else
    (rows_per_proc,
     remainder * (rows_per_proc + 1) + (rank - remainder) * rows_per_proc).

Definition local_rows_of (size num_procs rank : Z) : Z :=
  fst (row_range size num_procs rank).

Definition start_row_of (size num_procs rank : Z) : Z :=
  snd (row_range size num_procs rank).

(** The sum of the row counts of the ranks in [ranks]. *)
Definition total_rows_of (size num_procs : Z) (ranks : list Z) : Z :=
  foldr Z.add 0 (map (local_rows_of size num_procs) ranks).

(** ** One process against its environment *)

(** What the transport hands to one process: the object the root
    broadcasts, and the payload of the message matched by a receive from
    [source] with [tag]. *)
Record env : Type := Env {
  bcast_in : option matrix;
  recv_in : Z -> Z -> matrix
}.

Inductive event : Type :=
| EvBcast
| EvSend (dest tag : Z) (payload : matrix)
| EvRecv (source tag : Z)
| EvPrint (m : message).

Record result (R : Type) : Type := Result {
  events : list event;
  outcome : exn + R;
  rng_after : rng
}.

Arguments Result {R} events outcome rng_after.
Arguments events {R} r.
Arguments outcome {R} r.
Arguments rng_after {R} r.

Definition emit {R : Type} (ev : event) (r : result R) : result R :=
  Result (ev :: events r) (outcome r) (rng_after r).

(** The run of the program [p] on the process of rank [me], from the
    generator state [g]: the calls it makes on the transport and on [print],
    in order, and how it ends.  The root of a broadcast gets its own object
    back. *)
Fixpoint interp {R : Type} (me : Z) (e : env) (g : rng) (p : proc R) : result R :=
  match p with
  | Ret r => Result [] (inr r) g
  | Raise x => Result [] (inl x) g
  | Seed s k => interp me e (rng_seed s) k
  | Rand r c k =>
      match np_random_rand g r c with
      | inl x => Result [] (inl x) g
      | inr (m, g') => interp me e g' (k m)
      end
  | Bcast v k => emit EvBcast (interp me e g (k (if me =? 0 then v else bcast_in e)))
  | Send m d t k => emit (EvSend d t m) (interp me e g k)
  | Recv s t k => emit (EvRecv s t) (interp me e g (k (recv_in e s t)))
  | Print m k => emit (EvPrint m) (interp me e g k)
  end.

Definition is_comm (ev : event) : bool :=
  match ev with
  | EvBcast | EvSend _ _ _ | EvRecv _ _ => true
  | EvPrint _ => false
  end.

(** Point-to-point calls only. *)
Definition is_transfer (ev : event) : bool :=
  match ev with
  | EvSend _ _ _ | EvRecv _ _ => true
  | EvBcast | EvPrint _ => false
  end.

(** [(dest, tag)] of the sends, [(source, tag)] of the receives. *)
Definition sends (evs : list event) : list (Z * Z) :=
  omap (fun ev => match ev with EvSend d t _ => Some (d, t) | _ => None end) evs.

Definition recvs (evs : list event) : list (Z * Z) :=
  omap (fun ev => match ev with EvRecv s t => Some (s, t) | _ => None end) evs.

Definition prints (evs : list event) : list message :=
  omap (fun ev => match ev with EvPrint m => Some m | _ => None end) evs.

(** ** A group of processes *)

(** The state of one process: its generator, what it printed, and the rest
    of its program. *)
Record pstate (R : Type) : Type := PState {
  st_rng : rng;
  st_out : list message;
  st_code : proc R
}.

Arguments PState {R} st_rng st_out st_code.
Arguments st_rng {R} p.
Arguments st_out {R} p.
Arguments st_code {R} p.

Definition local_step {R : Type} (st : pstate R) : option (pstate R) :=
  match st_code st with
  | Seed s k => Some (PState (rng_seed s) (st_out st) k)
  | Rand r c k =>
      Some match np_random_rand (st_rng st) r c with
           | inl x => PState (st_rng st) (st_out st) (Raise x)
           | inr (m, g') => PState g' (st_out st) (k m)
           end
  | Print m k => Some (PState (st_rng st) (st_out st ++ [m]) k)
  | _ => None
  end.

Definition at_bcast {R : Type} (st : pstate R) : bool :=
  match st_code st with
  | Bcast _ _ => true
  | _ => false
  end.

Definition deliver {R : Type} (v : option matrix) (st : pstate R) : pstate R :=
  match st_code st with
  | Bcast _ k => PState (st_rng st) (st_out st) (k v)
  | _ => st
  end.

Definition continue {R : Type} (st : pstate R) (k : proc R) : pstate R :=
  PState (st_rng st) (st_out st) k.

(** The rest of a program once its first call has completed. *)
Definition after_seed {R : Type} (p : proc R) : proc R :=
  match p with Seed _ k => k | _ => p end.

Definition after_rand {R : Type} (m : matrix) (p : proc R) : proc R :=
  match p with Rand _ _ k => k m | _ => p end.

Definition after_bcast {R : Type} (v : option matrix) (p : proc R) : proc R :=
  match p with Bcast _ k => k v | _ => p end.

Definition after_send {R : Type} (p : proc R) : proc R :=
  match p with Send _ _ _ k => k | _ => p end.

Definition after_recv {R : Type} (m : matrix) (p : proc R) : proc R :=
  match p with Recv _ _ k => k m | _ => p end.

(** The process at index [r] of a configuration has rank [r].  A broadcast
    completes when every process has called it and delivers the object of
    rank 0; a transfer is a rendezvous of a send with the receive that names
    its source and its tag. *)
Inductive step {R : Type} : list (pstate R) -> list (pstate R) -> Prop :=
| step_local (cfg : list (pstate R)) (i : nat) (st st' : pstate R) :
    cfg !! i = Some st ->
    local_step st = Some st' ->
    step cfg (<[i := st']> cfg)
| step_bcast (cfg : list (pstate R)) (root : pstate R) v k :
    cfg !! 0%nat = Some root ->
    st_code root = Bcast v k ->
    forallb at_bcast cfg = true ->
    step cfg (map (deliver v) cfg)
| step_transfer (cfg : list (pstate R)) (i j : nat) (si sj : pstate R) m tag k k' :
    cfg !! i = Some si ->
    cfg !! j = Some sj ->
    st_code si = Send m (Z.of_nat j) tag k ->
    st_code sj = Recv (Z.of_nat i) tag k' ->
    step cfg (<[j := continue sj (k' m)]> (<[i := continue si k]> cfg)).

Definition steps {R : Type} : list (pstate R) -> list (pstate R) -> Prop :=
  rtc step.

(** The processes of the ranks [p], [p + 1], ...: the process of the rank
    [r] runs [code r], from a generator state and an output of [sts]. *)
Fixpoint load {R : Type} (code : Z -> proc R) (p : nat)
    (sts : list (rng * list message)) : list (pstate R) :=
  match sts with
  | [] => []
  | (g, out) :: rest => PState g out (code (Z.of_nat p)) :: load code (S p) rest
  end.

(** The group started in [init] runs to [final] whatever the order of its
    steps: [final] is reached, no step leaves it, and every run from [init]
    can be continued to it. *)
Definition completes {R : Type} (init final : list (pstate R)) : Prop :=
  steps init final
  /\ nf step final
  /\ forall cfg, steps init cfg -> steps cfg final.

(** Every rank starts the same program [f] on its own rank; [gs] holds the
    generator state of each rank at the call. *)
Definition spawn {R : Type} (f : Z -> proc R) (gs : list rng) : list (pstate R) :=
  load f 0 (map (fun g => (g, [])) gs).

(** A process, and a group, whose programs are followed by the
    continuations [F]. *)
Definition bind_state {R Q : Type} (f : R -> proc Q) (st : pstate R) : pstate Q :=
  PState (st_rng st) (st_out st) (bind (st_code st) f).

Fixpoint bind_all {R Q : Type} (F : nat -> R -> proc Q) (p : nat)
    (cfg : list (pstate R)) : list (pstate Q) :=
  match cfg with
  | [] => []
  | st :: rest => bind_state (F p) st :: bind_all F (S p) rest
  end.

(** ** The transfers of a call *)

(** The ranks of [procs] whose row range is not empty. *)
Definition nonempty_ranks (size num_procs : Z) (procs : list Z) : list Z :=
  List.filter (fun p => local_rows_of size num_procs p >? 0) procs.

(** The rows of [A] in the range of the rank [p]. *)
Definition block_of (A : matrix) (size num_procs p : Z) : matrix :=
  np_slice A (start_row_of size num_procs p)
    (start_row_of size num_procs p + local_rows_of size num_procs p).

(** One send per rank with rows, tagged with the rank it goes to. *)
Definition scatter_events (A : matrix) (size num_procs : Z) (procs : list Z)
  : list event :=
  map (fun p => EvSend p p (block_of A size num_procs p))
    (nonempty_ranks size num_procs procs).

(** One receive per rank with rows, tagged with the rank it comes from
    plus 100. *)
Definition gather_events (size num_procs : Z) (procs : list Z) : list event :=
  map (fun p => EvRecv p (p + 100)) (nonempty_ranks size num_procs procs).

(** [np.random.seed(42)] followed by the two calls of
    [np.random.rand(size, size)]: the matrices [A] and [B] and the state the
    generator is left in. *)
Definition root_matrices (size : Z) : exn + (matrix * matrix * rng) :=
  match np_random_rand (rng_seed 42) size size with
  | inl x => inl x
  | inr (A, g1) =>
      match np_random_rand g1 size size with
      | inl x => inl x
      | inr (B, g2) => inr (A, B, g2)
      end
  end.

(** The array [C] of the root once the rows below [k] have been written:
    the first [k] rows of the product [P] over rows of zeros. *)
Definition assembled (P : matrix) (size k : Z) : matrix :=
  Matrix size
    (take (Z.to_nat k) (mrows P)
       ++ replicate (Z.to_nat (size - k)) (replicate (Z.to_nat size) zero)).

(** The loops of the root as parts of its program: the receives from the
    ranks [procs] into the array that holds the first [k] rows of [P], and
    the sends to the ranks [procs] followed by all the receives. *)
Definition gather_loop (P : matrix) (size num_procs k : Z) (procs : list Z)
  : proc (option matrix) :=
  do C <- recv_rows size num_procs procs (assembled P size k) ;
  Ret (Some C).

Definition scatter_loop (A P : matrix) (size num_procs : Z) (procs : list Z)
  : proc (option matrix) :=
  do _ <- send_rows (Some A) (size / num_procs) (size mod num_procs) procs ;
  gather_loop P size num_procs (start_row_of size num_procs 1)
    (py_range 1 num_procs).

(** ** Environments that deliver arrays of the expected shape *)

(** The transport hands to the root, from every rank with rows, a block
    with the row count of that rank and [size] columns. *)
Definition delivers_blocks (e : env) (size num_procs : Z) : Prop :=
  forall p, 1 <= p < num_procs -> 0 < local_rows_of size num_procs p ->
    nrows (recv_in e p (p + 100)) = local_rows_of size num_procs p
    /\ ncols (recv_in e p (p + 100)) = size.

(** The transport hands to the rank [rank] a matrix [B] and rows of [A]
    whose inner dimensions agree. *)
Definition delivers_rows (e : env) (rank : Z) : Prop :=
  exists B, bcast_in e = Some B /\ ncols (recv_in e 0 rank) = nrows B.

(** No tag of a send is the tag of a receive. *)
Definition tags_disjoint (evs : list event) : Prop :=
  forall d t s t', In (d, t) (sends evs) -> In (s, t') (recvs evs) -> t <> t'.

(** The process stands at a send or a receive. *)
Definition at_transfer {R : Type} (st : pstate R) : bool :=
  match st_code st with
  | Send _ _ _ _ | Recv _ _ _ => true
  | _ => false
  end.

(** The process stands at a call on the transport. *)
Definition at_comm {R : Type} (st : pstate R) : bool :=
  at_bcast st || at_transfer st.

(** The process has stopped with an exception. *)
Definition raised {R : Type} (st : pstate R) : bool :=
  match st_code st with
  | Raise _ => true
  | _ => false
  end.

(** The program seeds and draws, without an error, until it calls the
    broadcast, and raises [x] when the broadcast returns. *)
Fixpoint raises_after_bcast {R : Type} (x : exn) (p : proc R) : Prop :=
  match p with
  | Seed _ k => raises_after_bcast x k
  | Rand r c k => 0 <= r /\ 0 <= c /\ forall m, raises_after_bcast x (k m)
  | Bcast _ k => forall v, k v = Raise x
  | _ => False
  end.

(** The group ends in an error before any call on the transport: every run
    ends with each process stopped by an exception, and in no configuration
    of a run a process stands at a broadcast, a send or a receive. *)
Definition fails_before_communication {R : Type} (init : list (pstate R))
  : Prop :=
  exists final,
    completes init final
    /\ Forall (fun st => raised st = true) final
    /\ forall cfg, steps init cfg -> Forall (fun st => at_comm st = false) cfg.

(** The calls on the transport of the root and of the rank [r] agree: the
    root sends once to each rank with rows (tag: the rank) and receives once
    from each of them (tag: the rank plus 100), in the order of the ranks;
    the rank [r] receives and sends once when its own row count is positive,
    and does neither otherwise. *)
Definition transfers_agree (size num_procs r : Z) (root rank : list event) : Prop :=
  let with_rows := nonempty_ranks size num_procs (py_range 1 num_procs) in
  sends root = map (fun p => (p, p)) with_rows
  /\ recvs root = map (fun p => (p, p + 100)) with_rows
  /\ recvs rank = (if local_rows_of size num_procs r >? 0 then [(0, r)] else [])
  /\ sends rank
     = (if local_rows_of size num_procs r >? 0 then [(0, r + 100)] else [])
  /\ (In (r, r) (sends root) <-> 0 < local_rows_of size num_procs r)
  /\ (In (0, r) (recvs rank) <-> 0 < local_rows_of size num_procs r)
  /\ (In (0, r + 100) (sends rank) <-> 0 < local_rows_of size num_procs r)
  /\ (In (r, r + 100) (recvs root) <-> 0 < local_rows_of size num_procs r).

(** What [verify_correctness] reports after the first line on the root:
    success, or failure with the maximum absolute difference. *)
Definition reports (C_serial C_mpi : matrix) (b : bool) (report : list message)
  : Prop :=
  if b then report = [MsgCorrect]
  else exists d, np_max_abs_diff C_serial C_mpi = inr d
                 /\ report = [MsgErrors; MsgMaxDiff d].

(** ** A scheduler *)

(** One way to run a group: the first process that can move alone moves;
    otherwise a complete broadcast is delivered; otherwise the first send
    whose receive is posted is transferred. *)
Fixpoint first_local {R : Type} (cfg : list (pstate R)) : option (nat * pstate R) :=
  match cfg with
  | [] => None
  | st :: rest =>
      match local_step st with
      | Some st' => Some (O, st')
      | None =>
          match first_local rest with
          | Some (i, st') => Some (S i, st')
          | None => None
          end
      end
  end.

Definition bcast_ready {R : Type} (cfg : list (pstate R)) : option (option matrix) :=
  match cfg with
  | [] => None
  | root :: _ =>
      match st_code root with
      | Bcast v _ => if forallb at_bcast cfg then Some v else None
      | _ => None
      end
  end.

(** The transfer of the send posted by the process [i], if any. *)
Definition transfer_from {R : Type} (cfg : list (pstate R)) (i : nat)
  : option (list (pstate R)) :=
  match cfg !! i with
  | Some si =>
      match st_code si with
      | Send m d t k =>
          if d <? 0 then None
          else
            match cfg !! Z.to_nat d with
            | Some sj =>
                match st_code sj with
                | Recv s t' k' =>
                    if (s =? Z.of_nat i) && (t' =? t) then
                      Some (<[Z.to_nat d := continue sj (k' m)]>
                              (<[i := continue si k]> cfg))
                    else None
                | _ => None
                end
            | None => None
            end
      | _ => None
      end
  | None => None
  end.

Fixpoint first_transfer {R : Type} (cfg : list (pstate R)) (candidates : list nat)
  : option (list (pstate R)) :=
  match candidates with
  | [] => None
  | i :: rest =>
      match transfer_from cfg i with
      | Some cfg' => Some cfg'
      | None => first_transfer cfg rest
      end
  end.

Definition schedule {R : Type} (cfg : list (pstate R)) : option (list (pstate R)) :=
  match first_local cfg with
  | Some (i, st') => Some (<[i := st']> cfg)
  | None =>
      match bcast_ready cfg with
      | Some v => Some (map (deliver v) cfg)
      | None => first_transfer cfg (seq 0 (length cfg))
      end
  end.

Fixpoint run {R : Type} (fuel : nat) (cfg : list (pstate R)) : list (pstate R) :=
  match fuel with
  | O => cfg
  | S fuel' =>
      match schedule cfg with
      | Some cfg' => run fuel' cfg'
      | None => cfg
      end
  end.

(** The values the processes that have returned hold; [None] for a process
    that has not returned. *)
Definition results {R : Type} (cfg : list (pstate R)) : list (option R) :=
  map (fun st => match st_code st with Ret v => Some v | _ => None end) cfg.

(** ** The matrices of the serial benchmark *)

(** [np.random.seed(s)] of an integer: the seed of the legacy generator
    lies in [0 .. 2**32 - 1], any other integer is a [ValueError]. *)
Definition np_random_seed {R : Type} (s : Z) (k : proc R) : proc R :=
  if (0 <=? s) && (s <? 2 ^ 32) then Seed s k else Raise ValueError.

(** [generate_random_matrix(rows, cols, seed=42)] *)
Definition generate_random_matrix (rows cols seed : Z) : proc matrix :=
  np_random_seed seed (Rand rows cols (fun m => Ret m)).

(** ** The rows the root gathers *)

(** The rows the transport hands to the root from the ranks of [procs] that
    have rows, in the order of the ranks. *)
Definition received_rows (size num_procs : Z) (e : env) (procs : list Z)
  : list (list elt) :=
  concat (map (fun p => mrows (recv_in e p (p + 100)))
            (nonempty_ranks size num_procs procs)).

(** ** Exception handlers *)

(** [try: p  except Exception as e: h(e)].  The handler takes over where [p]
    raises; a draw with a negative dimension raises before it touches the
    generator, so the handler takes over at the draw. *)
Fixpoint try_except {R : Type} (p : proc R) (h : exn -> proc R) : proc R :=
  match p with
  | Ret r => Ret r
  | Raise x => h x
  | Seed s k => Seed s (try_except k h)
  | Rand r c k =>
      if (r <? 0) || (c <? 0) then h ValueError
      else Rand r c (fun m => try_except (k m) h)
  | Bcast v k => Bcast v (fun m => try_except (k m) h)
  | Send m d t k => Send m d t (try_except k h)
  | Recv s t k => Recv s t (fun m => try_except (k m) h)
  | Print m k => Print m (try_except k h)
  end.

(** A process, and a group, whose programs run under the handlers [H]. *)
Definition try_state {R : Type} (h : exn -> proc R) (st : pstate R) : pstate R :=
  PState (st_rng st) (st_out st) (try_except (st_code st) h).

Fixpoint try_all {R : Type} (H : nat -> exn -> proc R) (p : nat)
    (cfg : list (pstate R)) : list (pstate R) :=
  match cfg with
  | [] => []
  | st :: rest => try_state (H p) st :: try_all H (S p) rest
  end.

(** ** The test suite *)

(** What the methods of [MPITestSuite] print. *)
Inductive line : Type :=
| TestingCorrectness
| TestingSize (size : Z)
| PassedSize (size : Z)
| FailedSize (size : Z) (max_diff : elt)
| TestingEdgeCases
| TestingSingle
| PassedSingle
| FailedSingle
| ErrorSingle (e : exn)
| TestingSmall (small_size num_procs : Z)
| PassedSmall
| FailedSmall
| ErrorSmall (e : exn).

(** An [MPITestSuite] object, with what it has printed so far: no function
    the suite calls prints. *)
Record suite : Type := Suite {
  suite_rank : Z;
  suite_procs : Z;
  tests_passed : Z;
  tests_failed : Z;
  suite_out : list line
}.

(** [MPITestSuite()] on the process of rank [rank] in a group of
    [num_procs]. *)
Definition new_suite (rank num_procs : Z) : suite := Suite rank num_procs 0 0 [].

(** [self.log(message, rank_filter)] *)
Definition log (self : suite) (m : line) (rank_filter : Z) : suite :=
  if suite_rank self =? rank_filter then
    Suite (suite_rank self) (suite_procs self) (tests_passed self)
      (tests_failed self) (suite_out self ++ [m])
  else self.

(** [self.tests_passed += 1] and [self.tests_failed += 1] *)
Definition passed (self : suite) : suite :=
  Suite (suite_rank self) (suite_procs self) (tests_passed self + 1)
    (tests_failed self) (suite_out self).

Definition failed (self : suite) : suite :=
  Suite (suite_rank self) (suite_procs self) (tests_passed self)
    (tests_failed self + 1) (suite_out self).

(** The loop of [test_correctness]: [for size in sizes]. *)
Fixpoint correctness_loop (self : suite) (sizes : list Z) : proc suite :=
  match sizes with
  | [] => Ret self
  | size :: rest =>
      let self := log self (TestingSize size) 0 in
      do C_serial <-
        (if suite_rank self =? 0 then
           Seed 42
             (Rand size size (fun A =>
              Rand size size (fun B =>
              do C <- lift (serial_matrix_multiply A B) ; Ret (Some C))))
         else Ret None) ;
      do C_mpi <- mpi_matrix_multiply size (suite_rank self) (suite_procs self) ;
      do self <-
        (if suite_rank self =? 0 then
           do close <- lift (allclose_obj C_serial C_mpi) ;
           if close : bool then Ret (passed (log self (PassedSize size) 0))
           else
             do max_diff <- lift (max_abs_diff_obj C_serial C_mpi) ;
             Ret (failed (log self (FailedSize size max_diff) 0))
         else Ret self) ;
      correctness_loop self rest
  end.

(** [self.test_correctness(sizes)] *)
Definition test_correctness (self : suite) (sizes : list Z) : proc suite :=
  correctness_loop (log self TestingCorrectness 0) sizes.

(** [C is not None and C.shape == (r, c)] *)
Definition has_shape (C : option matrix) (r c : Z) : bool :=
  match C with
  | Some m => (nrows m =? r) && (ncols m =? c)
  | None => false
  end.

(** Lines 68 to 81 of [test_edge_cases]: the single process test.  The
    object changes only after the call has returned, so the handler finds it
    as it was at the [try]. *)
Definition single_process_test (self : suite) : proc suite :=
  if suite_procs self =? 1 then
    let self := log self TestingSingle 0 in
    try_except
      (do C <- mpi_matrix_multiply 50 (suite_rank self) (suite_procs self) ;
       if (suite_rank self =? 0)
          && match C with Some _ => true | None => false end
       then Ret (passed (log self PassedSingle 0))
       else Ret (failed (log self FailedSingle 0)))
      (fun e => Ret (failed (log self (ErrorSingle e) 0)))
  else Ret self.

(** Lines 83 to 98 of [test_edge_cases]: the small matrix test. *)
Definition small_matrix_test (self : suite) : proc suite :=
  let small_size := Z.max 2 (suite_procs self - 1) in
  let self := log self (TestingSmall small_size (suite_procs self)) 0 in
  try_except
    (do C <- mpi_matrix_multiply small_size (suite_rank self) (suite_procs self) ;
     if suite_rank self =? 0 then
       if has_shape C small_size small_size
       then Ret (passed (log self PassedSmall 0))
       else Ret (failed (log self FailedSmall 0))
     else Ret self)
    (fun e => Ret (failed (log self (ErrorSmall e) 0))).

(** [self.test_edge_cases()] *)
Definition test_edge_cases (self : suite) : proc suite :=
  let self := log self TestingEdgeCases 0 in
  do self <- single_process_test self ;
  small_matrix_test self.

(** The product of the matrices of seed 42 is close to itself. *)
Definition self_close (size : Z) : bool :=
  match root_matrices size with
  | inr (A, B, _) =>
      match np_dot A B with
      | inr P => match np_allclose P P with inr b => b | inl _ => false end
      | inl _ => false
      end
  | inl _ => false
  end.

(** ** The calls of the tests as parts of their programs *)

(** What follows the call in an iteration of the loop of [test_correctness]:
    on the root the comparison with the serial product [P], then the other
    sizes. *)
Definition after_multiply (num_procs size : Z) (P : matrix) (self : suite)
    (sizes : list Z) (r : Z) (C_mpi : option matrix) : proc suite :=
  if r =? 0 then
    bind
      (bind (lift (allclose_obj (Some P) C_mpi)) (fun close : bool =>
         if close then Ret (passed (log self (PassedSize size) 0))
         else
           bind (lift (max_abs_diff_obj (Some P) C_mpi)) (fun max_diff =>
             Ret (failed (log self (FailedSize size max_diff) 0)))))
      (fun self' => correctness_loop self' sizes)
  else correctness_loop (new_suite r num_procs) sizes.

(** What follows the call of the small matrix test on the rank [r], and its
    handler; [a], [b] and [out] are the counters and the output of the root
    at the test. *)
Definition after_small (num_procs a b : Z) (out : list line) (r : Z)
    (C : option matrix) : proc suite :=
  let small_size := Z.max 2 (num_procs - 1) in
  if r =? 0 then
    if has_shape C small_size small_size
    then Ret (Suite 0 num_procs (a + 1) b
                ((out ++ [TestingSmall small_size num_procs]) ++ [PassedSmall]))
    else Ret (Suite 0 num_procs a (b + 1)
                ((out ++ [TestingSmall small_size num_procs]) ++ [FailedSmall]))
  else Ret (new_suite r num_procs).

Definition small_handler (num_procs a b : Z) (out : list line) (r : Z) (e : exn)
  : proc suite :=
  if r =? 0 then
    Ret (Suite 0 num_procs a (b + 1)
           ((out ++ [TestingSmall (Z.max 2 (num_procs - 1)) num_procs])
              ++ [ErrorSmall e]))
  else Ret (failed (log (new_suite r num_procs) (ErrorSmall e) 0)).

End Embedding.

Arguments Ret {Num R} r.
Arguments Raise {Num R} e.
Arguments Seed {Num R} s k.
Arguments Rand {Num R} r c k.
Arguments Bcast {Num R} v k.
Arguments Send {Num R} payload dest tag k.
Arguments Recv {Num R} source tag k.
Arguments Print {Num R} m k.
Arguments Result {Num RS R} events outcome rng_after.
Arguments events {Num RS R} r.
Arguments outcome {Num RS R} r.
Arguments rng_after {Num RS R} r.
Arguments PState {Num RS R} st_rng st_out st_code.
Arguments st_rng {Num RS R} p.
Arguments st_out {Num RS R} p.
Arguments st_code {Num RS R} p.

(** ** IEEE binary64 elements *)

Module Float64.

Definition is_finite (x : float) : bool :=
  negb (PrimFloat.is_nan x || PrimFloat.is_infinity x).

(** [1e-10] as the binary64 number nearest to it. *)
Definition tol : float := 0x1.b7cdfd9d7bdbbp-34%float.

(** [np.isclose(x, y, rtol=1e-10, atol=1e-10)]: finite numbers are compared
    by [|x - y| <= atol + rtol * |y|], the others by equality. *)
Definition isclose64 (x y : float) : bool :=
  if is_finite x && is_finite y then
    PrimFloat.leb (PrimFloat.abs (x - y)) (tol + tol * PrimFloat.abs y)
  else PrimFloat.eqb x y.

(** The maximum of [np.max], which propagates NaN. *)
Definition fmax64 (x y : float) : float :=
  if PrimFloat.is_nan x then x
  else if PrimFloat.is_nan y then y
  else if PrimFloat.ltb x y then y else x.

#[export] Instance scalar : Scalar := {|
  elt := float;
  zero := 0%float;
  add := PrimFloat.add;
  mul := PrimFloat.mul;
  sub := PrimFloat.sub;
  abs := PrimFloat.abs;
  fmax := fmax64;
  isclose := isclose64
|}.

(** A linear congruential generator of samples in [0, 1), standing in for
    numpy's generator when a program is run here. *)
Definition lcg_next (g : Z) : float * Z :=
  let g' := (1103515245 * g + 12345) mod 2147483648 in
  ((PrimFloat.of_uint63 (Uint63.of_Z g') / 2147483648)%float, g').

#[export] Instance lcg : RandomState := {|
  rng := Z;
  rng_seed := fun s => s;
  rng_next := lcg_next
|}.

(** A generator whose every sample is 1, for the matrices of all ones. *)
Definition ones : RandomState := {|
  rng := unit;
  rng_seed := fun _ => tt;
  rng_next := fun g => (1%float, g)
|}.

(** [x] agrees with [y] within the relative tolerance [rtol] and the
    absolute tolerance [atol], as numpy computes it on binary64 numbers:
    [|x - y| <= atol + rtol * |y|] for finite numbers, equality for the
    others. *)
Definition within_tolerance (rtol atol x y : float) : Prop :=
  if is_finite x && is_finite y then
    PrimFloat.leb (PrimFloat.abs (x - y)) (atol + rtol * PrimFloat.abs y) = true
  else PrimFloat.eqb x y = true.

(** The positive binary64 number [x] is within half a unit in its last place
    of the rational [num / den]. *)
Definition rounds (num den : Z) (x : float) : Prop :=
  match Prim2SF x with
  | S754_finite false m e =>
      e <= 0 /\ 2 * Z.abs (Z.pos m * den - num * 2 ^ (- e)) <= den
  | _ => False
  end.

(** [d] is a maximum of the numbers that satisfy [D], as [np.max] has it:
    one of them, not a number when one of them is not a number, and
    otherwise not below any of them. *)
Definition is_maximum (D : float -> Prop) (d : float) : Prop :=
  D d
  /\ forall v, D v ->
       (PrimFloat.is_nan v = true -> PrimFloat.is_nan d = true)
       /\ (PrimFloat.is_nan d = false -> PrimFloat.leb v d = true).

End Float64.

(** ** The report of the verification *)

(** What [verify_correctness] reports on binary64 arrays after its first
    line: success, or failure with a maximum of the absolute differences of
    the elements at the same place. *)
Definition verdict_report (C_serial C_mpi : @matrix Float64.scalar) (b : bool)
    (report : list (@message Float64.scalar)) : Prop :=
  if b then report = [MsgCorrect]
  else
    exists d,
      report = [MsgErrors; MsgMaxDiff d]
      /\ Float64.is_maximum
           (fun v => exists x y : float,
                       @at_same_place Float64.scalar C_serial C_mpi x y
                       /\ v = PrimFloat.abs (x - y)%float) d.

(** ** Properties of a partition *)

(** The row [i] lies in the range of the rank [r]. *)
Definition owns (size num_procs r i : Z) : Prop :=
  start_row_of size num_procs r <= i
  < start_row_of size num_procs r + local_rows_of size num_procs r.

(** The ranges of the ranks [0 .. num_procs - 1] start at row 0, follow one
    another without a gap in the order of the ranks, end at [size], do not
    overlap, hold rows of [0 .. size - 1] only and give each of these rows to
    exactly one rank, and their row counts add up to [size]. *)
Definition exact_partition (size num_procs : Z) : Prop :=
  start_row_of size num_procs 0 = 0
  /\ (forall r, 0 <= r < num_procs -> 0 <= local_rows_of size num_procs r)
  /\ (forall r, 0 <= r -> r + 1 < num_procs ->
        start_row_of size num_procs (r + 1)
        = start_row_of size num_procs r + local_rows_of size num_procs r)
  /\ start_row_of size num_procs (num_procs - 1)
     + local_rows_of size num_procs (num_procs - 1) = size
  /\ (forall r1 r2, 0 <= r1 -> r1 < r2 -> r2 < num_procs ->
        start_row_of size num_procs r1 + local_rows_of size num_procs r1
        <= start_row_of size num_procs r2)
  /\ (forall i, 0 <= i < size ->
        exists r, 0 <= r < num_procs /\ owns size num_procs r i)
  /\ (forall i r, 0 <= r < num_procs -> owns size num_procs r i -> 0 <= i < size)
  /\ (forall i r1 r2, 0 <= r1 < num_procs -> 0 <= r2 < num_procs ->
        owns size num_procs r1 i -> owns size num_procs r2 i -> r1 = r2)
  /\ total_rows_of size num_procs (py_range 0 num_procs) = size.

(** * The partition of the rows *)

Lemma foldr_add_init (l : list Z) (a : Z) :
  foldr Z.add a l = foldr Z.add 0 l + a.
Proof. induction l as [|y l IH]; simpl; lia. Qed.

Section Partition.

Variables size num_procs : Z.
Hypothesis size_nonneg : 0 <= size.
Hypothesis procs_pos : 1 <= num_procs.

Let base := size / num_procs.
Let remainder := size mod num_procs.

Lemma division_facts :
  size = num_procs * base + remainder /\ 0 <= remainder < num_procs /\ 0 <= base.
Proof.
  unfold base, remainder. split; [|split].
  - apply Z.div_mod. lia.
  - apply Z.mod_pos_bound. lia.
  - apply Z.div_pos; lia.
Qed.

Lemma row_range_low (r : Z) :
  r < remainder -> row_range size num_procs r = (base + 1, r * (base + 1)).
Proof.
  intros Hr. unfold row_range. fold base remainder.
  destruct (Z.ltb_spec r remainder); [reflexivity | lia].
Qed.

Lemma row_range_high (r : Z) :
  remainder <= r ->
  row_range size num_procs r
  = (base, remainder * (base + 1) + (r - remainder) * base).
Proof.
  intros Hr. unfold row_range. fold base remainder.
  destruct (Z.ltb_spec r remainder); [lia | reflexivity].
Qed.

Lemma local_rows_nonneg (r : Z) : 0 <= local_rows_of size num_procs r.
Proof.
  destruct division_facts as (_ & _ & Hb).
  unfold local_rows_of. destruct (Z.lt_ge_cases r remainder).
  - rewrite row_range_low by assumption. simpl. lia.
  - rewrite row_range_high by assumption. simpl. lia.
Qed.

Lemma start_row_zero : start_row_of size num_procs 0 = 0.
Proof.
  destruct division_facts as (_ & Hr & _).
  unfold start_row_of. destruct (Z.lt_ge_cases 0 remainder).
  - rewrite row_range_low by assumption. simpl. lia.
  - rewrite row_range_high by assumption. simpl. nia.
Qed.

Lemma start_row_next (r : Z) :
  start_row_of size num_procs (r + 1)
  = start_row_of size num_procs r + local_rows_of size num_procs r.
Proof.
  unfold start_row_of, local_rows_of.
  destruct (Z.lt_ge_cases r remainder), (Z.lt_ge_cases (r + 1) remainder).
  - rewrite !row_range_low by assumption. simpl. lia.
  - rewrite (row_range_low r), (row_range_high (r + 1)) by assumption. simpl.
    assert (remainder = r + 1) as -> by lia. lia.
  - lia.
  - rewrite !row_range_high by assumption. simpl. lia.
Qed.

Lemma start_row_end : start_row_of size num_procs num_procs = size.
Proof.
  destruct division_facts as (Hs & Hr & _).
  unfold start_row_of. rewrite row_range_high by lia. simpl. lia.
Qed.

Lemma start_row_mono (r1 r2 : Z) :
  0 <= r1 <= r2 -> start_row_of size num_procs r1 <= start_row_of size num_procs r2.
Proof.
  intros [H0 Hle].
  replace r2 with (r1 + Z.of_nat (Z.to_nat (r2 - r1))) by lia.
  induction (Z.to_nat (r2 - r1)) as [|k IH].
  - rewrite Z.add_0_r. lia.
  - replace (r1 + Z.of_nat (S k)) with (r1 + Z.of_nat k + 1) by lia.
    rewrite start_row_next.
    pose proof (local_rows_nonneg (r1 + Z.of_nat k)). lia.
Qed.

Lemma start_row_bounds (r : Z) :
  0 <= r <= num_procs -> 0 <= start_row_of size num_procs r <= size.
Proof.
  intros Hr.
  pose proof (start_row_mono 0 r) as Hlo.
  pose proof (start_row_mono r num_procs) as Hhi.
  rewrite start_row_zero in Hlo. rewrite start_row_end in Hhi. lia.
Qed.

Lemma range_end (r : Z) :
  0 <= r < num_procs ->
  start_row_of size num_procs r + local_rows_of size num_procs r <= size.
Proof.
  intros Hr. rewrite <- start_row_next. apply start_row_bounds. lia.
Qed.

Lemma ranges_ordered (r1 r2 : Z) :
  0 <= r1 < r2 ->
  start_row_of size num_procs r1 + local_rows_of size num_procs r1
  <= start_row_of size num_procs r2.
Proof.
  intros Hr. rewrite <- start_row_next. apply start_row_mono. lia.
Qed.

Lemma rows_prefix_sum (k : nat) :
  total_rows_of size num_procs (py_range 0 (Z.of_nat k))
  = start_row_of size num_procs (Z.of_nat k).
Proof.
  unfold total_rows_of, py_range.
  rewrite Z.sub_0_r, Nat2Z.id.
  induction k as [|k IH].
  - simpl. symmetry. apply start_row_zero.
  - rewrite seq_S, !map_app, foldr_app. simpl.
    replace (Z.of_nat (S k)) with (Z.of_nat k + 1) by lia.
    rewrite start_row_next, <- IH, foldr_add_init. simpl.
    rewrite (Z.add_0_l (Z.of_nat k)). lia.
Qed.

Lemma row_owner_exists (k : nat) (i : Z) :
  0 <= i < start_row_of size num_procs (Z.of_nat k) ->
  exists r, 0 <= r < Z.of_nat k
    /\ start_row_of size num_procs r <= i
       < start_row_of size num_procs r + local_rows_of size num_procs r.
Proof.
  induction k as [|k IH]; intros Hi.
  - change (Z.of_nat 0) with 0 in Hi. rewrite start_row_zero in Hi. lia.
  - destruct (Z.lt_ge_cases i (start_row_of size num_procs (Z.of_nat k))) as [Hlt | Hge].
    + destruct IH as (r & Hr & Hin); [lia|]. exists r. split; [lia | assumption].
    + exists (Z.of_nat k). split; [lia|].
      rewrite <- start_row_next.
      replace (Z.of_nat k + 1) with (Z.of_nat (S k)) by lia. lia.
Qed.

End Partition.

(** C2. For [0 <= size] and [1 <= num_procs] the row ranges computed by
    [distribute_matrix_rows] for the ranks [0 .. num_procs - 1] are disjoint,
    contiguous in ascending rank order without gaps, cover exactly the rows
    [0 .. size - 1], and their row counts sum to [size]. *)
Theorem row_ranges_partition (size num_procs : Z) :
  0 <= size -> 1 <= num_procs -> exact_partition size num_procs.
Proof.
  intros Hs Hn. unfold exact_partition.
  split; [apply start_row_zero; assumption|].
  split; [intros r _; apply local_rows_nonneg; assumption|].
  split; [intros r _ _; apply start_row_next|].
  split.
  { rewrite <- start_row_next.
    replace (num_procs - 1 + 1) with num_procs by lia.
    apply start_row_end; assumption. }
  split; [intros r1 r2 H0 Hlt _; apply ranges_ordered; [assumption .. | lia]|].
  split.
  { intros i Hi.
    destruct (row_owner_exists size num_procs Hs Hn (Z.to_nat num_procs) i)
      as (r & Hr & Hin).
    - rewrite Z2Nat.id by lia. rewrite start_row_end by assumption. lia.
    - exists r. split; [lia | exact Hin]. }
  split.
  { intros i r Hr [Ha Hb].
    pose proof (start_row_bounds size num_procs Hs Hn r).
    pose proof (range_end size num_procs Hs Hn r). lia. }
  split.
  { intros i r1 r2 H1 H2 [Ha Hb] [Hc Hd].
    destruct (Z.lt_trichotomy r1 r2) as [Hlt | [Heq | Hgt]]; [|assumption|].
    - pose proof (ranges_ordered size num_procs Hs Hn r1 r2). lia.
    - pose proof (ranges_ordered size num_procs Hs Hn r2 r1). lia. }
  rewrite <- (Z2Nat.id num_procs) at 2 by lia.
  rewrite rows_prefix_sum by assumption.
  rewrite Z2Nat.id by lia. apply start_row_end; assumption.
Qed.

Lemma row_ranges_partition_witness :
  0 <= 5 /\ 1 <= 3 /\ exact_partition 5 3.
Proof.
  split; [lia|]. split; [lia|]. apply (row_ranges_partition 5 3); lia.
Defined.

(** * Runs of one process *)

Section LocalRuns.

Context `{Num : Scalar} `{RS : !RandomState}.

Implicit Types (e : env) (g : rng) (me : Z).

Lemma interp_bind {A B : Type} me e g (p : proc A) (f : A -> proc B) :
  interp me e g (bind p f)
  = match outcome (interp me e g p) with
    | inl x => Result (events (interp me e g p)) (inl x) (rng_after (interp me e g p))
    | inr a =>
        let r2 := interp me e (rng_after (interp me e g p)) (f a) in
        Result (events (interp me e g p) ++ events r2) (outcome r2) (rng_after r2)
    end.
Proof.
  revert g. induction p as [a | x | s k IH | r c k IH | v k IH | m d t k IH
                            | s t k IH | m k IH]; intros g; simpl.
  - destruct (interp me e g (f a)); reflexivity.
  - reflexivity.
  - apply IH.
  - destruct (np_random_rand g r c) as [x | [m g']]; simpl; [reflexivity | apply IH].
  - rewrite IH. destruct (outcome (interp me e g (k _))); reflexivity.
  - rewrite IH. destruct (outcome (interp me e g k)); reflexivity.
  - rewrite IH. destruct (outcome (interp me e g (k _))); reflexivity.
  - rewrite IH. destruct (outcome (interp me e g k)); reflexivity.
Qed.

Lemma py_range_nil (a b : Z) : b <= a -> py_range a b = [].
Proof. intros H. unfold py_range. replace (Z.to_nat (b - a)) with O by lia. reflexivity. Qed.

Lemma py_range_cons (a b : Z) : a < b -> py_range a b = a :: py_range (a + 1) b.
Proof.
  intros H. unfold py_range.
  replace (Z.to_nat (b - a)) with (S (Z.to_nat (b - (a + 1)))) by lia.
  simpl. f_equal; [lia|].
  rewrite <- seq_shift, map_map. apply map_ext. intros k. lia.
Qed.

Lemma in_py_range (a b x : Z) : In x (py_range a b) <-> a <= x < b.
Proof.
  unfold py_range. rewrite in_map_iff. split.
  - intros (k & <- & Hk). apply in_seq in Hk. lia.
  - intros Hx. exists (Z.to_nat (x - a)). split; [lia|]. apply in_seq. lia.
Qed.

End LocalRuns.

(** * Arrays *)

Section Arrays.

Context `{Num : Scalar} `{RS : !RandomState}.

Lemma rand_rows_length (r c : nat) (g : rng) :
  length (fst (rand_rows r c g)) = r.
Proof.
  revert g. induction r as [|r IH]; intros g; simpl; [reflexivity|].
  destruct (rand_list c g) as [row g1].
  specialize (IH g1). destruct (rand_rows r c g1) as [rest g2].
  simpl in *. congruence.
Qed.

Lemma np_random_rand_ok (g : rng) (r c : Z) :
  0 <= r -> 0 <= c ->
  exists M g', np_random_rand g r c = inr (M, g') /\ ncols M = c /\ nrows M = r.
Proof.
  intros Hr Hc. unfold np_random_rand.
  destruct (Z.ltb_spec r 0); [lia|]. destruct (Z.ltb_spec c 0); [lia|]. simpl.
  pose proof (rand_rows_length (Z.to_nat r) (Z.to_nat c) g) as Hlen.
  destruct (rand_rows (Z.to_nat r) (Z.to_nat c) g) as [rs g'].
  exists (Matrix c rs), g'. split; [reflexivity|]. split; [reflexivity|].
  unfold nrows. simpl in *. lia.
Qed.

Lemma np_random_rand_negative (g : rng) (r c : Z) :
  r < 0 \/ c < 0 -> np_random_rand g r c = inl ValueError.
Proof.
  intros H. unfold np_random_rand.
  destruct (Z.ltb_spec r 0); [reflexivity|].
  destruct (Z.ltb_spec c 0); [reflexivity | lia].
Qed.

Lemma np_zeros_ok (r c : Z) :
  0 <= r -> 0 <= c ->
  np_zeros r c
  = inr (Matrix c (replicate (Z.to_nat r) (replicate (Z.to_nat c) zero))).
Proof.
  intros Hr Hc. unfold np_zeros.
  destruct (Z.ltb_spec r 0); [lia|]. destruct (Z.ltb_spec c 0); [lia|]. reflexivity.
Qed.

Lemma np_zeros_negative (r c : Z) :
  r < 0 \/ c < 0 -> np_zeros r c = inl ValueError.
Proof.
  intros H. unfold np_zeros.
  destruct (Z.ltb_spec r 0); [reflexivity|].
  destruct (Z.ltb_spec c 0); [reflexivity | lia].
Qed.

Lemma slice_index_inside (len i : Z) : 0 <= i <= len -> slice_index len i = i.
Proof.
  intros H. unfold slice_index. destruct (Z.ltb_spec i 0); lia.
Qed.

Lemma py_slice_inside {A : Type} (l : list A) (a b : Z) :
  0 <= a -> a <= b -> b <= Z.of_nat (length l) ->
  py_slice l a b = take (Z.to_nat (b - a)) (drop (Z.to_nat a) l).
Proof.
  intros Ha Hab Hb. unfold py_slice.
  rewrite !slice_index_inside by lia. reflexivity.
Qed.

Lemma py_slice_map {A B : Type} (f : A -> B) (l : list A) (a b : Z) :
  py_slice (map f l) a b = map f (py_slice l a b).
Proof.
  unfold py_slice. rewrite length_map.
  rewrite skipn_map, firstn_map. reflexivity.
Qed.

Lemma py_slice_length {A : Type} (l : list A) (a b : Z) :
  0 <= a -> a <= b -> b <= Z.of_nat (length l) ->
  Z.of_nat (length (py_slice l a b)) = b - a.
Proof.
  intros Ha Hab Hb. rewrite py_slice_inside by assumption.
  rewrite length_take, length_drop. lia.
Qed.

Lemma np_dot_rows (A B P : matrix) :
  np_dot A B = inr P -> nrows P = nrows A /\ ncols P = ncols B.
Proof.
  unfold np_dot. destruct (ncols A =? nrows B); [|discriminate].
  intros [= <-]. unfold nrows. simpl. rewrite length_map. split; reflexivity.
Qed.

(** The rows [a .. b - 1] of a product are the product of those rows. *)
Lemma np_dot_slice (A B P : matrix) (a b : Z) :
  np_dot A B = inr P -> np_dot (np_slice A a b) B = inr (np_slice P a b).
Proof.
  unfold np_dot, np_slice. simpl.
  destruct (ncols A =? nrows B); [|discriminate].
  intros [= <-]. simpl. rewrite py_slice_map. reflexivity.
Qed.

Lemma broadcast_rows_same (k : nat) (c : Z) (v : matrix) :
  nrows v = Z.of_nat k -> ncols v = c -> broadcast_rows k c v = inr (mrows v).
Proof.
  intros Hr Hc. unfold broadcast_rows.
  rewrite Hr, Hc, !Z.eqb_refl. simpl. f_equal. apply map_id.
Qed.

Lemma broadcast_rows_length (k : nat) (c : Z) (v : matrix) (rs : list (list elt)) :
  broadcast_rows k c v = inr rs -> length rs = k.
Proof.
  unfold broadcast_rows.
  destruct ((nrows v =? Z.of_nat k) || (nrows v =? 1)) eqn:Hr; [|discriminate].
  destruct ((ncols v =? c) || (ncols v =? 1)); [|discriminate]. simpl.
  intros [= <-]. rewrite length_map.
  destruct (Z.eqb_spec (nrows v) (Z.of_nat k)) as [Heq | Hne].
  - unfold nrows in Heq. lia.
  - apply length_replicate.
Qed.

(** A slice assignment keeps the shape of the array. *)
Lemma np_setrows_shape (C C' v : matrix) (a b : Z) :
  np_setrows C a b v = inr C' -> nrows C' = nrows C /\ ncols C' = ncols C.
Proof.
  unfold np_setrows.
  destruct (broadcast_rows _ _ v) as [x | rs] eqn:Hb; [discriminate|].
  apply broadcast_rows_length in Hb. intros [= <-]. split; [|reflexivity].
  unfold nrows in *. simpl. rewrite !length_app, length_take, length_drop, Hb.
  unfold slice_index.
  destruct (Z.ltb_spec a 0), (Z.ltb_spec b 0); lia.
Qed.

(** Writing a block of [k] rows of the right width at the rows
    [s .. s + k - 1]. *)
Lemma np_setrows_block (C v : matrix) (s k : Z) :
  0 <= s -> 0 <= k -> s + k <= nrows C ->
  nrows v = k -> ncols v = ncols C ->
  np_setrows C s (s + k) v
  = inr (Matrix (ncols C)
           (take (Z.to_nat s) (mrows C) ++ mrows v
              ++ drop (Z.to_nat (s + k)) (mrows C))).
Proof.
  intros Hs Hk Hend Hr Hc. unfold np_setrows.
  rewrite !slice_index_inside by lia.
  rewrite broadcast_rows_same by (try assumption; lia).
  repeat f_equal. lia.
Qed.

Lemma assembled_shape (P : matrix) (size k : Z) :
  nrows P = size -> 0 <= k <= size ->
  nrows (assembled P size k) = size /\ ncols (assembled P size k) = size.
Proof.
  intros HP Hk. unfold nrows in *. unfold assembled. simpl. split; [|reflexivity].
  rewrite length_app, length_take, length_replicate. lia.
Qed.

Lemma assembled_zero (P : matrix) (size : Z) :
  0 <= size -> np_zeros size size = inr (assembled P size 0).
Proof.
  intros Hs. rewrite np_zeros_ok by assumption. unfold assembled.
  rewrite Z.sub_0_r. reflexivity.
Qed.

Lemma assembled_full (P : matrix) (size : Z) :
  nrows P = size -> ncols P = size -> assembled P size size = P.
Proof.
  intros Hr Hc. unfold assembled. rewrite Z.sub_diag. simpl.
  rewrite app_nil_r, take_ge by (unfold nrows in Hr; lia).
  destruct P as [c rs]. simpl in *. congruence.
Qed.

(** Writing the rows [k .. k + j - 1] of the product. *)
Lemma assembled_step (P : matrix) (size k j : Z) :
  nrows P = size -> ncols P = size -> 0 <= k -> 0 <= j -> k + j <= size ->
  np_setrows (assembled P size k) k (k + j) (np_slice P k (k + j))
  = inr (assembled P size (k + j)).
Proof.
  intros Hr Hc Hk Hj Hend.
  destruct (assembled_shape P size k Hr) as [HCr HCc]; [lia|].
  assert (Z.of_nat (length (mrows P)) = size) as Hlen by exact Hr.
  rewrite np_setrows_block; try assumption; try lia.
  - rewrite HCc. unfold assembled, np_slice. simpl. f_equal.
    rewrite py_slice_inside by lia.
    rewrite take_app_length' by (rewrite length_take; lia).
    rewrite drop_app_ge by (rewrite length_take; lia).
    rewrite length_take, drop_replicate, app_assoc.
    replace (k + j - k) with j by lia.
    rewrite take_take_drop.
    replace (Z.to_nat k + Z.to_nat j)%nat with (Z.to_nat (k + j)) by lia.
    replace (Z.to_nat (size - k)
             - (Z.to_nat (k + j) - Z.to_nat k `min` length (mrows P)))%nat
      with (Z.to_nat (size - (k + j))) by lia.
    reflexivity.
  - unfold nrows, np_slice. simpl. rewrite py_slice_length by lia. lia.
Qed.

End Arrays.

(** * The programs of the ranks *)

Section Programs.

Context `{Num : Scalar} `{RS : !RandomState}.

Implicit Types (e : env) (g : rng) (me : Z).

Variables size num_procs : Z.

Abbreviation rows := (local_rows_of size num_procs).
Abbreviation start := (start_row_of size num_procs).

Lemma send_rows_cons (A : matrix) (p : Z) (rest : list Z) :
  send_rows (Some A) (size / num_procs) (size mod num_procs) (p :: rest)
  = if rows p >? 0 then
      Send (block_of A size num_procs p) p p
        (send_rows (Some A) (size / num_procs) (size mod num_procs) rest)
    else send_rows (Some A) (size / num_procs) (size mod num_procs) rest.
Proof.
  unfold block_of, local_rows_of, start_row_of, row_range. simpl.
  destruct (p <? size mod num_procs); simpl; reflexivity.
Qed.

Lemma recv_rows_cons (C : matrix) (p : Z) (rest : list Z) :
  recv_rows size num_procs (p :: rest) C
  = if rows p >? 0 then
      Recv p (p + 100) (fun received_data =>
        match np_setrows C (start p) (start p + rows p) received_data with
        | inl x => Raise x
        | inr C' => recv_rows size num_procs rest C'
        end)
    else recv_rows size num_procs rest C.
Proof.
  unfold local_rows_of, start_row_of, row_range. simpl.
  destruct (p <? size mod num_procs); simpl; reflexivity.
Qed.

Lemma interp_send_rows me e g (A : matrix) (procs : list Z) :
  interp me e g (send_rows (Some A) (size / num_procs) (size mod num_procs) procs)
  = Result (scatter_events A size num_procs procs) (inr tt) g.
Proof.
  induction procs as [|p rest IH]; [reflexivity|].
  rewrite send_rows_cons. unfold scatter_events, nonempty_ranks. simpl.
  destruct (rows p >? 0); simpl; [|exact IH].
  rewrite IH. reflexivity.
Qed.

(** The rank [0] in [distribute_matrix_rows]. *)
Lemma interp_distribute_root e g (A : matrix) :
  num_procs <> 0 -> 0 <= rows 0 -> 0 <= size ->
  interp 0 e g (distribute_matrix_rows (Some A) size 0 num_procs)
  = Result (scatter_events A size num_procs (py_range 1 num_procs))
      (inr (block_of A size num_procs 0, rows 0, start 0)) g.
Proof.
  intros Hn Hrows Hsize.
  unfold distribute_matrix_rows, py_floordiv, py_mod.
  destruct (Z.eqb_spec num_procs 0) as [|_]; [contradiction|]. simpl.
  fold (row_range size num_procs 0).
  rewrite (surjective_pairing (row_range size num_procs 0)).
  fold (rows 0) (start 0).
  rewrite np_zeros_ok by assumption. simpl.
  rewrite interp_bind, interp_send_rows. simpl.
  rewrite app_nil_r. reflexivity.
Qed.

(** Every other rank in [distribute_matrix_rows]. *)
Lemma interp_distribute_worker e g (A : option matrix) (rank : Z) :
  rank <> 0 -> num_procs <> 0 -> 0 <= rows rank -> 0 <= size ->
  interp rank e g (distribute_matrix_rows A size rank num_procs)
  = if rows rank >? 0 then
      Result [EvRecv 0 rank] (inr (recv_in e 0 rank, rows rank, start rank)) g
    else
      Result []
        (inr (Matrix size (replicate (Z.to_nat (rows rank))
                             (replicate (Z.to_nat size) zero)),
              rows rank, start rank)) g.
Proof.
  intros Hr Hn Hrows Hsize.
  unfold distribute_matrix_rows, py_floordiv, py_mod.
  destruct (Z.eqb_spec num_procs 0) as [|_]; [contradiction|]. simpl.
  fold (row_range size num_procs rank).
  rewrite (surjective_pairing (row_range size num_procs rank)).
  fold (rows rank) (start rank).
  rewrite np_zeros_ok by assumption. simpl.
  destruct (Z.eqb_spec rank 0) as [|_]; [contradiction|].
  destruct (rows rank >? 0); reflexivity.
Qed.

Lemma root_matrices_ok :
  0 <= size ->
  exists A B g2,
    root_matrices size = inr (A, B, g2)
    /\ (ncols A = size /\ nrows A = size)
    /\ (ncols B = size /\ nrows B = size).
Proof.
  intros Hs. unfold root_matrices.
  destruct (np_random_rand_ok (rng_seed 42) size size Hs Hs) as (A & g1 & -> & HA).
  destruct (np_random_rand_ok g1 size size Hs Hs) as (B & g2 & -> & HB).
  exists A, B, g2. auto.
Qed.

Lemma interp_initialize_root me e g (A B : matrix) (g2 : rng) :
  root_matrices size = inr (A, B, g2) ->
  interp me e g (initialize_matrices size 0) = Result [] (inr (Some A, Some B)) g2.
Proof.
  unfold root_matrices. simpl.
  destruct (np_random_rand (rng_seed 42) size size) as [x | [A' g1]]; [discriminate|].
  destruct (np_random_rand g1 size size) as [x | [B' g2']]; [discriminate|].
  intros [= -> -> ->]. reflexivity.
Qed.

Lemma product_exists (A B : matrix) :
  ncols A = nrows B -> exists P, np_dot A B = inr P.
Proof.
  intros H. unfold np_dot. rewrite H, Z.eqb_refl. eauto.
Qed.

Lemma bind_send_rows_assoc {X Y : Type} (A : matrix) (procs : list Z)
    (f : unit -> proc X) (h : X -> proc Y) :
  bind (bind (send_rows (Some A) (size / num_procs) (size mod num_procs) procs) f) h
  = bind (send_rows (Some A) (size / num_procs) (size mod num_procs) procs)
      (fun x => bind (f x) h).
Proof.
  induction procs as [|p rest IH]; [reflexivity|].
  rewrite send_rows_cons. destruct (rows p >? 0); [|exact IH].
  simpl. rewrite IH. reflexivity.
Qed.

Lemma bind_send_rows_ext {X : Type} (A : matrix) (procs : list Z)
    (f h : unit -> proc X) :
  f tt = h tt ->
  bind (send_rows (Some A) (size / num_procs) (size mod num_procs) procs) f
  = bind (send_rows (Some A) (size / num_procs) (size mod num_procs) procs) h.
Proof.
  intros Hfh. induction procs as [|p rest IH]; [exact Hfh|].
  rewrite send_rows_cons. destruct (rows p >? 0); [|exact IH].
  simpl. rewrite IH. reflexivity.
Qed.

Hypothesis size_nonneg : 0 <= size.
Hypothesis procs_pos : 1 <= num_procs.

(** The program of the root after the broadcast: the two loops. *)
Lemma root_after_bcast (A B P : matrix) :
  ncols A = size -> nrows A = size -> ncols B = size ->
  np_dot A B = inr P ->
  after_bcast (Some B)
    (after_rand B (after_rand A (after_seed (mpi_matrix_multiply size 0 num_procs))))
  = scatter_loop A P size num_procs (py_range 1 num_procs).
Proof.
  intros HAc HAr HBc HP.
  destruct (np_dot_rows A B P HP) as [HPr HPc].
  pose proof (local_rows_nonneg size num_procs size_nonneg procs_pos 0) as Hrows.
  pose proof (start_row_zero size num_procs size_nonneg procs_pos) as Hstart.
  pose proof (range_end size num_procs size_nonneg procs_pos 0) as Hend.
  pose proof (start_row_next size num_procs 0) as Hnext.
  change (0 + 1) with 1 in Hnext.
  unfold scatter_loop, mpi_matrix_multiply. simpl.
  unfold distribute_matrix_rows, py_floordiv, py_mod.
  destruct (Z.eqb_spec num_procs 0) as [|_]; [lia|]. simpl.
  fold (row_range size num_procs 0).
  rewrite (surjective_pairing (row_range size num_procs 0)).
  fold (rows 0) (start 0).
  rewrite np_zeros_ok by assumption. simpl.
  rewrite bind_send_rows_assoc. apply bind_send_rows_ext. simpl.
  rewrite np_zeros_ok by assumption. simpl.
  assert ((if rows 0 >? 0
           then lift (np_dot (np_slice A (start 0) (start 0 + rows 0)) B)
           else Ret (Matrix size (replicate (Z.to_nat (rows 0))
                                    (replicate (Z.to_nat size) zero))))
          = Ret (np_slice P (start 0) (start 0 + rows 0))) as ->.
  { destruct (Z.gtb_spec (rows 0) 0) as [Hpos | Hzero].
    - rewrite (np_dot_slice A B P _ _ HP). reflexivity.
    - assert (rows 0 = 0) as -> by lia. rewrite Z.add_0_r.
      unfold np_slice, py_slice. rewrite Z.sub_diag, HPc, HBc. reflexivity. }
  simpl. rewrite (assembled_zero P size size_nonneg). simpl.
  unfold gather_loop. rewrite Hnext, Hstart.
  rewrite assembled_step by lia. reflexivity.
Qed.

Lemma worker_head (rank : Z) :
  rank <> 0 ->
  exists k, mpi_matrix_multiply size rank num_procs = Bcast None k.
Proof.
  intros Hr. unfold mpi_matrix_multiply, initialize_matrices.
  destruct (Z.eqb_spec rank 0) as [|_]; [contradiction|].
  simpl. eauto.
Qed.

(** A rank without rows returns after the broadcast. *)
Lemma worker_idle (rank : Z) (Bobj : option matrix) :
  rank <> 0 -> rows rank <= 0 ->
  after_bcast Bobj (mpi_matrix_multiply size rank num_procs) = Ret None.
Proof.
  intros Hr Hz.
  pose proof (local_rows_nonneg size num_procs size_nonneg procs_pos rank) as Hrows.
  unfold mpi_matrix_multiply, initialize_matrices.
  destruct (Z.eqb_spec rank 0) as [|_]; [contradiction|]. simpl.
  unfold distribute_matrix_rows, py_floordiv, py_mod.
  destruct (Z.eqb_spec num_procs 0) as [|_]; [lia|]. simpl.
  fold (row_range size num_procs rank).
  rewrite (surjective_pairing (row_range size num_procs rank)).
  fold (rows rank) (start rank).
  rewrite np_zeros_ok by assumption. simpl.
  destruct (Z.eqb_spec rank 0) as [|_]; [contradiction|].
  destruct (Z.gtb_spec (rows rank) 0) as [|_]; [lia|]. simpl.
  rewrite np_zeros_ok by assumption. simpl.
  destruct (Z.gtb_spec (rows rank) 0) as [|_]; [lia|]. reflexivity.
Qed.

(** A rank with rows waits for them after the broadcast. *)
Lemma worker_waits (rank : Z) (Bobj : option matrix) :
  rank <> 0 -> 0 < rows rank ->
  exists k,
    after_bcast Bobj (mpi_matrix_multiply size rank num_procs) = Recv 0 rank k.
Proof.
  intros Hr Hpos.
  unfold mpi_matrix_multiply, initialize_matrices.
  destruct (Z.eqb_spec rank 0) as [|_]; [contradiction|]. simpl.
  unfold distribute_matrix_rows, py_floordiv, py_mod.
  destruct (Z.eqb_spec num_procs 0) as [|_]; [lia|]. simpl.
  fold (row_range size num_procs rank).
  rewrite (surjective_pairing (row_range size num_procs rank)).
  fold (rows rank) (start rank).
  rewrite np_zeros_ok by lia. simpl.
  destruct (Z.eqb_spec rank 0) as [|_]; [contradiction|].
  destruct (Z.gtb_spec (rows rank) 0) as [_|]; [|lia]. simpl. eauto.
Qed.

(** With its rows it multiplies and sends the product to the root. *)
Lemma worker_computes (rank : Z) (Bobj : option matrix) (m : matrix) :
  rank <> 0 -> 0 < rows rank ->
  after_recv m (after_bcast Bobj (mpi_matrix_multiply size rank num_procs))
  = match dot_obj m Bobj with
    | inl x => Raise x
    | inr local_C => Send local_C 0 (rank + 100) (Ret None)
    end.
Proof.
  intros Hr Hpos.
  unfold mpi_matrix_multiply, initialize_matrices.
  destruct (Z.eqb_spec rank 0) as [|_]; [contradiction|]. simpl.
  unfold distribute_matrix_rows, py_floordiv, py_mod.
  destruct (Z.eqb_spec num_procs 0) as [|_]; [lia|]. simpl.
  fold (row_range size num_procs rank).
  rewrite (surjective_pairing (row_range size num_procs rank)).
  fold (rows rank) (start rank).
  rewrite np_zeros_ok by lia. simpl.
  destruct (Z.eqb_spec rank 0) as [|_]; [contradiction|].
  destruct (Z.gtb_spec (rows rank) 0) as [_|]; [|lia]. simpl.
  rewrite np_zeros_ok by lia. simpl.
  destruct (Z.gtb_spec (rows rank) 0) as [_|]; [|lia].
  destruct (dot_obj m Bobj); reflexivity.
Qed.

End Programs.

(** * Runs of a group *)

Section Groups.

Context `{Num : Scalar} `{RS : !RandomState}.

Lemma steps_refl {R : Type} (cfg : list (pstate R)) : steps cfg cfg.
Proof. apply rtc_refl. Qed.

Lemma steps_trans {R : Type} (c1 c2 c3 : list (pstate R)) :
  steps c1 c2 -> steps c2 c3 -> steps c1 c3.
Proof. apply rtc_trans. Qed.

Lemma steps_step {R : Type} (c1 c2 c3 : list (pstate R)) :
  step c1 c2 -> steps c2 c3 -> steps c1 c3.
Proof. apply rtc_l. Qed.

(** A transfer from the first process to the one after [done]. *)
Lemma transfer_from_root {R : Type} (root w : pstate R) (done rest : list (pstate R))
    (m : matrix) (tag : Z) (k : proc R) (k' : matrix -> proc R) :
  st_code root = Send m (Z.of_nat (S (length done))) tag k ->
  st_code w = Recv 0 tag k' ->
  step (root :: done ++ w :: rest)
       (continue root k :: (done ++ [continue w (k' m)]) ++ rest).
Proof.
  intros Hroot Hw.
  pose proof (step_transfer (root :: done ++ w :: rest) 0 (S (length done))
                root w m tag k k') as Hstep.
  simpl in Hstep.
  rewrite list_lookup_middle in Hstep by reflexivity.
  specialize (Hstep eq_refl eq_refl Hroot Hw).
  rewrite insert_app_r_alt, Nat.sub_diag in Hstep by lia.
  simpl in Hstep. rewrite <- app_assoc. exact Hstep.
Qed.

(** A transfer to the first process from the one after [done]. *)
Lemma transfer_to_root {R : Type} (root w : pstate R) (done rest : list (pstate R))
    (m : matrix) (tag : Z) (k : proc R) (k' : matrix -> proc R) :
  st_code w = Send m 0 tag k ->
  st_code root = Recv (Z.of_nat (S (length done))) tag k' ->
  step (root :: done ++ w :: rest)
       (continue root (k' m) :: (done ++ [continue w k]) ++ rest).
Proof.
  intros Hw Hroot.
  pose proof (step_transfer (root :: done ++ w :: rest) (S (length done)) 0
                w root m tag k k') as Hstep.
  simpl in Hstep.
  rewrite list_lookup_middle in Hstep by reflexivity.
  specialize (Hstep eq_refl eq_refl Hw Hroot).
  rewrite insert_app_r_alt, Nat.sub_diag in Hstep by lia.
  simpl in Hstep. rewrite <- app_assoc. exact Hstep.
Qed.

Lemma step_first {R : Type} (st st' : pstate R) (rest : list (pstate R)) :
  local_step st = Some st' -> step (st :: rest) (st' :: rest).
Proof.
  intros H. exact (step_local (st :: rest) 0 st st' eq_refl H).
Qed.

Lemma load_ext {R : Type} (f h : Z -> proc R) (sts : list (rng * list message)) :
  forall p : nat,
    (forall r : nat, (p <= r)%nat -> f (Z.of_nat r) = h (Z.of_nat r)) ->
    load f p sts = load h p sts.
Proof.
  induction sts as [|[g o] sts IH]; intros p Hfh; [reflexivity|].
  simpl. rewrite (Hfh p) by lia. rewrite (IH (S p)); [reflexivity|].
  intros r Hr. apply Hfh. lia.
Qed.

(** ** Any two runs agree *)

Lemma forallb_lookup {X : Type} (f : X -> bool) (l : list X) (i : nat) (x : X) :
  forallb f l = true -> l !! i = Some x -> f x = true.
Proof.
  revert i. induction l as [|y l IH]; intros i Hall Hi; [discriminate|].
  simpl in Hall. apply andb_prop in Hall as [Hy Hl].
  destruct i as [|i]; simpl in Hi.
  - injection Hi as <-. exact Hy.
  - exact (IH i Hl Hi).
Qed.

Lemma local_step_code {R : Type} (st st' : pstate R) :
  local_step st = Some st' ->
  at_bcast st = false
  /\ (forall m d t k, st_code st <> Send m d t k)
  /\ (forall s t k, st_code st <> Recv s t k).
Proof.
  unfold local_step, at_bcast. destruct (st_code st); try discriminate;
    intros _; repeat split; intros; discriminate.
Qed.

(** Two different steps from one configuration concern different processes
    and can be taken in either order. *)
Lemma step_diamond {R : Type} (cfg c1 c2 : list (pstate R)) :
  step cfg c1 -> step cfg c2 ->
  c1 = c2 \/ exists c3, step c1 c3 /\ step c2 c3.
Proof.
  intros H1 H2.
  destruct H1 as [cfg i st st' Hi Hloc | cfg root v k Hroot Hcode Hall
                  | cfg i j si sj m tag k k' Hi Hj Hsi Hsj].
  - (* a local step *)
    destruct (local_step_code st st' Hloc) as (Hnb & Hns & Hnr).
    inversion H2 as [cfg' i2 st2 st2' Hi2 Hloc2 | cfg' root v k Hroot Hcode Hall
                     | cfg' a b sa sb m tag k k' Ha Hb Hsa Hsb]; subst.
    + destruct (Nat.eq_dec i i2) as [<- | Hne].
      * left. congruence.
      * right. exists (<[i2 := st2']> (<[i := st']> cfg)). split.
        -- eapply step_local; [|exact Hloc2].
           rewrite list_lookup_insert_ne by assumption. exact Hi2.
        -- rewrite list_insert_insert_ne by auto.
           eapply step_local; [|exact Hloc].
           rewrite list_lookup_insert_ne by auto. exact Hi.
    + rewrite (forallb_lookup at_bcast cfg i st Hall Hi) in Hnb. discriminate.
    + assert (i <> a) as Hia by (intros ->; rewrite Hi in Ha;
                                  injection Ha as <-; exact (Hns _ _ _ _ Hsa)).
      assert (i <> b) as Hib by (intros ->; rewrite Hi in Hb;
                                  injection Hb as <-; exact (Hnr _ _ _ Hsb)).
      right.
      exists (<[b := continue sb (k' m)]> (<[a := continue sa k]> (<[i := st']> cfg))).
      split.
      * eapply step_transfer; try eassumption;
          rewrite list_lookup_insert_ne by assumption; assumption.
      * rewrite (list_insert_insert_ne _ a i) by auto.
        rewrite (list_insert_insert_ne _ b i) by auto.
        eapply step_local; [|exact Hloc].
        rewrite !list_lookup_insert_ne by auto. exact Hi.
  - (* the broadcast *)
    inversion H2 as [cfg' i2 st2 st2' Hi2 Hloc2 | cfg' root' v' k2 Hroot' Hcode' Hall'
                     | cfg' a b sa sb m tag k2 k' Ha Hb Hsa Hsb]; subst.
    + destruct (local_step_code st2 st2' Hloc2) as (Hnb & _).
      rewrite (forallb_lookup at_bcast cfg i2 st2 Hall Hi2) in Hnb. discriminate.
    + left. rewrite Hroot in Hroot'. injection Hroot' as <-.
      rewrite Hcode in Hcode'. injection Hcode' as <- _. reflexivity.
    + pose proof (forallb_lookup at_bcast cfg a sa Hall Ha) as Habs.
      unfold at_bcast in Habs. rewrite Hsa in Habs. discriminate.
  - (* a transfer *)
    inversion H2 as [cfg' i2 st2 st2' Hi2 Hloc2 | cfg' root v k2 Hroot Hcode Hall
                     | cfg' a b sa sb m2 tag2 k2 k2' Ha Hb Hsa Hsb]; subst.
    + destruct (local_step_code st2 st2' Hloc2) as (_ & Hns & Hnr).
      assert (i2 <> i) as Hia by (intros ->; rewrite Hi in Hi2;
                                   injection Hi2 as <-; exact (Hns _ _ _ _ Hsi)).
      assert (i2 <> j) as Hib by (intros ->; rewrite Hj in Hi2;
                                   injection Hi2 as <-; exact (Hnr _ _ _ Hsj)).
      right.
      exists (<[j := continue sj (k' m)]> (<[i := continue si k]> (<[i2 := st2']> cfg))).
      split.
      * rewrite (list_insert_insert_ne _ i i2) by auto.
        rewrite (list_insert_insert_ne _ j i2) by auto.
        eapply step_local; [|exact Hloc2].
        rewrite !list_lookup_insert_ne by auto. exact Hi2.
      * eapply step_transfer; try eassumption;
          rewrite list_lookup_insert_ne by auto; assumption.
    + pose proof (forallb_lookup at_bcast cfg i si Hall Hi) as Habs.
      unfold at_bcast in Habs. rewrite Hsi in Habs. discriminate.
    + assert (i <> j) as Hij
        by (intros ->; rewrite Hi in Hj; injection Hj as <-; congruence).
      assert (a <> b) as Hab
        by (intros ->; rewrite Ha in Hb; injection Hb as <-; congruence).
      destruct (Nat.eq_dec i a) as [<- | Hia].
      * left. rewrite Hi in Ha. injection Ha as <-.
        rewrite Hsi in Hsa. injection Hsa as <- Hd <- <-.
        apply Nat2Z.inj in Hd as <-.
        rewrite Hj in Hb. injection Hb as <-.
        rewrite Hsj in Hsb. injection Hsb as <-. reflexivity.
      * assert (j <> b) as Hjb.
        { intros <-. rewrite Hj in Hb. injection Hb as <-.
          rewrite Hsj in Hsb. injection Hsb as Hs _ _.
          apply Nat2Z.inj in Hs. contradiction. }
        assert (i <> b) as Hib
          by (intros <-; rewrite Hi in Hb; injection Hb as <-; congruence).
        assert (j <> a) as Hja
          by (intros <-; rewrite Hj in Ha; injection Ha as <-; congruence).
        right.
        exists (<[b := continue sb (k2' m2)]>
                  (<[a := continue sa k2]>
                     (<[j := continue sj (k' m)]> (<[i := continue si k]> cfg)))).
        split.
        -- eapply step_transfer; try eassumption;
             rewrite !list_lookup_insert_ne by auto; assumption.
        -- rewrite (list_insert_insert_ne _ a j) by auto.
           rewrite (list_insert_insert_ne _ a i) by auto.
           rewrite (list_insert_insert_ne _ b j) by auto.
           rewrite (list_insert_insert_ne _ b i) by auto.
           eapply step_transfer; try eassumption;
             rewrite !list_lookup_insert_ne by auto; assumption.
Qed.

(** A configuration that no step leaves is reached from every configuration
    of every run that starts where a run to it starts. *)
Lemma steps_confluent {R : Type} (c t c' : list (pstate R)) :
  steps c t -> nf step t -> steps c c' -> steps c' t.
Proof.
  intros Hct Hnf Hcc'.
  set (R' := fun x y : list (pstate R) => x = y \/ step x y).
  assert (diamond R') as Hdiamond.
  { intros x y1 y2 [<- | H1] [<- | H2].
    - exists x. split; left; reflexivity.
    - exists y2. split; [right; exact H2 | left; reflexivity].
    - exists y1. split; [left; reflexivity | right; exact H1].
    - destruct (step_diamond x y1 y2 H1 H2) as [<- | (z & Hz1 & Hz2)].
      + exists y1. split; left; reflexivity.
      + exists z. split; right; assumption. }
  assert (forall x y, rtc step x y -> rtc R' x y) as Hto.
  { intros x y. apply rtc_subrel. intros a b Hab. right. exact Hab. }
  assert (forall x y, rtc R' x y -> rtc step x y) as Hfrom.
  { intros x y Hxy. induction Hxy as [x | x y z [<- | Hxy] _ IH].
    - apply rtc_refl.
    - exact IH.
    - eapply rtc_l; eassumption. }
  destruct (diamond_confluent Hdiamond c t c' (Hto _ _ Hct) (Hto _ _ Hcc'))
    as (z & Htz & Hc'z).
  apply Hfrom in Htz, Hc'z.
  apply rtc_nf in Htz; [|exact Hnf]. subst z. exact Hc'z.
Qed.

Lemma returned_nf {R : Type} (cfg : list (pstate R)) :
  Forall (fun st => exists v, st_code st = Ret v) cfg -> nf step cfg.
Proof.
  intros Hall [cfg' Hstep]. rewrite Forall_lookup in Hall.
  destruct Hstep as [cfg i st st' Hi Hloc | cfg root v k Hroot Hcode _
                     | cfg i j si sj m tag k k' Hi Hj Hsi Hsj].
  - destruct (Hall i st Hi) as [v Hv]. unfold local_step in Hloc.
    rewrite Hv in Hloc. discriminate.
  - destruct (Hall 0%nat root Hroot) as [v' Hv]. congruence.
  - destruct (Hall i si Hi) as [v Hv]. congruence.
Qed.

Lemma load_returned {R : Type} (v : R) (sts : list (rng * list message)) :
  forall p : nat,
    Forall (fun st => exists v, st_code st = Ret v) (load (fun _ => Ret v) p sts).
Proof.
  induction sts as [|[g o] sts IH]; intros p; simpl; constructor; eauto.
Qed.

Lemma completes_returned {R : Type} (init final : list (pstate R)) :
  steps init final ->
  Forall (fun st => exists v, st_code st = Ret v) final ->
  completes init final.
Proof.
  intros Hrun Hall. pose proof (returned_nf final Hall) as Hnf.
  split; [exact Hrun|]. split; [exact Hnf|].
  intros cfg Hcfg. exact (steps_confluent init final cfg Hrun Hnf Hcfg).
Qed.

(** ** The scheduler takes steps of the group *)

Lemma first_local_sound {R : Type} (cfg : list (pstate R)) :
  forall (i : nat) (st' : pstate R),
    first_local cfg = Some (i, st') ->
    exists st, cfg !! i = Some st /\ local_step st = Some st'.
Proof.
  induction cfg as [|st cfg IH]; intros i st' H; [discriminate|].
  simpl in H. destruct (local_step st) as [st1|] eqn:Hloc.
  - injection H as <- <-. exists st. split; [reflexivity | exact Hloc].
  - destruct (first_local cfg) as [[j st1]|]; [|discriminate].
    injection H as <- <-. destruct (IH j st1 eq_refl) as (st0 & Hj & Hst0).
    exists st0. split; assumption.
Qed.

Lemma transfer_from_sound {R : Type} (cfg cfg' : list (pstate R)) (i : nat) :
  transfer_from cfg i = Some cfg' -> step cfg cfg'.
Proof.
  unfold transfer_from.
  destruct (cfg !! i) as [si|] eqn:Hi; [|discriminate].
  destruct (st_code si) as [| | | | |m d t k| |] eqn:Hsi; try discriminate.
  destruct (Z.ltb_spec d 0) as [|Hd]; [discriminate|].
  destruct (cfg !! Z.to_nat d) as [sj|] eqn:Hj; [|discriminate].
  destruct (st_code sj) as [| | | | | |s t' k'|] eqn:Hsj; try discriminate.
  destruct (Z.eqb_spec s (Z.of_nat i)) as [-> |]; [|discriminate].
  destruct (Z.eqb_spec t' t) as [-> |]; [|discriminate].
  simpl. intros [= <-].
  apply (step_transfer cfg i (Z.to_nat d) si sj m t k k' Hi Hj); [|exact Hsj].
  rewrite Z2Nat.id by lia. exact Hsi.
Qed.

Lemma first_transfer_sound {R : Type} (cfg cfg' : list (pstate R))
    (candidates : list nat) :
  first_transfer cfg candidates = Some cfg' -> step cfg cfg'.
Proof.
  induction candidates as [|i rest IH]; [discriminate|].
  simpl. destruct (transfer_from cfg i) as [c|] eqn:Ht; [|exact IH].
  intros [= <-]. exact (transfer_from_sound cfg c i Ht).
Qed.

Lemma schedule_sound {R : Type} (cfg cfg' : list (pstate R)) :
  schedule cfg = Some cfg' -> step cfg cfg'.
Proof.
  unfold schedule.
  destruct (first_local cfg) as [[i st']|] eqn:Hloc.
  - intros [= <-]. destruct (first_local_sound cfg i st' Hloc) as (st & Hi & Hst).
    exact (step_local cfg i st st' Hi Hst).
  - destruct (bcast_ready cfg) as [v|] eqn:Hb.
    + intros [= <-]. unfold bcast_ready in Hb.
      destruct cfg as [|root rest]; [discriminate|].
      destruct (st_code root) as [| | | |v' k| | |] eqn:Hroot; try discriminate.
      destruct (forallb at_bcast (root :: rest)) eqn:Hall; [|discriminate].
      injection Hb as <-.
      exact (step_bcast (root :: rest) root v' k eq_refl Hroot Hall).
    + apply first_transfer_sound.
Qed.

Lemma run_sound {R : Type} (fuel : nat) :
  forall cfg : list (pstate R), steps cfg (run fuel cfg).
Proof.
  induction fuel as [|fuel IH]; intros cfg; simpl; [apply steps_refl|].
  destruct (schedule cfg) as [cfg'|] eqn:Hs; [|apply steps_refl].
  eapply steps_step; [exact (schedule_sound cfg cfg' Hs) | apply IH].
Qed.

(** ** Programs followed by continuations *)

Lemma local_step_bind {R Q : Type} (f : R -> proc Q) (st st' : pstate R) :
  local_step st = Some st' ->
  local_step (bind_state f st) = Some (bind_state f st').
Proof.
  destruct st as [g out code]. unfold local_step, bind_state. simpl.
  destruct code; try discriminate; simpl; intros [= <-]; try reflexivity.
  destruct (np_random_rand g r c) as [x | [m g']]; reflexivity.
Qed.

Lemma bind_all_lookup {R Q : Type} (F : nat -> R -> proc Q) (cfg : list (pstate R)) :
  forall (p i : nat) (st : pstate R),
    cfg !! i = Some st ->
    bind_all F p cfg !! i = Some (bind_state (F (p + i)%nat) st).
Proof.
  induction cfg as [|st0 cfg IH]; intros p i st Hi; [discriminate|].
  destruct i as [|i]; simpl in *.
  - injection Hi as ->. rewrite Nat.add_0_r. reflexivity.
  - rewrite (IH (S p) i st Hi).
    replace (S p + i)%nat with (p + S i)%nat by lia. reflexivity.
Qed.

Lemma bind_all_insert {R Q : Type} (F : nat -> R -> proc Q) (cfg : list (pstate R)) :
  forall (p i : nat) (st : pstate R),
    bind_all F p (<[i := st]> cfg)
    = <[i := bind_state (F (p + i)%nat) st]> (bind_all F p cfg).
Proof.
  induction cfg as [|st0 cfg IH]; intros p i st; [reflexivity|].
  destruct i as [|i]; simpl.
  - rewrite Nat.add_0_r. reflexivity.
  - rewrite (IH (S p) i st).
    replace (S p + i)%nat with (p + S i)%nat by lia. reflexivity.
Qed.

Lemma bind_all_at_bcast {R Q : Type} (F : nat -> R -> proc Q)
    (cfg : list (pstate R)) :
  forall p : nat,
    forallb at_bcast cfg = true -> forallb at_bcast (bind_all F p cfg) = true.
Proof.
  induction cfg as [|st cfg IH]; intros p H; [reflexivity|].
  simpl in *. apply andb_prop in H as [Hst Hcfg].
  rewrite (IH (S p) Hcfg), andb_true_r.
  unfold at_bcast, bind_state in *. simpl.
  destruct (st_code st); try discriminate. reflexivity.
Qed.

Lemma bind_all_deliver {R Q : Type} (F : nat -> R -> proc Q) (v : option matrix)
    (cfg : list (pstate R)) :
  forall p : nat,
    forallb at_bcast cfg = true ->
    map (deliver v) (bind_all F p cfg) = bind_all F p (map (deliver v) cfg).
Proof.
  induction cfg as [|st cfg IH]; intros p H; [reflexivity|].
  simpl in *. apply andb_prop in H as [Hst Hcfg].
  rewrite (IH (S p) Hcfg). f_equal.
  unfold at_bcast, deliver, bind_state in *. simpl.
  destruct (st_code st); try discriminate. reflexivity.
Qed.

(** A step of a group is a step of the group with continuations. *)
Lemma step_bind_all {R Q : Type} (F : nat -> R -> proc Q) (p : nat)
    (cfg cfg' : list (pstate R)) :
  step cfg cfg' -> step (bind_all F p cfg) (bind_all F p cfg').
Proof.
  intros Hstep. destruct Hstep as [cfg i st st' Hi Hloc | cfg root v k Hroot Hcode Hall
                                   | cfg i j si sj m tag k k' Hi Hj Hsi Hsj].
  - rewrite bind_all_insert.
    eapply step_local; [apply bind_all_lookup; exact Hi|].
    apply local_step_bind. exact Hloc.
  - rewrite <- bind_all_deliver by assumption.
    eapply step_bcast.
    + apply (bind_all_lookup F cfg p 0 root Hroot).
    + unfold bind_state. simpl. rewrite Hcode. reflexivity.
    + apply bind_all_at_bcast. exact Hall.
  - rewrite !bind_all_insert.
    eapply (step_transfer (bind_all F p cfg) i j
              (bind_state (F (p + i)%nat) si) (bind_state (F (p + j)%nat) sj)
              m tag (bind k (F (p + i)%nat))
              (fun x => bind (k' x) (F (p + j)%nat))).
    + apply bind_all_lookup. exact Hi.
    + apply bind_all_lookup. exact Hj.
    + unfold bind_state. simpl. rewrite Hsi. reflexivity.
    + unfold bind_state. simpl. rewrite Hsj. reflexivity.
Qed.

Lemma steps_bind_all {R Q : Type} (F : nat -> R -> proc Q) (p : nat)
    (cfg cfg' : list (pstate R)) :
  steps cfg cfg' -> steps (bind_all F p cfg) (bind_all F p cfg').
Proof.
  unfold steps. apply (rtc_congruence (bind_all F p)).
  intros x y. apply step_bind_all.
Qed.

Section Multiply.

Variables size num_procs : Z.
Variables A B P : matrix.

Hypothesis size_nonneg : 0 <= size.
Hypothesis procs_pos : 1 <= num_procs.
Hypothesis A_cols : ncols A = size.
Hypothesis A_rows : nrows A = size.
Hypothesis B_cols : ncols B = size.
Hypothesis B_rows : nrows B = size.
Hypothesis product : np_dot A B = inr P.

Abbreviation rows := (local_rows_of size num_procs).
Abbreviation start := (start_row_of size num_procs).

(** The program of a rank at the call, after the broadcast, after the
    scatter and after the gather. *)
Abbreviation W0 r := (mpi_matrix_multiply size r num_procs).
Abbreviation W1 r := (after_bcast (Some B) (W0 r)).
Abbreviation W2 r := (after_recv (block_of A size num_procs r) (W1 r)).
Abbreviation W3 r := (after_send (W2 r)).
Abbreviation at_call := (fun r : Z => W0 r).
Abbreviation scattering := (fun r : Z => W1 r).
Abbreviation gathering := (fun r : Z => W2 r).
Abbreviation finished := (fun r : Z => W3 r).

Lemma product_shape : nrows P = size /\ ncols P = size.
Proof. destruct (np_dot_rows A B P product). lia. Qed.

Lemma worker_sends (r : Z) :
  r <> 0 -> 0 < rows r ->
  W2 r = Send (block_of P size num_procs r) 0 (r + 100) (Ret None).
Proof.
  intros Hr Hpos.
  rewrite (worker_computes size num_procs size_nonneg procs_pos r (Some B))
    by assumption.
  simpl. unfold block_of at 1. rewrite (np_dot_slice A B P _ _ product).
  reflexivity.
Qed.

Lemma worker_finished (r : Z) : r <> 0 -> W3 r = Ret None.
Proof.
  intros Hr. destruct (Z.lt_ge_cases 0 (rows r)) as [Hpos | Hzero].
  - rewrite worker_sends by assumption. reflexivity.
  - rewrite (worker_idle size num_procs size_nonneg procs_pos r (Some B))
      by (try assumption; lia).
    reflexivity.
Qed.

Lemma scatter_run (g2 : rng) (out : list message)
    (K : unit -> proc (option matrix)) (gl : list (rng * list message)) :
  forall (done : list (pstate (option matrix))) (p : nat),
    p = S (length done) ->
    steps
      (PState g2 out
         (bind (send_rows (Some A) (size / num_procs) (size mod num_procs)
                  (py_range (Z.of_nat p) (Z.of_nat (p + length gl)))) K)
         :: done ++ load scattering p gl)
      (PState g2 out (K tt) :: done ++ load gathering p gl).
Proof.
  induction gl as [|[g o] gl IH]; intros done p Hp.
  - rewrite py_range_nil by (simpl; lia). apply steps_refl.
  - rewrite py_range_cons by (simpl; lia). rewrite send_rows_cons.
    replace (Z.of_nat (p + length ((g, o) :: gl)))
      with (Z.of_nat (S p + length gl)) by (simpl; lia).
    replace (Z.of_nat p + 1) with (Z.of_nat (S p)) by lia.
    simpl load.
    destruct (Z.gtb_spec (rows (Z.of_nat p)) 0) as [Hpos | Hzero].
    + destruct (worker_waits size num_procs size_nonneg procs_pos
                  (Z.of_nat p) (Some B)) as [k Hk]; [lia | lia |].
      rewrite Hk. simpl.
      eapply steps_step.
      * eapply (transfer_from_root _ _ done _
                  (block_of A size num_procs (Z.of_nat p)) (Z.of_nat p) _ k);
          [|reflexivity].
        simpl st_code. rewrite <- Hp. reflexivity.
      * unfold continue. simpl.
        replace (done ++ PState g o (k (block_of A size num_procs (Z.of_nat p)))
                   :: load gathering (S p) gl)
          with ((done ++ [PState g o (k (block_of A size num_procs (Z.of_nat p)))])
                  ++ load gathering (S p) gl)
          by (rewrite <- app_assoc; reflexivity).
        apply IH. rewrite length_app. simpl. lia.
    + rewrite (worker_idle size num_procs size_nonneg procs_pos
                 (Z.of_nat p) (Some B)) by lia.
      simpl.
      replace (done ++ PState g o (Ret None) :: load scattering (S p) gl)
        with ((done ++ [PState g o (Ret None)]) ++ load scattering (S p) gl)
        by (rewrite <- app_assoc; reflexivity).
      replace (done ++ PState g o (Ret None) :: load gathering (S p) gl)
        with ((done ++ [PState g o (Ret None)]) ++ load gathering (S p) gl)
        by (rewrite <- app_assoc; reflexivity).
      apply IH. rewrite length_app. simpl. lia.
Qed.

Lemma write_block (r : Z) :
  0 <= r < num_procs ->
  np_setrows (assembled P size (start r)) (start r) (start r + rows r)
    (block_of P size num_procs r)
  = inr (assembled P size (start (r + 1))).
Proof.
  intros Hr. destruct product_shape as [HPr HPc].
  pose proof (start_row_bounds size num_procs size_nonneg procs_pos r).
  pose proof (range_end size num_procs size_nonneg procs_pos r).
  pose proof (local_rows_nonneg size num_procs size_nonneg procs_pos r).
  rewrite start_row_next. unfold block_of.
  apply assembled_step; lia.
Qed.

Lemma gather_run (g2 : rng) (out : list message) (gl : list (rng * list message)) :
  forall (done : list (pstate (option matrix))) (p : nat),
    p = S (length done) ->
    Z.of_nat (p + length gl) <= num_procs ->
    steps
      (PState g2 out
         (gather_loop P size num_procs (start (Z.of_nat p))
            (py_range (Z.of_nat p) (Z.of_nat (p + length gl))))
         :: done ++ load gathering p gl)
      (PState g2 out
         (Ret (Some (assembled P size (start (Z.of_nat (p + length gl))))))
         :: done ++ load finished p gl).
Proof.
  destruct product_shape as [HPr HPc].
  induction gl as [|[g o] gl IH]; intros done p Hp Hn.
  - rewrite py_range_nil by (simpl; lia). simpl.
    rewrite Nat.add_0_r. apply steps_refl.
  - rewrite py_range_cons by (simpl; lia).
    unfold gather_loop. rewrite recv_rows_cons.
    replace (Z.of_nat (p + length ((g, o) :: gl)))
      with (Z.of_nat (S p + length gl)) in * by (simpl; lia).
    replace (Z.of_nat p + 1) with (Z.of_nat (S p)) by lia.
    simpl load.
    pose proof (start_row_next size num_procs (Z.of_nat p)) as Hnext.
    replace (Z.of_nat p + 1) with (Z.of_nat (S p)) in Hnext by lia.
    pose proof (start_row_bounds size num_procs size_nonneg procs_pos
                  (Z.of_nat p)) as Hlo.
    pose proof (range_end size num_procs size_nonneg procs_pos
                  (Z.of_nat p)) as Hhi.
    pose proof (local_rows_nonneg size num_procs size_nonneg procs_pos
                  (Z.of_nat p)) as Hrows.
    destruct (Z.gtb_spec (rows (Z.of_nat p)) 0) as [Hpos | Hzero].
    + rewrite worker_sends by lia. simpl.
      eapply steps_step.
      * eapply (transfer_to_root _ _ done _
                  (block_of P size num_procs (Z.of_nat p))
                  (Z.of_nat p + 100) (Ret None));
          [reflexivity|].
        simpl st_code. rewrite <- Hp. reflexivity.
      * unfold continue. simpl.
        rewrite write_block by lia.
        replace (Z.of_nat p + 1) with (Z.of_nat (S p)) by lia.
        replace (done ++ PState g o (Ret None) :: load finished (S p) gl)
          with ((done ++ [PState g o (Ret None)]) ++ load finished (S p) gl)
          by (rewrite <- app_assoc; reflexivity).
        apply IH; [rewrite length_app; simpl; lia | lia].
    + rewrite (worker_idle size num_procs size_nonneg procs_pos
                 (Z.of_nat p) (Some B)) by lia.
      simpl.
      replace (start (Z.of_nat p)) with (start (Z.of_nat (S p))) by lia.
      replace (done ++ PState g o (Ret None) :: load gathering (S p) gl)
        with ((done ++ [PState g o (Ret None)]) ++ load gathering (S p) gl)
        by (rewrite <- app_assoc; reflexivity).
      replace (done ++ PState g o (Ret None) :: load finished (S p) gl)
        with ((done ++ [PState g o (Ret None)]) ++ load finished (S p) gl)
        by (rewrite <- app_assoc; reflexivity).
      apply IH; [rewrite length_app; simpl; lia | lia].
Qed.

Lemma workers_at_bcast (sts : list (rng * list message)) :
  forall p : nat, (1 <= p)%nat -> forallb at_bcast (load at_call p sts) = true.
Proof.
  induction sts as [|[g o] sts IH]; intros p Hp; [reflexivity|].
  simpl. rewrite IH by lia.
  destruct (worker_head size num_procs (Z.of_nat p)) as [k Hk]; [lia|].
  unfold at_bcast. simpl. rewrite Hk. reflexivity.
Qed.

Lemma workers_delivered (sts : list (rng * list message)) :
  forall p : nat,
    (1 <= p)%nat ->
    map (deliver (Some B)) (load at_call p sts) = load scattering p sts.
Proof.
  induction sts as [|[g o] sts IH]; intros p Hp; [reflexivity|].
  simpl. rewrite IH by lia. f_equal.
  destruct (worker_head size num_procs (Z.of_nat p)) as [k Hk]; [lia|].
  unfold deliver. simpl. rewrite Hk. reflexivity.
Qed.

Hypothesis matrices : exists g2, root_matrices size = inr (A, B, g2).

(** The run of a call of [mpi_matrix_multiply] by every rank: the root
    returns the product, every other rank returns [None]. *)
Lemma multiply_run (g0 : rng) (out0 : list message)
    (rest : list (rng * list message)) :
  num_procs = Z.of_nat (S (length rest)) ->
  exists g2,
    root_matrices size = inr (A, B, g2)
    /\ steps (load at_call 0 ((g0, out0) :: rest))
         (PState g2 out0 (Ret (Some P)) :: load (fun _ => Ret None) 1 rest).
Proof.
  intros Hn. destruct matrices as [g2 Hm]. exists g2. split; [exact Hm|].
  destruct product_shape as [HPr HPc].
  unfold root_matrices in Hm.
  destruct (np_random_rand (rng_seed 42) size size) as [x | [A' g1]] eqn:HA;
    [discriminate|].
  destruct (np_random_rand g1 size size) as [x | [B' g2']] eqn:HB;
    [discriminate|].
  injection Hm as -> -> ->.
  simpl load.
  (* the root draws its matrices *)
  eapply steps_step.
  { apply step_first. reflexivity. }
  eapply steps_step.
  { apply step_first. unfold local_step. simpl. rewrite HA. reflexivity. }
  eapply steps_step.
  { apply step_first. unfold local_step. simpl. rewrite HB. reflexivity. }
  (* the broadcast *)
  eapply steps_step.
  { eapply step_bcast; [reflexivity | reflexivity |].
    simpl. apply workers_at_bcast. lia. }
  simpl map. rewrite workers_delivered by lia.
  match goal with
  | |- steps (_ :: ?l) ?fin =>
      change (steps
                (PState g2 out0
                   (after_bcast (Some B)
                      (after_rand B (after_rand A
                         (after_seed (mpi_matrix_multiply size 0 num_procs)))))
                   :: l) fin)
  end.
  rewrite (root_after_bcast size num_procs size_nonneg procs_pos A B P)
    by assumption.
  (* the scatter and the gather *)
  unfold scatter_loop.
  eapply steps_trans.
  { pose proof (scatter_run g2 out0
                  (fun _ => gather_loop P size num_procs (start 1)
                              (py_range 1 num_procs))
                  rest [] 1%nat eq_refl) as Hs.
    replace (Z.of_nat (1 + length rest)) with num_procs in Hs by lia.
    exact Hs. }
  eapply steps_trans.
  { pose proof (gather_run g2 out0 rest [] 1%nat eq_refl) as Hg.
    replace (Z.of_nat (1 + length rest)) with num_procs in Hg by lia.
    apply Hg. lia. }
  rewrite start_row_end by assumption.
  rewrite assembled_full by assumption.
  simpl app.
  rewrite (load_ext finished (fun _ => Ret None)).
  - apply steps_refl.
  - intros r Hr. apply worker_finished. lia.
Qed.

(** ** The run of [verify_correctness] *)

(** What follows the call of [mpi_matrix_multiply] on the process of index
    [i]: the verdict against the serial product on the root. *)
Abbreviation after_call :=
  (fun (i : nat) (C_mpi : option matrix) =>
     verdict (Z.of_nat i) (if Nat.eqb i 0 then Some P else None) C_mpi).

Lemma workers_verify (sts : list (rng * list message)) :
  forall p : nat,
    (1 <= p)%nat ->
    load (fun r => verify_correctness size r num_procs) p sts
    = bind_all after_call p (load at_call p sts).
Proof.
  induction sts as [|[g o] sts IH]; intros p Hp; [reflexivity|].
  simpl. rewrite IH by lia. f_equal.
  unfold bind_state, verify_correctness, verdict. simpl.
  destruct p as [|p]; [lia|]. reflexivity.
Qed.

Lemma workers_verified (sts : list (rng * list message)) :
  forall p : nat,
    (1 <= p)%nat ->
    bind_all after_call p (load (fun _ => Ret None) p sts)
    = load (fun _ => Ret None) p sts.
Proof.
  induction sts as [|[g o] sts IH]; intros p Hp; [reflexivity|].
  simpl. rewrite IH by lia. f_equal.
  unfold bind_state, verdict. simpl.
  destruct p as [|p]; [lia|]. reflexivity.
Qed.

Lemma allclose_false_has_diff (a b : matrix) :
  np_allclose a b = inr false -> exists d, np_max_abs_diff a b = inr d.
Proof.
  unfold np_allclose, np_max_abs_diff.
  destruct (same_shape a b); [|discriminate].
  intros [= Hall].
  destruct (concat _) as [|d ds] eqn:Hcat; [|eauto].
  exfalso. rewrite <- Bool.not_true_iff_false in Hall. apply Hall.
  apply forallb_forall. intros rr Hrr.
  assert (zip (fst rr) (snd rr) = []) as ->; [|reflexivity].
  apply in_split in Hrr as (l1 & l2 & Hl). rewrite Hl in Hcat.
  rewrite map_app, concat_app in Hcat. simpl in Hcat.
  apply app_eq_nil in Hcat as [_ Hcat].
  apply app_eq_nil in Hcat as [Hcat _].
  destruct (zip (fst rr) (snd rr)); [reflexivity | discriminate].
Qed.

(** The run of a call of [verify_correctness] by every rank: the root prints
    its verdict on the product against itself and returns it, every other
    rank prints nothing and returns [None]. *)
Lemma verify_run (g0 : rng) (out0 : list message)
    (rest : list (rng * list message)) :
  num_procs = Z.of_nat (S (length rest)) ->
  exists (b : bool) (report : list message) (g2 : rng),
    np_allclose P P = inr b
    /\ (if b then report = [MsgCorrect]
        else exists d, np_max_abs_diff P P = inr d
                       /\ report = [MsgErrors; MsgMaxDiff d])
    /\ steps
         (load (fun r => verify_correctness size r num_procs) 0 ((g0, out0) :: rest))
         (PState g2 (out0 ++ MsgVerifying size :: report) (Ret (Some b))
            :: load (fun _ => Ret None) 1 rest).
Proof.
  intros Hn.
  destruct matrices as [g2 Hm].
  destruct (multiply_run g2 (out0 ++ [MsgVerifying size]) rest Hn)
    as (g2' & Hm' & Hrun).
  rewrite Hm in Hm'. injection Hm' as <-.
  assert (exists b, np_allclose P P = inr b) as [b Hb].
  { unfold np_allclose, same_shape. rewrite !Z.eqb_refl. simpl. eauto. }
  assert (exists report,
             (if b then report = [MsgCorrect]
              else exists d, np_max_abs_diff P P = inr d
                             /\ report = [MsgErrors; MsgMaxDiff d])) as [report Hrep].
  { destruct b; [eauto|].
    destruct (allclose_false_has_diff P P Hb) as [d Hd]. eauto. }
  exists b, report, g2. split; [exact Hb|]. split; [exact Hrep|].
  unfold root_matrices in Hm.
  destruct (np_random_rand (rng_seed 42) size size) as [x | [A' g1]] eqn:HA;
    [discriminate|].
  destruct (np_random_rand g1 size size) as [x | [B' g2']] eqn:HB;
    [discriminate|].
  injection Hm as -> -> ->.
  simpl load.
  (* the root prints and draws the matrices of the serial product *)
  eapply steps_step.
  { apply step_first. reflexivity. }
  eapply steps_step.
  { apply step_first. reflexivity. }
  eapply steps_step.
  { apply step_first. unfold local_step. simpl. rewrite HA. reflexivity. }
  eapply steps_step.
  { apply step_first. unfold local_step. simpl. rewrite HB. reflexivity. }
  (* the call of every rank *)
  rewrite workers_verify by lia.
  match goal with
  | |- steps (_ :: ?l) ?fin =>
      change (steps
                (PState g2 (out0 ++ [MsgVerifying size])
                   (bind (bind (lift (np_dot A B)) (fun C => Ret (Some C)))
                      (fun C_serial =>
                         bind (mpi_matrix_multiply size 0 num_procs)
                           (verdict 0 C_serial)))
                   :: l) fin)
  end.
  rewrite product.
  match goal with
  | |- steps _ ?fin =>
      change (steps
                (bind_all after_call 0
                   (load at_call 0 ((g2, out0 ++ [MsgVerifying size]) :: rest)))
                fin)
  end.
  eapply steps_trans; [apply (steps_bind_all after_call 0); exact Hrun|].
  simpl bind_all. rewrite workers_verified by lia.
  (* the verdict of the root *)
  unfold bind_state, verdict. simpl. rewrite Hb. simpl.
  destruct b.
  - subst report. eapply steps_step.
    { apply step_first. reflexivity. }
    unfold local_step. simpl. rewrite <- app_assoc. apply steps_refl.
  - destruct Hrep as (d & Hd & ->).
    eapply steps_step.
    { apply step_first. reflexivity. }
    unfold local_step. simpl. rewrite Hd. simpl.
    eapply steps_step.
    { apply step_first. reflexivity. }
    unfold local_step. simpl. rewrite <- !app_assoc. apply steps_refl.
Qed.

End Multiply.

Lemma results_returned {R : Type} (v : R) (sts : list (rng * list message)) :
  forall p : nat,
    results (load (fun _ => Ret v) p sts) = replicate (length sts) (Some v).
Proof.
  induction sts as [|[g o] sts IH]; intros p; [reflexivity|].
  simpl load. change (results (?st :: ?l)) with
    (match st_code st with Ret v => Some v | _ => None end :: results l).
  rewrite IH. reflexivity.
Qed.

Lemma zip_diag {X : Type} (l : list X) : zip l l = map (fun x => (x, x)) l.
Proof. induction l as [|x l IH]; simpl; [reflexivity | rewrite IH; reflexivity]. Qed.

(** An array whose elements are close to themselves is close to itself. *)
Lemma np_allclose_refl (C : matrix) :
  (forall x, In x (concat (mrows C)) -> isclose x x = true) ->
  np_allclose C C = inr true.
Proof.
  intros Hclose. unfold np_allclose, same_shape.
  rewrite !Z.eqb_refl. simpl. f_equal.
  rewrite zip_diag. apply forallb_forall. intros rr Hrr.
  apply in_map_iff in Hrr as (r & <- & Hr). simpl.
  rewrite zip_diag. apply forallb_forall. intros xy Hxy.
  apply in_map_iff in Hxy as (x & <- & Hx). simpl.
  apply Hclose. apply in_concat. exists r. split; assumption.
Qed.

End Groups.

(** * The calls of one rank *)

Section Calls.

Context `{Num : Scalar} `{RS : !RandomState}.

Implicit Types (e : env) (g : rng).

Variables size num_procs : Z.

Abbreviation rows := (local_rows_of size num_procs).
Abbreviation start := (start_row_of size num_procs).

(** A negative size stops the root at its first draw. *)
Lemma root_call_negative e g :
  size < 0 ->
  interp 0 e g (mpi_matrix_multiply size 0 num_procs)
  = Result [] (inl ValueError) (rng_seed 42).
Proof.
  intros Hs. simpl. rewrite np_random_rand_negative by lia. reflexivity.
Qed.

(** Without processes every rank stops at the division, after the
    broadcast. *)
Lemma call_no_procs e g (rank : Z) :
  0 <= size \/ rank <> 0 ->
  events (interp rank e g (mpi_matrix_multiply size rank 0)) = [EvBcast]
  /\ outcome (interp rank e g (mpi_matrix_multiply size rank 0))
     = inl ZeroDivisionError.
Proof.
  intros H. unfold mpi_matrix_multiply, initialize_matrices.
  destruct (Z.eqb_spec rank 0) as [-> | Hr].
  - destruct H as [Hs | ?]; [|contradiction]. simpl.
    destruct (np_random_rand_ok (rng_seed 42) size size Hs Hs) as (A & g1 & -> & _).
    destruct (np_random_rand_ok g1 size size Hs Hs) as (B & g2 & -> & _).
    simpl. split; reflexivity.
  - simpl. split; reflexivity.
Qed.

(** A negative size stops every other rank at [np.zeros], after the
    broadcast. *)
Lemma worker_call_negative e g (rank : Z) :
  rank <> 0 -> num_procs <> 0 -> size < 0 ->
  interp rank e g (mpi_matrix_multiply size rank num_procs)
  = Result [EvBcast] (inl ValueError) g.
Proof.
  intros Hr Hn Hs. unfold mpi_matrix_multiply, initialize_matrices.
  destruct (Z.eqb_spec rank 0) as [|_]; [contradiction|]. simpl.
  unfold distribute_matrix_rows, py_floordiv, py_mod.
  destruct (Z.eqb_spec num_procs 0) as [|_]; [contradiction|]. simpl.
  fold (row_range size num_procs rank).
  rewrite (surjective_pairing (row_range size num_procs rank)).
  rewrite np_zeros_negative by lia. reflexivity.
Qed.

Hypothesis size_nonneg : 0 <= size.
Hypothesis procs_pos : 1 <= num_procs.

(** The call of a rank other than the root. *)
Lemma worker_call e g (rank : Z) :
  rank <> 0 ->
  interp rank e g (mpi_matrix_multiply size rank num_procs)
  = if rows rank >? 0 then
      match dot_obj (recv_in e 0 rank) (bcast_in e) with
      | inl x => Result [EvBcast; EvRecv 0 rank] (inl x) g
      | inr local_C =>
          Result [EvBcast; EvRecv 0 rank; EvSend 0 (rank + 100) local_C]
            (inr None) g
      end
    else Result [EvBcast] (inr None) g.
Proof.
  intros Hr.
  destruct (worker_head size num_procs rank Hr) as [k Hk].
  destruct (Z.gtb_spec (rows rank) 0) as [Hpos | Hzero].
  - destruct (worker_waits size num_procs size_nonneg procs_pos rank
                (bcast_in e) Hr Hpos) as [k1 Hk1].
    pose proof (worker_computes size num_procs size_nonneg procs_pos rank
                  (bcast_in e) (recv_in e 0 rank) Hr Hpos) as Hc.
    rewrite Hk in *. simpl in *.
    destruct (Z.eqb_spec rank 0) as [|_]; [contradiction|].
    rewrite Hk1 in *. simpl in *. rewrite Hc.
    destruct (dot_obj (recv_in e 0 rank) (bcast_in e)); reflexivity.
  - pose proof (worker_idle size num_procs size_nonneg procs_pos rank
                  (bcast_in e) Hr Hzero) as Hi.
    rewrite Hk in *. simpl in *.
    destruct (Z.eqb_spec rank 0) as [|_]; [contradiction|].
    rewrite Hi. reflexivity.
Qed.

(** The call of the root, up to its loop of receives. *)
Lemma root_call e g (A B P : matrix) (g2 : rng) :
  root_matrices size = inr (A, B, g2) ->
  np_dot A B = inr P ->
  interp 0 e g (mpi_matrix_multiply size 0 num_procs)
  = let r := interp 0 e g2
               (gather_loop P size num_procs (start 1) (py_range 1 num_procs)) in
    Result (EvBcast :: scatter_events A size num_procs (py_range 1 num_procs)
              ++ events r)
      (outcome r) (rng_after r).
Proof.
  intros Hm HP.
  destruct (root_matrices_ok size size_nonneg)
    as (A' & B' & g2' & Hm' & [HAc HAr] & [HBc HBr]).
  rewrite Hm in Hm'. injection Hm' as <- <- <-.
  unfold root_matrices in Hm.
  destruct (np_random_rand (rng_seed 42) size size) as [x | [A' g1]] eqn:HA;
    [discriminate|].
  destruct (np_random_rand g1 size size) as [x | [B' g2']] eqn:HB;
    [discriminate|].
  injection Hm as -> -> ->.
  change (interp 0 e g (mpi_matrix_multiply size 0 num_procs))
    with (match np_random_rand (rng_seed 42) size size with
          | inl x => Result [] (inl x) (rng_seed 42)
          | inr (m, g') =>
              match np_random_rand g' size size with
              | inl x => Result [] (inl x) g'
              | inr (m', g'') =>
                  emit EvBcast
                    (interp 0 e g''
                       (after_bcast (Some m')
                          (after_rand m' (after_rand m
                             (after_seed (mpi_matrix_multiply size 0 num_procs))))))
              end
          end).
  rewrite HA, HB.
  rewrite (root_after_bcast size num_procs size_nonneg procs_pos A B P)
    by assumption.
  unfold scatter_loop. rewrite interp_bind, interp_send_rows. simpl.
  reflexivity.
Qed.

(** The loop of receives of the root, whatever the transport delivers: it
    only receives from ranks with rows, with the tag of the rank plus 100,
    and the array keeps its shape. *)
Lemma gather_any me e g (procs : list Z) :
  forall C : matrix,
    let r := interp me e g
               (bind (recv_rows size num_procs procs C) (fun C' => Ret (Some C'))) in
    Forall (fun ev => exists p, In p procs /\ 0 < rows p /\ ev = EvRecv p (p + 100))
      (events r)
    /\ rng_after r = g
    /\ (forall v, outcome r = inr v ->
          exists C', v = Some C' /\ nrows C' = nrows C /\ ncols C' = ncols C).
Proof.
  induction procs as [|p rest IH]; intros C; simpl.
  - split; [constructor|]. split; [reflexivity|].
    intros v [= <-]. eauto.
  - fold (row_range size num_procs p).
    rewrite (surjective_pairing (row_range size num_procs p)).
    fold (rows p) (start p).
    destruct (Z.gtb_spec (rows p) 0) as [Hpos | Hzero].
    + simpl.
      destruct (np_setrows C (start p) (start p + rows p)
                  (recv_in e p (p + 100))) as [x | C1] eqn:Hset; simpl.
      * split; [|split; [reflexivity | discriminate]].
        constructor; [|constructor]. exists p. auto.
      * destruct (IH C1) as (Hev & Hg & Hout).
        apply np_setrows_shape in Hset as [Hr Hc].
        split; [|split; [exact Hg|]].
        -- constructor; [exists p; auto|].
           eapply Forall_impl; [exact Hev|].
           intros ev (q & Hq & Hrest). exists q. auto.
        -- intros v Hv. destruct (Hout v Hv) as (C' & -> & Hr' & Hc').
           exists C'. split; [reflexivity|]. split; congruence.
    + destruct (IH C) as (Hev & Hg & Hout).
      split; [|split; assumption].
      eapply Forall_impl; [exact Hev|].
      intros ev (q & Hq & Hrest). exists q. auto.
Qed.

(** The loop of receives of the root when every block has the expected
    shape: one receive per rank with rows, in the order of the ranks. *)
Lemma gather_shaped me e g (procs : list Z) :
  delivers_blocks e size num_procs ->
  (forall p, In p procs -> 1 <= p < num_procs) ->
  forall C : matrix,
    nrows C = size -> ncols C = size ->
    exists C',
      interp me e g
        (bind (recv_rows size num_procs procs C) (fun C' => Ret (Some C')))
      = Result (gather_events size num_procs procs) (inr (Some C')) g
      /\ nrows C' = size /\ ncols C' = size.
Proof.
  intros He. induction procs as [|p rest IH]; intros Hin C Hr Hc.
  - exists C. simpl. auto.
  - assert (1 <= p < num_procs) as Hp by (apply Hin; left; reflexivity).
    assert (forall q, In q rest -> 1 <= q < num_procs) as Hin'
      by (intros q Hq; apply Hin; right; exact Hq).
    rewrite recv_rows_cons. unfold gather_events, nonempty_ranks. simpl.
    destruct (Z.gtb_spec (rows p) 0) as [Hpos | Hzero].
    + destruct (He p Hp Hpos) as [Hvr Hvc].
      pose proof (start_row_bounds size num_procs size_nonneg procs_pos p).
      pose proof (range_end size num_procs size_nonneg procs_pos p).
      simpl. rewrite np_setrows_block by (try assumption; lia).
      match goal with
      | |- context [recv_rows _ _ rest ?C1] =>
          destruct (IH Hin' C1) as (C' & HC' & Hshape)
      end.
      * unfold nrows in *. simpl.
        rewrite !length_app, length_take, length_drop. lia.
      * simpl. assumption.
      * exists C'. rewrite HC'. simpl. split; [reflexivity | exact Hshape].
    + destruct (IH Hin' C Hr Hc) as (C' & HC' & Hshape).
      exists C'. rewrite HC'. split; [reflexivity | exact Hshape].
Qed.

Lemma sends_app (l1 l2 : list event) : sends (l1 ++ l2) = sends l1 ++ sends l2.
Proof.
  induction l1 as [|ev l1 IH]; [reflexivity|].
  destruct ev; simpl; rewrite ?IH; reflexivity.
Qed.

Lemma recvs_app (l1 l2 : list event) : recvs (l1 ++ l2) = recvs l1 ++ recvs l2.
Proof.
  induction l1 as [|ev l1 IH]; [reflexivity|].
  destruct ev; simpl; rewrite ?IH; reflexivity.
Qed.

Lemma sends_scatter (A : matrix) (procs : list Z) :
  sends (scatter_events A size num_procs procs)
  = map (fun p => (p, p)) (nonempty_ranks size num_procs procs).
Proof.
  unfold scatter_events.
  induction (nonempty_ranks size num_procs procs) as [|p l IH]; [reflexivity|].
  simpl. rewrite IH. reflexivity.
Qed.

Lemma recvs_scatter (A : matrix) (procs : list Z) :
  recvs (scatter_events A size num_procs procs) = [].
Proof.
  unfold scatter_events.
  induction (nonempty_ranks size num_procs procs) as [|p l IH]; [reflexivity|].
  simpl. exact IH.
Qed.

Lemma sends_gather (procs : list Z) :
  sends (gather_events size num_procs procs) = [].
Proof.
  unfold gather_events.
  induction (nonempty_ranks size num_procs procs) as [|p l IH]; [reflexivity|].
  simpl. exact IH.
Qed.

Lemma recvs_gather (procs : list Z) :
  recvs (gather_events size num_procs procs)
  = map (fun p => (p, p + 100)) (nonempty_ranks size num_procs procs).
Proof.
  unfold gather_events.
  induction (nonempty_ranks size num_procs procs) as [|p l IH]; [reflexivity|].
  simpl. rewrite IH. reflexivity.
Qed.

Lemma in_nonempty_ranks (r : Z) :
  In r (nonempty_ranks size num_procs (py_range 1 num_procs))
  <-> 1 <= r < num_procs /\ 0 < rows r.
Proof.
  unfold nonempty_ranks. rewrite filter_In, in_py_range.
  destruct (Z.gtb_spec (rows r) 0); intuition (try lia; try discriminate).
Qed.

(** The call of the root when every block has the expected shape. *)
Lemma root_call_shaped e g :
  delivers_blocks e size num_procs ->
  exists A B g2 C,
    root_matrices size = inr (A, B, g2)
    /\ interp 0 e g (mpi_matrix_multiply size 0 num_procs)
       = Result (EvBcast :: scatter_events A size num_procs (py_range 1 num_procs)
                   ++ gather_events size num_procs (py_range 1 num_procs))
           (inr (Some C)) g2
    /\ nrows C = size /\ ncols C = size.
Proof.
  intros He.
  destruct (root_matrices_ok size size_nonneg)
    as (A & B & g2 & Hm & [HAc HAr] & [HBc HBr]).
  destruct (product_exists A B) as [P HP]; [lia|].
  destruct (np_dot_rows A B P HP) as [HPr HPc].
  pose proof (start_row_bounds size num_procs size_nonneg procs_pos 1) as Hb.
  destruct (assembled_shape P size (start 1)) as [HCr HCc]; [lia | lia |].
  destruct (gather_shaped 0 e g2 (py_range 1 num_procs) He) with
    (C := assembled P size (start 1)) as (C & HC & Hr & Hc); try assumption.
  { intros p Hp. apply in_py_range in Hp. exact Hp. }
  exists A, B, g2, C. split; [exact Hm|]. split; [|split; assumption].
  rewrite (root_call e g A B P g2 Hm HP). unfold gather_loop.
  rewrite HC. reflexivity.
Qed.

Lemma in_sends (d t : Z) (l : list event) :
  In (d, t) (sends l) <-> exists m, In (EvSend d t m) l.
Proof.
  induction l as [|ev l IH].
  - simpl. split; [intros H; destruct H | intros [m H]; destruct H].
  - destruct ev as [|d' t' m'|s' t'|m']; simpl; rewrite IH.
    + split; [intros [m H]; eauto | intros [m [H | H]]; [discriminate | eauto]].
    + split.
      * intros [[= -> ->] | [m H]]; eauto.
      * intros [m [[= -> -> _] | H]]; eauto.
    + split; [intros [m H]; eauto | intros [m [H | H]]; [discriminate | eauto]].
    + split; [intros [m H]; eauto | intros [m [H | H]]; [discriminate | eauto]].
Qed.

Lemma in_recvs (s t : Z) (l : list event) :
  In (s, t) (recvs l) <-> In (EvRecv s t) l.
Proof.
  induction l as [|ev l IH]; simpl; [tauto|].
  destruct ev as [|d' t' m'|s' t'|m']; simpl; rewrite IH.
  - split; [tauto | intros [H | H]; [discriminate | exact H]].
  - split; [tauto | intros [H | H]; [discriminate | exact H]].
  - split; (intros [[= -> ->] | H]; [left; reflexivity | right; exact H]).
  - split; [tauto | intros [H | H]; [discriminate | exact H]].
Qed.

(** The sends of the root go to the ranks [1 .. num_procs - 1] and carry the
    rank as their tag; its receives come from these ranks and carry the rank
    plus 100; whatever the transport delivers. *)
Lemma root_tags e g :
  let evs := events (interp 0 e g (mpi_matrix_multiply size 0 num_procs)) in
  (forall d t, In (d, t) (sends evs) ->
     t = d /\ 1 <= d < num_procs /\ 0 < rows d)
  /\ (forall s t, In (s, t) (recvs evs) ->
        t = s + 100 /\ 1 <= s < num_procs /\ 0 < rows s).
Proof.
  destruct (root_matrices_ok size size_nonneg)
    as (A & B & g2 & Hm & [HAc HAr] & [HBc HBr]).
  destruct (product_exists A B) as [P HP]; [lia|].
  rewrite (root_call e g A B P g2 Hm HP). simpl.
  destruct (gather_any 0 e g2 (py_range 1 num_procs)
              (assembled P size (start 1))) as (Hev & _).
  fold (gather_loop P size num_procs (start 1) (py_range 1 num_procs)) in Hev.
  rewrite Forall_forall in Hev.
  split.
  - intros d t Hin. apply in_sends in Hin as [m Hin].
    apply in_app_or in Hin as [Hin | Hin].
    + unfold scatter_events in Hin. apply in_map_iff in Hin as (p & [= <- <- _] & Hp).
      apply in_nonempty_ranks in Hp. split; [reflexivity | exact Hp].
    + apply list_elem_of_In in Hin.
      destruct (Hev _ Hin) as (p & _ & _ & Habs). discriminate.
  - intros s t Hin. apply in_recvs in Hin.
    apply in_app_or in Hin as [Hin | Hin].
    + unfold scatter_events in Hin. apply in_map_iff in Hin as (p & Habs & _).
      discriminate.
    + apply list_elem_of_In in Hin.
      destruct (Hev _ Hin) as (p & Hp & Hpos & [= -> ->]).
      apply in_py_range in Hp. split; [reflexivity | split; assumption].
Qed.

Lemma prints_app (l1 l2 : list event) : prints (l1 ++ l2) = prints l1 ++ prints l2.
Proof.
  induction l1 as [|ev l1 IH]; [reflexivity|].
  destruct ev; simpl; rewrite ?IH; reflexivity.
Qed.

(** The call of the root prints nothing. *)
Lemma root_call_silent e g :
  prints (events (interp 0 e g (mpi_matrix_multiply size 0 num_procs))) = [].
Proof.
  destruct (root_matrices_ok size size_nonneg)
    as (A & B & g2 & Hm & [HAc HAr] & [HBc HBr]).
  destruct (product_exists A B) as [P HP]; [lia|].
  rewrite (root_call e g A B P g2 Hm HP). simpl.
  destruct (gather_any 0 e g2 (py_range 1 num_procs)
              (assembled P size (start 1))) as (Hev & _).
  fold (gather_loop P size num_procs (start 1) (py_range 1 num_procs)) in Hev.
  rewrite prints_app.
  assert (prints (scatter_events A size num_procs (py_range 1 num_procs)) = [])
    as ->.
  { unfold scatter_events.
    induction (nonempty_ranks size num_procs (py_range 1 num_procs)) as [|p l IH];
      [reflexivity | exact IH]. }
  simpl.
  induction Hev as [|ev evs (p & _ & _ & ->) _ IH]; [reflexivity | exact IH].
Qed.

(** The root does not depend on the generator state at the call: it seeds
    the generator first. *)
Lemma root_call_reseeds e g g' :
  interp 0 e g (mpi_matrix_multiply size 0 num_procs)
  = interp 0 e g' (mpi_matrix_multiply size 0 num_procs).
Proof. reflexivity. Qed.

(** [verify_correctness] on the root: the verdict on what the call
    returned. *)
Lemma verify_root_call e g (A B P : matrix) (g2 : rng) :
  root_matrices size = inr (A, B, g2) ->
  np_dot A B = inr P ->
  interp 0 e g (verify_correctness size 0 num_procs)
  = let r := interp 0 e g2 (mpi_matrix_multiply size 0 num_procs) in
    match outcome r with
    | inl x => Result (EvPrint (MsgVerifying size) :: events r) (inl x) (rng_after r)
    | inr C_mpi =>
        match allclose_obj (Some P) C_mpi with
        | inl x =>
            Result (EvPrint (MsgVerifying size) :: events r) (inl x) (rng_after r)
        | inr true =>
            Result (EvPrint (MsgVerifying size) :: events r ++ [EvPrint MsgCorrect])
              (inr (Some true)) (rng_after r)
        | inr false =>
            match max_abs_diff_obj (Some P) C_mpi with
            | inl x =>
                Result (EvPrint (MsgVerifying size) :: events r ++ [EvPrint MsgErrors])
                  (inl x) (rng_after r)
            | inr d =>
                Result (EvPrint (MsgVerifying size) :: events r
                          ++ [EvPrint MsgErrors; EvPrint (MsgMaxDiff d)])
                  (inr (Some false)) (rng_after r)
            end
        end
    end.
Proof.
  intros Hm HP. unfold root_matrices in Hm.
  destruct (np_random_rand (rng_seed 42) size size) as [x | [A' g1]] eqn:HA;
    [discriminate|].
  destruct (np_random_rand g1 size size) as [x | [B' g2']] eqn:HB;
    [discriminate|].
  injection Hm as -> -> ->.
  unfold verify_correctness.
  change (0 =? 0) with true. cbv iota.
  cbn [bind interp]. rewrite HA. cbn [bind interp]. rewrite HB.
  rewrite !interp_bind. rewrite HP. cbn [lift interp outcome events rng_after].
  rewrite interp_bind.
  destruct (interp 0 e g2 (mpi_matrix_multiply size 0 num_procs))
    as [evs [x | C_mpi] g3]; cbn [outcome events rng_after emit app].
  - reflexivity.
  - unfold verdict. change (0 =? 0) with true. cbv iota.
    rewrite !interp_bind.
    destruct (allclose_obj (Some P) C_mpi) as [x | [|]];
      cbn [lift interp outcome events rng_after emit app].
    + rewrite app_nil_r. reflexivity.
    + reflexivity.
    + rewrite interp_bind.
      destruct (max_abs_diff_obj (Some P) C_mpi) as [x | d];
        cbn [lift interp outcome events rng_after emit app]; reflexivity.
Qed.

(** [verify_correctness] on another rank: the call, then [None]. *)
Lemma verify_worker_call e g (rank : Z) :
  rank <> 0 ->
  interp rank e g (verify_correctness size rank num_procs)
  = let r := interp rank e g (mpi_matrix_multiply size rank num_procs) in
    Result (events r)
      (match outcome r with inl x => inl x | inr _ => inr None end)
      (rng_after r).
Proof.
  intros Hr. unfold verify_correctness.
  unfold verdict.
  destruct (Z.eqb_spec rank 0) as [|_]; [contradiction|].
  cbn [bind]. rewrite interp_bind.
  destruct (interp rank e g (mpi_matrix_multiply size rank num_procs))
    as [evs [x | v] g3]; simpl; [reflexivity|].
  rewrite app_nil_r. reflexivity.
Qed.

End Calls.

(** Every rank calls [mpi_matrix_multiply]: the group runs to completion, the
    root returns the product of the matrices it drew, the others [None]. *)
Lemma group_run `{Num : Scalar} `{RS : !RandomState}
    (size num_procs : Z) (gs : list rng) :
  0 <= size -> 1 <= num_procs -> Z.of_nat (length gs) = num_procs ->
  exists A B g2 P cfg,
    root_matrices size = inr (A, B, g2)
    /\ np_dot A B = inr P
    /\ (nrows P = size /\ ncols P = size)
    /\ completes (spawn (fun r => mpi_matrix_multiply size r num_procs) gs) cfg
    /\ results cfg = Some (Some P) :: replicate (length gs - 1) (Some None).
Proof.
  intros Hs Hn Hlen.
  destruct gs as [|g0 gt]; [simpl in Hlen; lia|].
  destruct (root_matrices_ok size Hs) as (A & B & g2 & Hm & [HAc HAr] & [HBc HBr]).
  destruct (product_exists A B) as [P HP]; [lia|].
  destruct (multiply_run size num_procs A B P) with (g0 := g0) (out0 := @nil message)
    (rest := map (fun g : rng => (g, @nil message)) gt) as (g2' & Hm' & Hrun);
    try assumption; try lia; eauto.
  { rewrite length_map. simpl in Hlen. lia. }
  exists A, B, g2, P.
  eexists. split; [exact Hm|]. split; [exact HP|].
  split; [apply (product_shape size A B P); assumption|].
  split.
  { apply completes_returned; [exact Hrun|].
    constructor; [simpl; eauto | apply load_returned]. }
  unfold results. simpl. f_equal.
  change (map _ (load ?f ?p ?l)) with (results (load f p l)).
  rewrite results_returned, length_map, Nat.sub_0_r. reflexivity.
Qed.

(** C1. For a matrix size of at least 1 and at least one process, when every
    rank calls [mpi_matrix_multiply] the group runs to completion whatever
    the order of its steps, every rank but the root returns [None], and the
    matrix the root returns is the serial product [np.dot(A, B)] of the
    matrices [A] and [B] the root drew: all its rows are the rows of the
    product.  It is therefore within the tolerance of [np.allclose] of the
    serial product whenever the elements of the product are close to
    themselves (they are finite). *)
Theorem mpi_matches_serial `{Num : Scalar} `{RS : !RandomState}
    (size num_procs : Z) (gs : list rng) :
  1 <= size -> 1 <= num_procs -> Z.of_nat (length gs) = num_procs ->
  exists A B g2 C_serial C_mpi cfg,
    root_matrices size = inr (A, B, g2)
    /\ serial_matrix_multiply A B = inr C_serial
    /\ completes (spawn (fun r => mpi_matrix_multiply size r num_procs) gs) cfg
    /\ results cfg
       = Some (Some C_mpi) :: replicate (length gs - 1) (Some None)
    /\ C_mpi = C_serial
    /\ ((forall x, In x (concat (mrows C_serial)) -> isclose x x = true) ->
        np_allclose C_serial C_mpi = inr true).
Proof.
  intros Hs Hn Hlen.
  destruct (group_run size num_procs gs) as (A & B & g2 & P & cfg & Hm & HP & _ & Hrun & Hres);
    [lia | assumption | assumption |].
  exists A, B, g2, P, P, cfg.
  split; [exact Hm|]. split; [exact HP|]. split; [exact Hrun|].
  split; [exact Hres|]. split; [reflexivity|]. apply np_allclose_refl.
Qed.

Lemma mpi_matches_serial_witness :
  1 <= 3 /\ 1 <= 2 /\ Z.of_nat (length [7; 8]) = 2
  /\ exists A B g2 C_serial C_mpi cfg,
       @root_matrices Float64.scalar Float64.lcg 3 = inr (A, B, g2)
       /\ serial_matrix_multiply A B = inr C_serial
       /\ completes (@spawn Float64.scalar Float64.lcg _
                       (fun r => mpi_matrix_multiply 3 r 2) [7; 8]) cfg
       /\ results cfg = Some (Some C_mpi) :: replicate 1 (Some None)
       /\ C_mpi = C_serial
       /\ np_allclose C_serial C_mpi = inr true.
Proof.
  split; [lia|]. split; [lia|]. split; [reflexivity|].
  destruct (@mpi_matches_serial Float64.scalar Float64.lcg 3 2 [7; 8])
    as (A & B & g2 & C_serial & C_mpi & cfg & Hm & HP & Hrun & Hres & Heq & Hclose);
    [lia | lia | reflexivity |].
  exists A, B, g2, C_serial, C_mpi, cfg.
  split; [exact Hm|]. split; [exact HP|]. split; [exact Hrun|].
  split; [exact Hres|]. split; [exact Heq|].
  apply Hclose. intros x Hx.
  vm_compute in Hm. injection Hm as <- <- <-.
  vm_compute in HP. injection HP as <-.
  simpl in Hx.
  repeat (destruct Hx as [<- | Hx]; [vm_compute; reflexivity|]).
  contradiction.
Defined.

(** C3. With [base = size // num_procs] and [remainder = size % num_procs],
    the ranks below [remainder], and only they, get [base + 1] rows, the
    others get [base] rows; the rank [r] starts at row [r * (base + 1)] when
    it is below [remainder] and at
    [remainder * (base + 1) + (r - remainder) * base] otherwise; these are
    the row count and the start row [distribute_matrix_rows] returns.  For
    5 rows and 3 ranks the ranges are rows 0-1, rows 2-3 and row 4. *)
Theorem row_range_formula `{Num : Scalar} `{RS : !RandomState}
    (size num_procs r : Z) (e : env) (g : rng) (A : matrix) :
  0 <= size -> 1 <= num_procs -> 0 <= r < num_procs ->
  let base := size / num_procs in
  let remainder := size mod num_procs in
  (r < remainder <-> local_rows_of size num_procs r = base + 1)
  /\ (remainder <= r <-> local_rows_of size num_procs r = base)
  /\ start_row_of size num_procs r
     = (if r <? remainder then r * (base + 1)
        else remainder * (base + 1) + (r - remainder) * base)
  /\ (exists local_A,
        outcome (interp r e g (distribute_matrix_rows (Some A) size r num_procs))
        = inr (local_A, local_rows_of size num_procs r,
               start_row_of size num_procs r))
  /\ map (row_range 5 3) [0; 1; 2] = [(2, 0); (2, 2); (1, 4)].
Proof.
  intros Hs Hn Hr base remainder.
  pose proof (row_range_low size num_procs r) as Hlow.
  pose proof (row_range_high size num_procs r) as Hhigh.
  fold base remainder in Hlow, Hhigh.
  pose proof (local_rows_nonneg size num_procs Hs Hn r) as Hrows.
  unfold local_rows_of, start_row_of in *.
  split; [|split; [|split; [|split]]].
  - destruct (Z.lt_ge_cases r remainder) as [Hlt | Hge].
    + rewrite Hlow by assumption. simpl. tauto.
    + rewrite Hhigh by assumption. simpl. lia.
  - destruct (Z.lt_ge_cases r remainder) as [Hlt | Hge].
    + rewrite Hlow by assumption. simpl. lia.
    + rewrite Hhigh by assumption. simpl. tauto.
  - destruct (Z.ltb_spec r remainder) as [Hlt | Hge].
    + rewrite Hlow by assumption. reflexivity.
    + rewrite Hhigh by assumption. reflexivity.
  - destruct (Z.eq_dec r 0) as [-> | Hne].
    + rewrite interp_distribute_root by (try assumption; lia). simpl. eauto.
    + rewrite interp_distribute_worker by (try assumption; lia).
      destruct (local_rows_of size num_procs r >? 0); simpl; eauto.
  - reflexivity.
Qed.

Lemma row_range_formula_witness :
  0 <= 5 /\ 1 <= 3 /\ 0 <= 1 < 3
  /\ (1 < 5 mod 3 <-> local_rows_of 5 3 1 = 5 / 3 + 1)
  /\ (5 mod 3 <= 1 <-> local_rows_of 5 3 1 = 5 / 3)
  /\ start_row_of 5 3 1
     = (if 1 <? 5 mod 3 then 1 * (5 / 3 + 1)
        else 5 mod 3 * (5 / 3 + 1) + (1 - 5 mod 3) * (5 / 3))
  /\ (exists local_A,
        outcome (@interp Float64.scalar Float64.lcg _ 1
                   (Env None (fun _ _ => Matrix 5 [[]; []])) 0
                   (distribute_matrix_rows (Some (Matrix 5 [])) 5 1 3))
        = inr (local_A, local_rows_of 5 3 1, start_row_of 5 3 1))
  /\ map (row_range 5 3) [0; 1; 2] = [(2, 0); (2, 2); (1, 4)].
Proof.
  split; [lia|]. split; [lia|]. split; [lia|].
  apply (@row_range_formula Float64.scalar Float64.lcg 5 3 1); lia.
Defined.

(** C4. The two sides of every transfer skip an empty block under the same
    condition.  With the transport delivering arrays of the expected shape,
    the root sends once to each rank whose row count is positive (tag: the
    rank) and receives once from each of them (tag: the rank plus 100), in
    the order of the ranks; the rank [r] receives once from the root with the
    tag [r] and sends once to the root with the tag [r + 100] when its own
    row count is positive, and does neither otherwise.  So when every rank
    makes the call no send and no receive is left without its counterpart:
    the group runs to completion whatever the order of its steps. *)
Theorem transfers_match `{Num : Scalar} `{RS : !RandomState}
    (size num_procs r : Z) (e0 er : env) (g0 gr : rng) (gs : list rng) :
  0 <= size -> 1 <= r < num_procs ->
  delivers_blocks e0 size num_procs -> delivers_rows er r ->
  Z.of_nat (length gs) = num_procs ->
  transfers_agree size num_procs r
    (events (interp 0 e0 g0 (mpi_matrix_multiply size 0 num_procs)))
    (events (interp r er gr (mpi_matrix_multiply size r num_procs)))
  /\ exists C cfg,
       completes (spawn (fun k => mpi_matrix_multiply size k num_procs) gs) cfg
       /\ results cfg = Some (Some C) :: replicate (length gs - 1) (Some None).
Proof.
  intros Hs Hr He0 (B & HB & Hshape) Hlen.
  assert (1 <= num_procs) as Hn by lia.
  split.
  2: { destruct (group_run size num_procs gs Hs Hn Hlen)
         as (A & B0 & g2 & P & cfg & _ & _ & _ & Hrun & Hres).
       exists P, cfg. split; assumption. }
  unfold transfers_agree.
  set (root := events (interp 0 e0 g0 (mpi_matrix_multiply size 0 num_procs))).
  set (rank := events (interp r er gr (mpi_matrix_multiply size r num_procs))).
  set (with_rows := nonempty_ranks size num_procs (py_range 1 num_procs)).
  destruct (root_call_shaped size num_procs Hs Hn e0 g0 He0)
    as (A & B0 & g2 & C & _ & Hroot & _).
  assert (sends root = map (fun p => (p, p)) with_rows) as Hsr.
  { unfold root. rewrite Hroot. simpl.
    rewrite sends_app, sends_scatter, sends_gather, app_nil_r. reflexivity. }
  assert (recvs root = map (fun p => (p, p + 100)) with_rows) as Hrr.
  { unfold root. rewrite Hroot. simpl.
    rewrite recvs_app, recvs_scatter, recvs_gather. reflexivity. }
  assert (rank = if local_rows_of size num_procs r >? 0
                 then match np_dot (recv_in er 0 r) B with
                      | inr local_C =>
                          [EvBcast; EvRecv 0 r; EvSend 0 (r + 100) local_C]
                      | inl _ => [EvBcast; EvRecv 0 r]
                      end
                 else [EvBcast]) as Hrank.
  { unfold rank. rewrite worker_call by lia. rewrite HB. simpl.
    destruct (local_rows_of size num_procs r >? 0); [|reflexivity].
    destruct (np_dot (recv_in er 0 r) B); reflexivity. }
  destruct (product_exists (recv_in er 0 r) B Hshape) as [local_C HC].
  rewrite HC in Hrank.
  assert (recvs rank
          = if local_rows_of size num_procs r >? 0 then [(0, r)] else []) as Hrk.
  { rewrite Hrank. destruct (local_rows_of size num_procs r >? 0); reflexivity. }
  assert (sends rank
          = if local_rows_of size num_procs r >? 0 then [(0, r + 100)] else [])
    as Hsk.
  { rewrite Hrank. destruct (local_rows_of size num_procs r >? 0); reflexivity. }
  pose proof (in_nonempty_ranks size num_procs r) as Hin. fold with_rows in Hin.
  split; [exact Hsr|]. split; [exact Hrr|]. split; [exact Hrk|].
  split; [exact Hsk|].
  split; [|split; [|split]].
  - rewrite Hsr, in_map_iff. split.
    + intros (p & [= -> _] & Hp). apply Hin in Hp. tauto.
    + intros Hpos. exists r. split; [reflexivity|]. apply Hin. tauto.
  - rewrite Hrk. destruct (Z.gtb_spec (local_rows_of size num_procs r) 0).
    + simpl. tauto.
    + simpl. split; [tauto | lia].
  - rewrite Hsk. destruct (Z.gtb_spec (local_rows_of size num_procs r) 0).
    + simpl. tauto.
    + simpl. split; [tauto | lia].
  - rewrite Hrr, in_map_iff. split.
    + intros (p & [= -> _] & Hp). apply Hin in Hp. tauto.
    + intros Hpos. exists r. split; [reflexivity|]. apply Hin. tauto.
Qed.

Lemma transfers_match_witness :
  0 <= 5 /\ 1 <= 2 < 3
  /\ @delivers_blocks Float64.scalar
       (Env None (fun p _ => Matrix 5 (replicate (Z.to_nat (local_rows_of 5 3 p)) [])))
       5 3
  /\ @delivers_rows Float64.scalar
       (Env (Some (Matrix 5 (replicate 5 []))) (fun _ _ => Matrix 5 [[]])) 2
  /\ Z.of_nat (length [1; 2; 3]) = 3
  /\ transfers_agree 5 3 2
       (events (@interp Float64.scalar Float64.lcg _ 0
                  (Env None (fun p _ =>
                     Matrix 5 (replicate (Z.to_nat (local_rows_of 5 3 p)) [])))
                  0 (mpi_matrix_multiply 5 0 3)))
       (events (@interp Float64.scalar Float64.lcg _ 2
                  (Env (Some (Matrix 5 (replicate 5 []))) (fun _ _ => Matrix 5 [[]]))
                  0 (mpi_matrix_multiply 5 2 3)))
  /\ exists C cfg,
       completes (@spawn Float64.scalar Float64.lcg _
                    (fun k => mpi_matrix_multiply 5 k 3) [1; 2; 3]) cfg
       /\ results cfg = Some (Some C) :: replicate 2 (Some None).
Proof.
  assert (@delivers_blocks Float64.scalar
            (Env None (fun p _ =>
               Matrix 5 (replicate (Z.to_nat (local_rows_of 5 3 p)) [])))
            5 3) as Hblocks.
  { intros p Hp _. assert (p = 1 \/ p = 2) as [-> | ->] by lia;
      split; reflexivity. }
  assert (@delivers_rows Float64.scalar
            (Env (Some (Matrix 5 (replicate 5 []))) (fun _ _ => Matrix 5 [[]])) 2)
    as Hrows.
  { exists (Matrix 5 (replicate 5 [])). split; reflexivity. }
  split; [lia|]. split; [lia|]. split; [exact Hblocks|]. split; [exact Hrows|].
  split; [reflexivity|].
  apply (@transfers_match Float64.scalar Float64.lcg 5 3 2 _ _ 0 0 [1; 2; 3]);
    [lia | lia | exact Hblocks | exact Hrows | reflexivity].
Defined.

(** C5, as the code has it.  For 1 to 101 processes no tag of the scatter
    phase is a tag of the gather phase: the root sends to the rank [d] with
    the tag [d] and receives from the rank [s] with the tag [s + 100], for
    ranks in [1 .. num_procs - 1], and the rank [r] receives with the tag [r]
    and sends with the tag [r + 100]; whatever the transport delivers. *)
Theorem tags_disjoint_below_102 `{Num : Scalar} `{RS : !RandomState}
    (size num_procs : Z) (e : env) (g : rng) :
  1 <= num_procs <= 101 ->
  let evs := events (interp 0 e g (mpi_matrix_multiply size 0 num_procs)) in
  tags_disjoint evs
  /\ (forall d t, In (d, t) (sends evs) -> t = d /\ 1 <= d < num_procs)
  /\ (forall s t, In (s, t) (recvs evs) -> t = s + 100 /\ 1 <= s < num_procs)
  /\ (forall r er gr, 1 <= r < num_procs ->
        let evr := events (interp r er gr (mpi_matrix_multiply size r num_procs)) in
        (forall s t, In (s, t) (recvs evr) -> s = 0 /\ t = r)
        /\ (forall d t, In (d, t) (sends evr) -> d = 0 /\ t = r + 100)).
Proof.
  intros Hn evs.
  assert ((forall d t, In (d, t) (sends evs) -> t = d /\ 1 <= d < num_procs)
          /\ (forall s t, In (s, t) (recvs evs) -> t = s + 100 /\ 1 <= s < num_procs))
    as [Hsends Hrecvs].
  { destruct (Z.lt_ge_cases size 0) as [Hneg | Hpos].
    - unfold evs. rewrite root_call_negative by assumption. simpl.
      split; intros ? ? [].
    - destruct (root_tags size num_procs Hpos (proj1 Hn) e g) as [H1 H2].
      split; intros x t Hin; [apply H1 in Hin | apply H2 in Hin]; tauto. }
  split; [|split; [exact Hsends | split; [exact Hrecvs|]]].
  - intros d t s t' Hs Hr.
    apply Hsends in Hs. apply Hrecvs in Hr. lia.
  - intros r er gr Hr evr.
    assert (evr = [EvBcast]
            \/ evr = [EvBcast; EvRecv 0 r]
            \/ exists m, evr = [EvBcast; EvRecv 0 r; EvSend 0 (r + 100) m])
      as Hevr.
    { unfold evr. destruct (Z.lt_ge_cases size 0) as [Hneg | Hpos].
      - rewrite worker_call_negative by lia. left. reflexivity.
      - rewrite worker_call by lia.
        destruct (local_rows_of size num_procs r >? 0); [|left; reflexivity].
        destruct (dot_obj (recv_in er 0 r) (bcast_in er)); simpl; eauto. }
    destruct Hevr as [-> | [-> | [m ->]]]; simpl; split; intros ? ? H;
      repeat (destruct H as [[= <- <-] | H]); try contradiction; auto.
Qed.

Lemma tags_disjoint_below_102_witness :
  1 <= 3 <= 101
  /\ tags_disjoint
       (events (@interp Float64.scalar Float64.lcg _ 0
                  (Env None (fun _ _ => Matrix 5 [[]])) 0
                  (mpi_matrix_multiply 5 0 3))).
Proof.
  split; [lia|].
  apply (@tags_disjoint_below_102 Float64.scalar Float64.lcg 5 3
           (Env None (fun _ _ => Matrix 5 [[]])) 0).
  lia.
Defined.

(** C5 as stated fails from 102 processes on: for 102 rows on 102
    processes the root sends to the rank 101 with the tag 101 and receives
    from the rank 1 with the tag 101. *)
Lemma tags_collide_at_102 :
  ~ tags_disjoint
      (events (@interp Float64.scalar Float64.lcg _ 0
                 (Env None (fun _ _ => Matrix 102 [[]])) 0
                 (mpi_matrix_multiply 102 0 102))).
Proof.
  intros H. apply (H 101 101 1 101); [| |reflexivity].
  - assert (existsb (fun dt => (fst dt =? 101) && (snd dt =? 101))
              (sends (events (@interp Float64.scalar Float64.lcg _ 0
                                (Env None (fun _ _ => Matrix 102 [[]])) 0
                                (mpi_matrix_multiply 102 0 102)))) = true) as Hex
      by (vm_compute; reflexivity).
    apply existsb_exists in Hex as ([d t] & Hin & Heq). simpl in Heq.
    apply andb_prop in Heq as [Hd Ht].
    apply Z.eqb_eq in Hd, Ht. subst. exact Hin.
  - assert (existsb (fun st => (fst st =? 1) && (snd st =? 101))
              (recvs (events (@interp Float64.scalar Float64.lcg _ 0
                                (Env None (fun _ _ => Matrix 102 [[]])) 0
                                (mpi_matrix_multiply 102 0 102)))) = true) as Hex
      by (vm_compute; reflexivity).
    apply existsb_exists in Hex as ([d t] & Hin & Heq). simpl in Heq.
    apply andb_prop in Heq as [Hd Ht].
    apply Z.eqb_eq in Hd, Ht. subst. exact Hin.
Qed.

(** ** Groups in which a rank has stopped *)

Section Stuck.
Context `{Num : Scalar} `{RS : !RandomState}.

Lemma completes_nf {R : Type} (init final : list (pstate R)) :
  steps init final -> nf step final -> completes init final.
Proof.
  intros Hrun Hnf. split; [exact Hrun|]. split; [exact Hnf|].
  intros cfg Hcfg. exact (steps_confluent init final cfg Hrun Hnf Hcfg).
Qed.

(** No step leaves a group whose root has raised while every other process
    waits in the broadcast. *)
Lemma raised_root_nf {R : Type} (root : pstate R) (x : exn) (ws : list (pstate R)) :
  st_code root = Raise x ->
  Forall (fun st => exists v k, st_code st = Bcast v k) ws ->
  nf step (root :: ws).
Proof.
  intros Hroot Hws [cfg' Hstep]. rewrite Forall_lookup in Hws.
  assert (forall i st, (root :: ws) !! i = Some st ->
            st_code st = Raise x \/ exists v k, st_code st = Bcast v k) as Hall.
  { intros [|i] st Hi; simpl in Hi.
    - injection Hi as <-. left. exact Hroot.
    - right. exact (Hws i st Hi). }
  inversion Hstep as [cfg i st st' Hi Hloc | cfg root' v k Hr Hcode _
                      | cfg i j si sj m tag k k' Hi Hj Hsi Hsj]; subst.
  - unfold local_step in Hloc.
    destruct (Hall i st Hi) as [Hc | (v & k & Hc)]; rewrite Hc in Hloc; discriminate.
  - simpl in Hr. injection Hr as <-. congruence.
  - destruct (Hall i si Hi) as [Hc | (v & k0 & Hc)]; congruence.
Qed.

Lemma workers_wait (size num_procs : Z) (sts : list (rng * list message)) :
  forall p : nat,
    (1 <= p)%nat ->
    Forall (fun st => exists k, st_code st = Bcast None k)
      (load (fun r => mpi_matrix_multiply size r num_procs) p sts).
Proof.
  induction sts as [|[g o] sts IH]; intros p Hp; simpl; constructor.
  - destruct (worker_head size num_procs (Z.of_nat p)) as [k Hk]; [lia|].
    simpl. rewrite Hk. eauto.
  - apply IH. lia.
Qed.

Lemma results_waiting {R : Type} (ws : list (pstate R)) :
  Forall (fun st => exists v k, st_code st = Bcast v k) ws ->
  results ws = replicate (length ws) None.
Proof.
  induction 1 as [|st ws (v & k & Hst) _ IH]; [reflexivity|].
  unfold results in *. simpl. rewrite Hst, IH. reflexivity.
Qed.

Lemma load_length {R : Type} (f : Z -> proc R) (sts : list (rng * list message)) :
  forall p : nat, length (load f p sts) = length sts.
Proof.
  induction sts as [|[g o] sts IH]; intros p; simpl; [reflexivity|].
  rewrite IH. reflexivity.
Qed.

End Stuck.

Section Degenerate.
Context `{Num : Scalar} `{RS : !RandomState}.

Lemma steps_invariant {R : Type} (I : list (pstate R) -> Prop)
    (init : list (pstate R)) :
  I init ->
  (forall c c', I c -> step c c' -> I c') ->
  forall cfg, steps init cfg -> I cfg.
Proof.
  intros H0 Hstep. unfold steps. apply (rtc_ind_r I init H0).
  intros c c' _ Hs IH. exact (Hstep c c' IH Hs).
Qed.

Lemma completes_unique {R : Type} (init f1 f2 : list (pstate R)) :
  completes init f1 -> completes init f2 -> f1 = f2.
Proof.
  intros (Hrun1 & Hnf1 & _) (_ & _ & Hall2).
  exact (rtc_nf _ _ (Hall2 f1 Hrun1) Hnf1).
Qed.

(** No step leaves a group in which every process has raised. *)
Lemma all_raised_nf {R : Type} (cfg : list (pstate R)) :
  Forall (fun st => raised st = true) cfg -> nf step cfg.
Proof.
  intros Hall [cfg' Hstep]. rewrite Forall_lookup in Hall.
  inversion Hstep as [c i st st' Hi Hloc | c root v k Hr Hcode _
                      | c i j si sj m tag k k' Hi Hj Hsi Hsj]; subst.
  - specialize (Hall i st Hi). unfold raised in Hall. unfold local_step in Hloc.
    destruct (st_code st); discriminate.
  - specialize (Hall _ _ Hr). unfold raised in Hall. rewrite Hcode in Hall.
    discriminate.
  - specialize (Hall _ _ Hi). unfold raised in Hall. rewrite Hsi in Hall.
    discriminate.
Qed.

(** ** A negative size *)

Section NegativeSize.

Variable size : Z.
Hypothesis size_negative : size < 0.

(** The other ranks, each at its broadcast. *)
Variable others : list (pstate (option matrix)).
Hypothesis others_wait :
  Forall (fun st => exists k, st_code st = Bcast None k) others.

Lemma root_stops_step (root : pstate (option matrix)) cfg' :
  st_out root = [] ->
  ((exists k, st_code root = Seed 42 (Rand size size k))
   \/ (exists k, st_code root = Rand size size k /\ st_rng root = rng_seed 42)
   \/ root = PState (rng_seed 42) [] (Raise ValueError)) ->
  step (root :: others) cfg' ->
  exists root',
    cfg' = root' :: others
    /\ st_out root' = []
    /\ ((exists k, st_code root' = Seed 42 (Rand size size k))
        \/ (exists k, st_code root' = Rand size size k /\ st_rng root' = rng_seed 42)
        \/ root' = PState (rng_seed 42) [] (Raise ValueError)).
Proof.
  intros Hout Hroot Hstep.
  assert (forall i st, others !! i = Some st -> exists k, st_code st = Bcast None k)
    as Hws by (apply Forall_lookup; exact others_wait).
  inversion Hstep as [c i st st' Hi Hloc | c r v k Hr Hcode _
                      | c i j si sj m tag k k' Hi Hj Hsi Hsj]; subst.
  - destruct i as [|i]; simpl in Hi.
    + injection Hi as <-. exists st'. split; [reflexivity|].
      unfold local_step in Hloc.
      destruct Hroot as [[k Hk] | [(k & Hk & Hg) | ->]].
      * rewrite Hk in Hloc. injection Hloc as <-. simpl.
        split; [exact Hout|]. right. left. eauto.
      * rewrite Hk in Hloc. rewrite np_random_rand_negative in Hloc by lia.
        injection Hloc as <-. simpl. split; [exact Hout|]. right. right.
        rewrite Hg, Hout. reflexivity.
      * discriminate Hloc.
    + destruct (Hws i st Hi) as [k Hk]. unfold local_step in Hloc.
      rewrite Hk in Hloc. discriminate.
  - simpl in Hr. injection Hr as <-.
    destruct Hroot as [[k0 Hk] | [(k0 & Hk & _) | ->]]; simpl in *; congruence.
  - destruct i as [|i]; simpl in Hi.
    + injection Hi as <-.
      destruct Hroot as [[k0 Hk] | [(k0 & Hk & _) | ->]]; simpl in *; congruence.
    + destruct (Hws i si Hi) as [k0 Hk]. congruence.
Qed.

Lemma negative_size_reachable (g0 : rng) (k : matrix -> proc (option matrix)) :
  forall cfg,
    steps (PState g0 [] (Seed 42 (Rand size size k)) :: others) cfg ->
    exists root,
      cfg = root :: others /\ at_comm root = false
      /\ (raised root = true -> root = PState (rng_seed 42) [] (Raise ValueError)).
Proof.
  intros cfg Hrun.
  assert (exists root,
             cfg = root :: others
             /\ st_out root = []
             /\ ((exists k, st_code root = Seed 42 (Rand size size k))
                 \/ (exists k, st_code root = Rand size size k
                               /\ st_rng root = rng_seed 42)
                 \/ root = PState (rng_seed 42) [] (Raise ValueError))) as Hinv.
  { revert cfg Hrun. apply steps_invariant.
    - eexists. split; [reflexivity|]. split; [reflexivity|]. left. simpl. eauto.
    - intros c c' (root & -> & Hout & Hroot) Hstep.
      exact (root_stops_step root c' Hout Hroot Hstep). }
  destruct Hinv as (root & -> & Hout & Hroot). exists root.
  split; [reflexivity|].
  unfold at_comm, at_bcast, at_transfer, raised.
  destruct Hroot as [[k0 Hk] | [(k0 & Hk & _) | ->]].
  - rewrite Hk. split; [reflexivity | discriminate].
  - rewrite Hk. split; [reflexivity | discriminate].
  - simpl. split; reflexivity.
Qed.

Lemma negative_size_run (g0 : rng) (k : matrix -> proc (option matrix)) :
  completes (PState g0 [] (Seed 42 (Rand size size k)) :: others)
    (PState (rng_seed 42) [] (Raise ValueError) :: others).
Proof.
  apply completes_nf.
  - eapply steps_step.
    { apply step_first. reflexivity. }
    eapply steps_step.
    { apply step_first. unfold local_step. simpl.
      rewrite np_random_rand_negative by lia. reflexivity. }
    apply steps_refl.
  - eapply raised_root_nf; [reflexivity|].
    eapply Forall_impl; [exact others_wait|]. intros st [k0 Hk]. eauto.
Qed.

End NegativeSize.

(** ** No process *)

Lemma raises_after_bcast_quiet {R : Type} (x : exn) (st : pstate R) :
  raises_after_bcast x (st_code st) ->
  at_transfer st = false /\ raised st = false.
Proof.
  unfold at_transfer, raised. destruct (st_code st); simpl; tauto.
Qed.

Lemma deliver_raises {R : Type} (x : exn) (v : option matrix) (cfg : list (pstate R)) :
  Forall (fun st => raises_after_bcast x (st_code st)) cfg ->
  forallb at_bcast cfg = true ->
  Forall (fun st => st_code st = Raise x) (map (deliver v) cfg).
Proof.
  induction 1 as [|st cfg Hst _ IH]; simpl; intros Hall; [constructor|].
  apply andb_prop in Hall as [Hb Hrest].
  constructor; [|exact (IH Hrest)].
  unfold deliver, at_bcast in *.
  destruct (st_code st); try discriminate. simpl in *. apply Hst.
Qed.

(** Before the broadcast only the draws move; the step that completes the
    broadcast stops every process. *)
Lemma step_before_bcast {R : Type} (x : exn) (cfg cfg' : list (pstate R)) :
  Forall (fun st => raises_after_bcast x (st_code st)) cfg ->
  step cfg cfg' ->
  Forall (fun st => raises_after_bcast x (st_code st)) cfg'
  \/ (Forall (fun st => at_bcast st = true) cfg
      /\ Forall (fun st => st_code st = Raise x) cfg').
Proof.
  intros Hall Hstep.
  inversion Hstep as [c i st st' Hi Hloc | c root v k Hr Hcode Hb
                      | c i j si sj m tag k k' Hi Hj Hsi Hsj]; subst.
  - left. apply Forall_insert; [exact Hall|].
    pose proof (Forall_lookup_1 _ _ _ _ Hall Hi) as Hst. cbv beta in Hst.
    unfold local_step in Hloc.
    destruct (st_code st) as [| | s k | r c k | | | |] eqn:Hc;
      try discriminate; simpl in Hst.
    + injection Hloc as <-. exact Hst.
    + destruct Hst as (Hr & Hcn & Hk).
      destruct (np_random_rand_ok (st_rng st) r c Hr Hcn) as (M & g' & HM & _).
      rewrite HM in Hloc. injection Hloc as <-. apply Hk.
    + contradiction.
  - right. split.
    + apply Forall_forall. intros st Hst.
      rewrite forallb_forall in Hb. apply Hb. apply list_elem_of_In. exact Hst.
    + apply deliver_raises; assumption.
  - pose proof (Forall_lookup_1 _ _ _ _ Hall Hi) as Hst. cbv beta in Hst.
    rewrite Hsi in Hst. contradiction.
Qed.

Lemma no_procs_reachable {R : Type} (x : exn) (init : list (pstate R)) :
  Forall (fun st => raises_after_bcast x (st_code st)) init ->
  forall cfg,
    steps init cfg ->
    Forall (fun st => raises_after_bcast x (st_code st)) cfg
    \/ Forall (fun st => st_code st = Raise x) cfg.
Proof.
  intros Hinit. apply steps_invariant; [left; exact Hinit|].
  intros c c' [Hc | Hc] Hstep.
  - destruct (step_before_bcast x c c' Hc Hstep) as [H | [_ H]]; [left | right];
      exact H.
  - exfalso. apply (all_raised_nf c); [|eauto].
    eapply Forall_impl; [exact Hc|]. intros st Hst. unfold raised.
    rewrite Hst. reflexivity.
Qed.

Lemma multiply_no_procs (size rank : Z) :
  0 <= size ->
  raises_after_bcast ZeroDivisionError (mpi_matrix_multiply size rank 0).
Proof.
  intros Hs. unfold mpi_matrix_multiply, initialize_matrices.
  destruct (rank =? 0); simpl; repeat split; try assumption; reflexivity.
Qed.

Lemma load_no_procs (size : Z) (sts : list (rng * list message)) :
  0 <= size ->
  forall p : nat,
    Forall (fun st => raises_after_bcast ZeroDivisionError (st_code st))
      (load (fun r => mpi_matrix_multiply size r 0) p sts).
Proof.
  intros Hs. induction sts as [|[g o] sts IH]; intros p; simpl; constructor.
  - simpl. apply multiply_no_procs. exact Hs.
  - apply IH.
Qed.

(** A process that has not reached the broadcast draws until it calls it. *)
Lemma runs_to_bcast {R : Type} (x : exn) (rest : list (pstate R)) (p : proc R) :
  raises_after_bcast x p ->
  forall g out,
    exists g' v k,
      steps (PState g out p :: rest) (PState g' out (Bcast v k) :: rest)
      /\ forall w, k w = Raise x.
Proof.
  induction p as [| | s p IH | r c k IH | v k _ | | |]; simpl;
    try contradiction; intros Hp g out.
  - destruct (IH Hp (rng_seed s) out) as (g' & v & k & Hrun & Hk).
    exists g', v, k. split; [|exact Hk].
    eapply steps_step; [|exact Hrun]. apply step_first. reflexivity.
  - destruct Hp as (Hr & Hc & Hp).
    destruct (np_random_rand_ok g r c Hr Hc) as (M & g1 & HM & _).
    destruct (IH M (Hp M) g1 out) as (g' & v & k' & Hrun & Hk).
    exists g', v, k'. split; [|exact Hk].
    eapply steps_step; [|exact Hrun]. apply step_first.
    unfold local_step. simpl. rewrite HM. reflexivity.
  - exists g, v, k. split; [apply steps_refl | exact Hp].
Qed.

Lemma no_procs_run (size : Z) (g0 : rng) (sts : list (rng * list message)) :
  0 <= size ->
  let code := fun r => mpi_matrix_multiply size r 0 in
  exists mid final,
    steps (PState g0 [] (code 0) :: load code 1 sts) mid
    /\ Forall (fun st => at_bcast st = true) mid
    /\ step mid final
    /\ completes (PState g0 [] (code 0) :: load code 1 sts) final
    /\ length final = S (length sts)
    /\ Forall (fun st => st_code st = Raise ZeroDivisionError) final.
Proof.
  intros Hs code.
  destruct (runs_to_bcast ZeroDivisionError (load code 1 sts) (code 0)
              (multiply_no_procs size 0 Hs) g0 [])
    as (g' & v & k & Hrun & Hk).
  set (mid := PState g' [] (Bcast v k) :: load code 1 sts) in *.
  assert (Forall (fun st => raises_after_bcast ZeroDivisionError (st_code st)) mid)
    as Hmid.
  { constructor; [exact Hk | apply load_no_procs; exact Hs]. }
  assert (Forall (fun st : pstate (option matrix) => at_bcast st = true) mid)
    as Hb.
  { constructor; [reflexivity|].
    eapply Forall_impl; [exact (workers_wait size 0 sts 1 (le_n 1))|].
    intros st [k0 Hk0]. unfold at_bcast. rewrite Hk0. reflexivity. }
  assert (forallb at_bcast mid = true) as Hb'.
  { apply forallb_forall. intros st Hst. apply list_elem_of_In in Hst.
    rewrite Forall_forall in Hb. exact (Hb st Hst). }
  assert (step mid (map (deliver v) mid)) as Hstep.
  { eapply step_bcast; [reflexivity | reflexivity | exact Hb']. }
  pose proof (deliver_raises ZeroDivisionError v mid Hmid Hb') as Hfinal.
  exists mid, (map (deliver v) mid).
  split; [exact Hrun|]. split; [exact Hb|]. split; [exact Hstep|].
  split; [|split; [|exact Hfinal]].
  - apply completes_nf.
    + eapply steps_trans; [exact Hrun|].
      eapply steps_step; [exact Hstep | apply steps_refl].
    + apply all_raised_nf. eapply Forall_impl; [exact Hfinal|].
      intros st Hst. unfold raised. rewrite Hst. reflexivity.
  - rewrite length_map. unfold mid. simpl. rewrite load_length. reflexivity.
Qed.

End Degenerate.

(** C6, as the code has it.  With a negative size the root raises
    [ValueError] at its first draw, before it calls the transport, whatever
    the number of processes; the other ranks do not see the error: each has
    called the broadcast and stays there in every run, so it neither raises
    nor returns.  When 0 is passed as the number of processes (and the size
    is not negative) every rank raises [ZeroDivisionError], in every run by
    the step that completes the broadcast and not before.  In both cases no
    rank ever reaches a send or a receive. *)
Theorem degenerate_configuration `{Num : Scalar} `{RS : !RandomState}
    (size num_procs : Z) (g0 : rng) (gt : list rng) :
  size < 0 \/ num_procs = 0 ->
  let code := fun r => mpi_matrix_multiply size r num_procs in
  let init := spawn code (g0 :: gt) in
  let others := load code 1 (map (fun g => (g, [])) gt) in
  (forall cfg, steps init cfg -> Forall (fun st => at_transfer st = false) cfg)
  /\ (size < 0 ->
      (forall e g,
          interp 0 e g (code 0) = Result [] (inl ValueError) (rng_seed 42))
      /\ Forall (fun st => exists k, st_code st = Bcast None k) others
      /\ (forall cfg,
            steps init cfg ->
            exists root,
              cfg = root :: others
              /\ at_comm root = false
              /\ (raised root = true ->
                  root = PState (rng_seed 42) [] (Raise ValueError)))
      /\ completes init (PState (rng_seed 42) [] (Raise ValueError) :: others))
  /\ (0 <= size ->
      (forall cfg cfg',
          steps init cfg -> step cfg cfg' ->
          Exists (fun st => raised st = true) cfg' ->
          Forall (fun st => at_bcast st = true) cfg
          /\ Forall (fun st => st_code st = Raise ZeroDivisionError) cfg')
      /\ exists mid final,
           steps init mid
           /\ Forall (fun st => at_bcast st = true) mid
           /\ step mid final
           /\ completes init final
           /\ length final = S (length gt)
           /\ Forall (fun st => st_code st = Raise ZeroDivisionError) final).
Proof.
  intros Hdeg code init others.
  assert (init = PState g0 [] (code 0) :: others) as Hinit by reflexivity.
  assert (size < 0 ->
          Forall (fun st : pstate (option matrix) =>
                    exists k, st_code st = Bcast None k) others) as Hwait.
  { intros _. apply workers_wait. lia. }
  assert (exists k, code 0 = Seed 42 (Rand size size k)) as [k0 Hcode]
    by (eexists; reflexivity).
  assert (0 <= size ->
          num_procs = 0
          /\ Forall (fun st => raises_after_bcast ZeroDivisionError (st_code st))
               init) as Hzero.
  { intros Hs. destruct Hdeg as [? | Hn]; [lia|]. split; [exact Hn|].
    rewrite Hinit. unfold others, code. rewrite Hn.
    constructor; [apply multiply_no_procs; exact Hs|].
    apply load_no_procs. exact Hs. }
  split; [|split].
  - intros cfg Hrun. destruct (Z.lt_ge_cases size 0) as [Hneg | Hs].
    + rewrite Hinit, Hcode in Hrun.
      destruct (negative_size_reachable size Hneg others (Hwait Hneg) g0 k0 cfg Hrun)
        as (root & -> & Hroot & _).
      constructor.
      * unfold at_comm in Hroot. apply orb_false_elim in Hroot. tauto.
      * eapply Forall_impl; [exact (Hwait Hneg)|].
        intros st [k Hk]. unfold at_transfer. rewrite Hk. reflexivity.
    + destruct (Hzero Hs) as [_ Hall].
      destruct (no_procs_reachable ZeroDivisionError init Hall cfg Hrun) as [H | H].
      * eapply Forall_impl; [exact H|]. intros st Hst.
        exact (proj1 (raises_after_bcast_quiet _ st Hst)).
      * eapply Forall_impl; [exact H|]. intros st Hst.
        unfold at_transfer. rewrite Hst. reflexivity.
  - intros Hneg. split; [|split; [exact (Hwait Hneg)|split]].
    + intros e g. apply root_call_negative. exact Hneg.
    + intros cfg Hrun. rewrite Hinit, Hcode in Hrun.
      exact (negative_size_reachable size Hneg others (Hwait Hneg) g0 k0 cfg Hrun).
    + rewrite Hinit, Hcode.
      exact (negative_size_run size Hneg others (Hwait Hneg) g0 k0).
  - intros Hs. destruct (Hzero Hs) as [Hn Hall]. split.
    + intros cfg cfg' Hrun Hstep Hraised.
      destruct (no_procs_reachable ZeroDivisionError init Hall cfg Hrun) as [H | H].
      * destruct (step_before_bcast ZeroDivisionError cfg cfg' H Hstep)
          as [H' | H']; [|exact H'].
        exfalso. apply Exists_exists in Hraised as (st & Hin & Hst).
        rewrite Forall_forall in H'.
        destruct (raises_after_bcast_quiet _ st (H' st Hin)) as [_ Hq].
        congruence.
      * exfalso. apply (all_raised_nf cfg); [|eauto].
        eapply Forall_impl; [exact H|]. intros st Hst. unfold raised.
        rewrite Hst. reflexivity.
    + rewrite Hinit. unfold others, code. rewrite Hn.
      destruct (no_procs_run size g0 (map (fun g : rng => (g, [])) gt) Hs)
        as (mid & final & H1 & H2 & H3 & H4 & H5 & H6).
      exists mid, final. rewrite length_map in H5. tauto.
Qed.

Lemma degenerate_configuration_witness :
  (-1 < 0 \/ 2 = 0) /\ (4 < 0 \/ 0 = 0)
  /\ (forall cfg,
        steps (@spawn Float64.scalar Float64.lcg _
                 (fun r => mpi_matrix_multiply (-1) r 2) [4; 5]) cfg ->
        exists root,
          cfg = root :: @load Float64.scalar Float64.lcg _
                          (fun r => mpi_matrix_multiply (-1) r 2) 1 [(5, [])]
          /\ at_comm root = false
          /\ (raised root = true ->
              root = PState (rng_seed 42) [] (Raise ValueError)))
  /\ completes (@spawn Float64.scalar Float64.lcg _
                  (fun r => mpi_matrix_multiply (-1) r 2) [4; 5])
       (PState (rng_seed 42) [] (Raise ValueError)
          :: @load Float64.scalar Float64.lcg _
               (fun r => mpi_matrix_multiply (-1) r 2) 1 [(5, [])])
  /\ exists mid final,
       steps (@spawn Float64.scalar Float64.lcg _
                (fun r => mpi_matrix_multiply 4 r 0) [7; 8]) mid
       /\ Forall (fun st => at_bcast st = true) mid
       /\ step mid final
       /\ completes (@spawn Float64.scalar Float64.lcg _
                       (fun r => mpi_matrix_multiply 4 r 0) [7; 8]) final
       /\ length final = 2%nat
       /\ Forall (fun st => st_code st = Raise ZeroDivisionError) final.
Proof.
  split; [left; lia|]. split; [right; reflexivity|].
  destruct (@degenerate_configuration Float64.scalar Float64.lcg (-1) 2 4 [5])
    as (_ & Hneg & _); [left; lia|].
  destruct Hneg as (_ & _ & Hreach & Hrun); [lia|].
  split; [exact Hreach|]. split; [exact Hrun|].
  destruct (@degenerate_configuration Float64.scalar Float64.lcg 4 0 7 [8])
    as (_ & _ & Hzero); [right; reflexivity|].
  destruct Hzero as [_ Hzero]; [lia|]. exact Hzero.
Defined.

Lemma Forall_existsb_false {X : Type} (f : X -> bool) (l : list X) :
  Forall (fun x => f x = false) l -> existsb f l = false.
Proof.
  induction 1 as [|x l Hx _ IH]; simpl; [reflexivity|]. rewrite Hx. exact IH.
Qed.

(** C6 as stated fails.  In a group of two ranks with the size -1 the rank 1
    has called the broadcast, and never gets an error; with 0 passed as the
    number of processes the root has called the broadcast before it
    raises. *)
Lemma error_after_broadcast :
  ~ fails_before_communication
      (@spawn Float64.scalar Float64.lcg _
         (fun r => mpi_matrix_multiply (-1) r 2) [4; 5])
  /\ ~ (exists final,
          completes (@spawn Float64.scalar Float64.lcg _
                       (fun r => mpi_matrix_multiply (-1) r 2) [4; 5]) final
          /\ Forall (fun st => raised st = true) final)
  /\ ~ fails_before_communication
         (@spawn Float64.scalar Float64.lcg _
            (fun r => mpi_matrix_multiply 4 r 0) [7]).
Proof.
  split; [|split].
  - intros (final & _ & _ & H).
    specialize (H _ (steps_refl _)). apply Forall_existsb_false in H.
    vm_compute in H. discriminate H.
  - intros (final & Hfinal & Hraised).
    assert (completes (@spawn Float64.scalar Float64.lcg _
                         (fun r => mpi_matrix_multiply (-1) r 2) [4; 5])
              (PState (rng_seed 42) [] (Raise ValueError)
                 :: @load Float64.scalar Float64.lcg _
                      (fun r => mpi_matrix_multiply (-1) r 2) 1 [(5, [])]))
      as Hrun.
    { refine (@negative_size_run Float64.scalar Float64.lcg (-1) _ _ _ 4 _);
        [lia|].
      exact (@workers_wait Float64.scalar Float64.lcg (-1) 2 [(5, [])] 1
               (le_n 1)). }
    rewrite (completes_unique _ _ _ Hfinal Hrun) in Hraised.
    apply Forall_cons in Hraised as [_ Hraised].
    apply Forall_cons in Hraised as [Hraised _].
    vm_compute in Hraised. discriminate Hraised.
  - intros (final & _ & _ & H).
    specialize (H _ (run_sound 3 _)). apply Forall_existsb_false in H.
    vm_compute in H. discriminate H.
Qed.

(** C7. With fewer rows than processes, each of the last
    [num_procs - size] ranks has the empty range that starts at [size]; its
    call takes part in the broadcast, makes no send and no receive and ends
    without an error, its block of [A] and its local product being arrays
    without rows; the root neither sends to it nor receives from it, whatever
    the transport delivers; and the matrix the root returns when the group
    runs has [size] rows. *)
Theorem empty_ranges `{Num : Scalar} `{RS : !RandomState}
    (size num_procs r : Z) (e : env) (g : rng) (gs : list rng) :
  0 <= size < num_procs -> size <= r < num_procs ->
  Z.of_nat (length gs) = num_procs ->
  row_range size num_procs r = (0, size)
  /\ (let res := interp r e g (mpi_matrix_multiply size r num_procs) in
      events res = [EvBcast]
      /\ (exists v, outcome res = inr v)
      /\ (r <> 0 -> res = Result [EvBcast] (inr None) g))
  /\ (r <> 0 ->
      interp r e g (distribute_matrix_rows None size r num_procs)
      = Result [] (inr (Matrix size [], 0, size)) g
      /\ np_zeros 0 size = inr (Matrix size []))
  /\ (forall e0 g0 t,
        let root := events (interp 0 e0 g0 (mpi_matrix_multiply size 0 num_procs)) in
        ~ In (r, t) (sends root) /\ ~ In (r, t) (recvs root))
  /\ (exists C cfg,
        completes (spawn (fun k => mpi_matrix_multiply size k num_procs) gs) cfg
        /\ results cfg = Some (Some C) :: replicate (length gs - 1) (Some None)
        /\ nrows C = size).
Proof.
  intros Hs Hr Hlen.
  assert (0 <= size) as Hs0 by lia. assert (1 <= num_procs) as Hn by lia.
  assert (row_range size num_procs r = (0, size)) as Hrange.
  { rewrite row_range_high.
    - rewrite Z.div_small, Z.mod_small by lia. f_equal. lia.
    - rewrite Z.mod_small by lia. lia. }
  assert (local_rows_of size num_procs r = 0) as Hrows
    by (unfold local_rows_of; rewrite Hrange; reflexivity).
  split; [exact Hrange|]. split; [|split; [|split]].
  - destruct (Z.eq_dec r 0) as [-> | Hne].
    + assert (size = 0) as Hzero by lia.
      assert (forall p, 0 <= p -> local_rows_of size num_procs p = 0) as Hall.
      { intros p Hp. unfold local_rows_of, row_range. rewrite Hzero.
        rewrite Z.div_0_l, Z.mod_0_l by lia.
        destruct (Z.ltb_spec p 0); [lia | reflexivity]. }
      assert (delivers_blocks e size num_procs) as Hblocks.
      { intros p Hp Hpos. rewrite Hall in Hpos by lia. lia. }
      assert (nonempty_ranks size num_procs (py_range 1 num_procs) = []) as Hnone.
      { destruct (nonempty_ranks size num_procs (py_range 1 num_procs))
          as [|p l] eqn:Hl; [reflexivity|].
        assert (In p (nonempty_ranks size num_procs (py_range 1 num_procs))) as Hin
          by (rewrite Hl; left; reflexivity).
        apply in_nonempty_ranks in Hin. rewrite Hall in Hin by lia. lia. }
      destruct (root_call_shaped size num_procs Hs0 Hn e g Hblocks)
        as (A & B & g2 & C & _ & Hcall & _).
      rewrite Hcall. unfold scatter_events, gather_events. rewrite Hnone. simpl.
      split; [reflexivity|]. split; [eauto | tauto].
    + rewrite worker_call by assumption. rewrite Hrows. simpl.
      split; [reflexivity|]. split; [eauto | reflexivity].
  - intros Hne. split; [|rewrite np_zeros_ok by lia; reflexivity].
    rewrite interp_distribute_worker by (try assumption; lia).
    rewrite Hrows. unfold start_row_of. rewrite Hrange. reflexivity.
  - intros e0 g0 t root.
    destruct (root_tags size num_procs Hs0 Hn e0 g0) as [Hsends Hrecvs].
    fold root in Hsends, Hrecvs.
    split; intros Hin; [apply Hsends in Hin | apply Hrecvs in Hin]; lia.
  - destruct (group_run size num_procs gs Hs0 Hn Hlen)
      as (A & B & g2 & P & cfg & _ & _ & [HPr _] & Hrun & Hres).
    exists P, cfg. auto.
Qed.

Lemma empty_ranges_witness :
  0 <= 2 < 4 /\ 2 <= 3 < 4 /\ Z.of_nat (length [1; 2; 3; 4]) = 4
  /\ row_range 2 4 3 = (0, 2)
  /\ (exists C cfg,
        completes (@spawn Float64.scalar Float64.lcg _
                 (fun k => mpi_matrix_multiply 2 k 4) [1; 2; 3; 4]) cfg
        /\ results cfg = Some (Some C) :: replicate 3 (Some None)
        /\ nrows C = 2).
Proof.
  split; [lia|]. split; [lia|]. split; [reflexivity|].
  destruct (@empty_ranges Float64.scalar Float64.lcg 2 4 3
              (Env None (fun _ _ => Matrix 2 [])) 0 [1; 2; 3; 4])
    as (Hrange & _ & _ & _ & Hrun); [lia | lia | reflexivity |].
  split; [exact Hrange | exact Hrun].
Defined.

(** C8. A single process is assigned all the rows, calls the broadcast and
    makes no send and no receive, and returns the product [np.dot(A, B)] of
    the matrices it drew; the group of that one process runs to the same
    result. *)
Theorem single_process `{Num : Scalar} `{RS : !RandomState}
    (size : Z) (e : env) (g g0 : rng) :
  0 <= size ->
  exists A B g2 P,
    root_matrices size = inr (A, B, g2)
    /\ np_dot A B = inr P
    /\ row_range size 1 0 = (size, 0)
    /\ interp 0 e g (mpi_matrix_multiply size 0 1)
       = Result [EvBcast] (inr (Some P)) g2
    /\ exists cfg,
         completes (spawn (fun r => mpi_matrix_multiply size r 1) [g0]) cfg
         /\ results cfg = [Some (Some P)].
Proof.
  intros Hs.
  destruct (group_run size 1 [g0] Hs) as (A & B & g2 & P & cfg & Hm & HP & [HPr HPc] & Hrun & Hres);
    [lia | reflexivity |].
  exists A, B, g2, P. split; [exact Hm|]. split; [exact HP|].
  split; [|split].
  - unfold row_range. rewrite Z.div_1_r, Z.mod_1_r. simpl. reflexivity.
  - rewrite (root_call size 1 Hs ltac:(lia) e g A B P g2 Hm HP).
    rewrite (py_range_nil 1 1) by lia. unfold gather_loop. simpl.
    rewrite (start_row_end size 1) by lia.
    rewrite assembled_full by assumption. reflexivity.
  - exists cfg. split; [exact Hrun | exact Hres].
Qed.

Lemma single_process_witness :
  0 <= 3
  /\ exists A B g2 P,
       @root_matrices Float64.scalar Float64.lcg 3 = inr (A, B, g2)
       /\ np_dot A B = inr P
       /\ row_range 3 1 0 = (3, 0)
       /\ @interp Float64.scalar Float64.lcg _ 0
            (Env None (fun _ _ => Matrix 3 [])) 7 (mpi_matrix_multiply 3 0 1)
          = Result [EvBcast] (inr (Some P)) g2
       /\ exists cfg,
            completes (@spawn Float64.scalar Float64.lcg _
                     (fun r => mpi_matrix_multiply 3 r 1) [9]) cfg
            /\ results cfg = [Some (Some P)].
Proof.
  split; [lia|].
  apply (@single_process Float64.scalar Float64.lcg 3
           (Env None (fun _ _ => Matrix 3 [])) 7 9).
  lia.
Defined.

(** C10. [mpi_matrix_multiply] takes no matrix: the root seeds the generator
    with 42 and draws [A] and [B] itself.  Whatever the state of the
    generator at the call, [initialize_matrices] yields the same two
    matrices and the call of the root is the same; every other rank returns
    [None]; and two runs of a group of the same size with the same matrix
    size end with the same matrix on the root and [None] elsewhere. *)
Theorem root_output_deterministic `{Num : Scalar} `{RS : !RandomState}
    (size num_procs : Z) (gs1 gs2 : list rng) :
  0 <= size -> 1 <= num_procs ->
  Z.of_nat (length gs1) = num_procs -> Z.of_nat (length gs2) = num_procs ->
  (exists A B g',
      root_matrices size = inr (A, B, g')
      /\ forall me e g,
           interp me e g (initialize_matrices size 0)
           = Result [] (inr (Some A, Some B)) g')
  /\ (forall e g1 g2,
        interp 0 e g1 (mpi_matrix_multiply size 0 num_procs)
        = interp 0 e g2 (mpi_matrix_multiply size 0 num_procs))
  /\ (forall rank e g v,
        rank <> 0 ->
        outcome (interp rank e g (mpi_matrix_multiply size rank num_procs)) = inr v ->
        v = None)
  /\ (exists C cfg1 cfg2,
        completes (spawn (fun r => mpi_matrix_multiply size r num_procs) gs1) cfg1
        /\ completes (spawn (fun r => mpi_matrix_multiply size r num_procs) gs2) cfg2
        /\ results cfg1 = Some (Some C) :: replicate (length gs1 - 1) (Some None)
        /\ results cfg2 = results cfg1).
Proof.
  intros Hs Hn Hlen1 Hlen2.
  split; [|split; [|split]].
  - destruct (root_matrices_ok size Hs) as (A & B & g' & Hm & _).
    exists A, B, g'. split; [exact Hm|].
    intros me e g. apply interp_initialize_root. exact Hm.
  - intros e g1 g2. apply root_call_reseeds.
  - intros rank e g v Hrank Hout.
    rewrite worker_call in Hout by assumption.
    destruct (local_rows_of size num_procs rank >? 0).
    + destruct (dot_obj (recv_in e 0 rank) (bcast_in e)); simpl in Hout; congruence.
    + simpl in Hout. congruence.
  - destruct (group_run size num_procs gs1 Hs Hn Hlen1)
      as (A & B & g2 & P & cfg1 & Hm & HP & _ & Hrun1 & Hres1).
    destruct (group_run size num_procs gs2 Hs Hn Hlen2)
      as (A' & B' & g2' & P' & cfg2 & Hm' & HP' & _ & Hrun2 & Hres2).
    rewrite Hm in Hm'. injection Hm' as <- <- <-.
    rewrite HP in HP'. injection HP' as <-.
    exists P, cfg1, cfg2. split; [exact Hrun1|]. split; [exact Hrun2|].
    split; [exact Hres1|]. rewrite Hres1, Hres2.
    replace (length gs2) with (length gs1) by lia. reflexivity.
Qed.

Lemma root_output_deterministic_witness :
  0 <= 3 /\ 1 <= 2 /\ Z.of_nat (length [5; 6]) = 2 /\ Z.of_nat (length [70; 80]) = 2
  /\ (exists C cfg1 cfg2,
        completes (@spawn Float64.scalar Float64.lcg _
                 (fun r => mpi_matrix_multiply 3 r 2) [5; 6]) cfg1
        /\ completes (@spawn Float64.scalar Float64.lcg _
                    (fun r => mpi_matrix_multiply 3 r 2) [70; 80]) cfg2
        /\ results cfg1 = Some (Some C) :: replicate 1 (Some None)
        /\ results cfg2 = results cfg1).
Proof.
  split; [lia|]. split; [lia|]. split; [reflexivity|]. split; [reflexivity|].
  apply (@root_output_deterministic Float64.scalar Float64.lcg 3 2 [5; 6] [70; 80]);
    [lia | lia | reflexivity | reflexivity].
Defined.

Lemma out_of_spawned `{Num : Scalar} `{RS : !RandomState} {R : Type}
    (f : Z -> proc R) (gs : list rng) :
  forall p : nat,
    map st_out (load f p (map (fun g => (g, [])) gs)) = replicate (length gs) [].
Proof.
  induction gs as [|g gs IH]; intros p; simpl; [reflexivity|].
  rewrite IH. reflexivity.
Qed.

(** ** Tolerance and maximum on binary64 numbers *)

Lemma tol_rounds : Float64.rounds 1 (10 ^ 10) Float64.tol.
Proof. vm_compute. split; intros H; discriminate H. Qed.

Section Order.

Lemma SFleb_trans (f1 f2 f3 : spec_float) :
  SFleb f1 f2 = true -> SFleb f2 f3 = true -> SFleb f1 f3 = true.
Proof.
  unfold SFleb, SFcompare.
  destruct f1 as [s1 | s1 | | s1 m1 e1], f2 as [s2 | s2 | | s2 m2 e2],
           f3 as [s3 | s3 | | s3 m3 e3];
    try destruct s1; try destruct s2; try destruct s3; simpl;
    try congruence; try reflexivity;
    repeat match goal with
           | |- context [Z.compare ?a ?b] => destruct (Z.compare_spec a b)
           end;
    repeat match goal with
           | |- context [Pos.compare_cont Eq ?a ?b] =>
               change (Pos.compare_cont Eq a b) with (Pos.compare a b);
               destruct (Pos.compare_spec a b)
           end;
    simpl; try congruence; try reflexivity; try lia.
Qed.

Lemma SFcompare_refl (f : spec_float) :
  f <> S754_nan -> SFcompare f f = Some Eq.
Proof.
  destruct f as [s | s | | s m e]; intros Hf; simpl;
    try destruct s; try reflexivity; try congruence;
    rewrite Z.compare_refl;
    change (Pos.compare_cont Eq m m) with (Pos.compare m m);
    rewrite Pos.compare_refl; reflexivity.
Qed.

Lemma SFcompare_total (f1 f2 : spec_float) :
  f1 <> S754_nan -> f2 <> S754_nan ->
  SFltb f1 f2 = false -> SFleb f2 f1 = true.
Proof.
  unfold SFltb, SFleb, SFcompare.
  destruct f1 as [s1 | s1 | | s1 m1 e1], f2 as [s2 | s2 | | s2 m2 e2];
    intros H1 H2; try congruence;
    try destruct s1; try destruct s2; simpl; try congruence; try reflexivity;
    rewrite (Z.compare_antisym e1 e2);
    change (Pos.compare_cont Eq m2 m1) with (Pos.compare m2 m1);
    change (Pos.compare_cont Eq m1 m2) with (Pos.compare m1 m2);
    rewrite (Pos.compare_antisym m1 m2);
    destruct (e1 ?= e2); simpl; try congruence; try reflexivity;
    destruct (m1 ?= m2)%positive; simpl; try congruence; reflexivity.
Qed.

Lemma is_nan_spec (x : float) :
  PrimFloat.is_nan x = true <-> Prim2SF x = S754_nan.
Proof.
  unfold PrimFloat.is_nan. rewrite FloatAxioms.eqb_spec. unfold SFeqb.
  split.
  - intros H. destruct (Prim2SF x) as [s | s | | s m e] eqn:Hx; [| |reflexivity|];
      rewrite SFcompare_refl in H by congruence; discriminate.
  - intros ->. reflexivity.
Qed.

Lemma not_nan_spec (x : float) :
  PrimFloat.is_nan x = false <-> Prim2SF x <> S754_nan.
Proof.
  rewrite <- is_nan_spec. destruct (PrimFloat.is_nan x); split; congruence.
Qed.

Lemma leb_refl (x : float) : PrimFloat.is_nan x = false -> PrimFloat.leb x x = true.
Proof.
  intros Hx. apply not_nan_spec in Hx.
  rewrite FloatAxioms.leb_spec. unfold SFleb. rewrite SFcompare_refl by exact Hx.
  reflexivity.
Qed.

Lemma leb_trans (x y z : float) :
  PrimFloat.leb x y = true -> PrimFloat.leb y z = true -> PrimFloat.leb x z = true.
Proof. rewrite !FloatAxioms.leb_spec. apply SFleb_trans. Qed.

Lemma ltb_leb (x y : float) : PrimFloat.ltb x y = true -> PrimFloat.leb x y = true.
Proof.
  rewrite FloatAxioms.ltb_spec, FloatAxioms.leb_spec. unfold SFltb, SFleb.
  destruct (SFcompare (Prim2SF x) (Prim2SF y)) as [[| |]|]; congruence.
Qed.

Lemma not_ltb_leb (x y : float) :
  PrimFloat.is_nan x = false -> PrimFloat.is_nan y = false ->
  PrimFloat.ltb x y = false -> PrimFloat.leb y x = true.
Proof.
  intros Hx Hy. apply not_nan_spec in Hx, Hy.
  rewrite FloatAxioms.ltb_spec, FloatAxioms.leb_spec.
  apply SFcompare_total; assumption.
Qed.

(** [np.max] over a list, folded from the left. *)
Lemma fold_fmax64 (ds : list float) :
  forall d0 : float,
    let d := fold_left Float64.fmax64 ds d0 in
    In d (d0 :: ds)
    /\ forall v, In v (d0 :: ds) ->
         (PrimFloat.is_nan v = true -> PrimFloat.is_nan d = true)
         /\ (PrimFloat.is_nan d = false -> PrimFloat.leb v d = true).
Proof.
  induction ds as [|y ds IH]; intros d0; simpl.
  - split; [left; reflexivity|].
    intros v [<- | []]. split; [tauto | apply leb_refl].
  - destruct (IH (Float64.fmax64 d0 y)) as [Hin Hmax]. simpl in Hin, Hmax.
    set (d := fold_left Float64.fmax64 ds (Float64.fmax64 d0 y)) in *.
    assert (Float64.fmax64 d0 y = d0 \/ Float64.fmax64 d0 y = y) as Hcase.
    { unfold Float64.fmax64.
      destruct (PrimFloat.is_nan d0); [tauto|].
      destruct (PrimFloat.is_nan y); [tauto|].
      destruct (PrimFloat.ltb d0 y); tauto. }
    assert (forall v, v = d0 \/ v = y ->
              (PrimFloat.is_nan v = true ->
               PrimFloat.is_nan (Float64.fmax64 d0 y) = true)
              /\ (PrimFloat.is_nan (Float64.fmax64 d0 y) = false ->
                  PrimFloat.leb v (Float64.fmax64 d0 y) = true)) as Hstep.
    { intros v Hv. unfold Float64.fmax64.
      destruct (PrimFloat.is_nan d0) eqn:H0.
      - rewrite H0. split; [tauto | discriminate].
      - destruct (PrimFloat.is_nan y) eqn:Hy.
        + rewrite Hy. split; [tauto | discriminate].
        + destruct (PrimFloat.ltb d0 y) eqn:Hlt.
          * rewrite Hy. split; [destruct Hv; subst; congruence|].
            intros _. destruct Hv as [-> | ->];
              [apply ltb_leb; exact Hlt | apply leb_refl; exact Hy].
          * rewrite H0. split; [destruct Hv; subst; congruence|].
            intros _. destruct Hv as [-> | ->];
              [apply leb_refl; exact H0 | apply not_ltb_leb; assumption]. }
    split.
    + destruct Hin as [Hin | Hin]; [|tauto].
      rewrite <- Hin. destruct Hcase as [-> | ->]; tauto.
    + intros v [Hv | [Hv | Hv]].
      * destruct (Hstep v (or_introl (eq_sym Hv))) as [Hn Hl].
        destruct (Hmax _ (or_introl eq_refl)) as [Hn' Hl'].
        split; [tauto|]. intros Hd.
        assert (PrimFloat.is_nan (Float64.fmax64 d0 y) = false) as Hm.
        { destruct (PrimFloat.is_nan (Float64.fmax64 d0 y)) eqn:E; [|reflexivity].
          rewrite Hn' in Hd by reflexivity. discriminate. }
        eapply leb_trans; [apply Hl; exact Hm | apply Hl'; exact Hd].
      * destruct (Hstep v (or_intror (eq_sym Hv))) as [Hn Hl].
        destruct (Hmax _ (or_introl eq_refl)) as [Hn' Hl'].
        split; [tauto|]. intros Hd.
        assert (PrimFloat.is_nan (Float64.fmax64 d0 y) = false) as Hm.
        { destruct (PrimFloat.is_nan (Float64.fmax64 d0 y)) eqn:E; [|reflexivity].
          rewrite Hn' in Hd by reflexivity. discriminate. }
        eapply leb_trans; [apply Hl; exact Hm | apply Hl'; exact Hd].
      * apply Hmax. right. exact Hv.
Qed.

End Order.

Section Elementwise.
Context `{Num : Scalar}.

Lemma in_zip {X Y : Type} (l : list X) (k : list Y) (x : X) (y : Y) :
  In (x, y) (zip l k) <-> exists j : nat, l !! j = Some x /\ k !! j = Some y.
Proof.
  rewrite <- list_elem_of_In, list_elem_of_lookup. split.
  - intros [j Hj]. apply lookup_zip_with_Some in Hj as (a & b & [= -> ->] & Ha & Hb).
    eauto.
  - intros (j & Hx & Hy). exists j. apply lookup_zip_with_Some. eauto.
Qed.

(** The elements an elementwise operation of two arrays works on. *)
Lemma in_elementwise {V : Type} (f : elt -> elt -> V) (a b : matrix) (v : V) :
  In v (concat (map (fun rr => map (fun xy => f (fst xy) (snd xy))
                                 (zip (fst rr) (snd rr)))
                  (zip (mrows a) (mrows b))))
  <-> exists x y, at_same_place a b x y /\ v = f x y.
Proof.
  rewrite in_concat. split.
  - intros (l & Hl & Hv). apply in_map_iff in Hl as ([ra rb] & <- & Hrr).
    apply in_map_iff in Hv as ([x y] & <- & Hxy). simpl in *.
    apply in_zip in Hrr as (i & Ha & Hb). apply in_zip in Hxy as (j & Hx & Hy).
    exists x, y. split; [|reflexivity]. exists i, j, ra, rb. auto.
  - intros (x & y & (i & j & ra & rb & Ha & Hb & Hx & Hy) & ->).
    exists (map (fun xy => f (fst xy) (snd xy)) (zip ra rb)). split.
    + apply in_map_iff. exists (ra, rb). split; [reflexivity|].
      apply in_zip. eauto.
    + apply in_map_iff. exists (x, y). split; [reflexivity|].
      apply in_zip. eauto.
Qed.

Lemma np_allclose_elementwise (a b : matrix) (c : bool) :
  np_allclose a b = inr c ->
  (c = true <-> forall x y, at_same_place a b x y -> isclose x y = true).
Proof.
  unfold np_allclose. destruct (same_shape a b); [|discriminate].
  intros [= <-]. rewrite forallb_forall. split.
  - intros Hall x y (i & j & ra & rb & Ha & Hb & Hx & Hy).
    assert (In (ra, rb) (zip (mrows a) (mrows b))) as Hrr by (apply in_zip; eauto).
    specialize (Hall _ Hrr). rewrite forallb_forall in Hall.
    apply (Hall (x, y)). apply in_zip. eauto.
  - intros Hall [ra rb] Hrr. apply forallb_forall. intros [x y] Hxy. simpl in *.
    apply in_zip in Hrr as (i & Ha & Hb). apply in_zip in Hxy as (j & Hx & Hy).
    apply Hall. exists i, j, ra, rb. auto.
Qed.

Lemma np_max_abs_diff_fold (a b : matrix) (d : elt) :
  np_max_abs_diff a b = inr d ->
  exists d0 ds,
    d = fold_left fmax ds d0
    /\ forall v, In v (d0 :: ds)
                 <-> exists x y, at_same_place a b x y /\ v = abs (sub x y).
Proof.
  unfold np_max_abs_diff. destruct (same_shape a b); [|discriminate].
  pose proof (in_elementwise (fun x y => abs (sub x y)) a b) as Hin.
  destruct (concat _) as [|d0 ds]; [discriminate|].
  intros [= <-]. exists d0, ds. split; [reflexivity | exact Hin].
Qed.

End Elementwise.

Lemma isclose64_tolerance (x y : float) :
  Float64.isclose64 x y = true <-> Float64.within_tolerance Float64.tol Float64.tol x y.
Proof.
  unfold Float64.isclose64, Float64.within_tolerance.
  destruct (Float64.is_finite x && Float64.is_finite y); reflexivity.
Qed.

Lemma np_max_abs_diff_maximum (a b : @matrix Float64.scalar) (d : float) :
  np_max_abs_diff a b = inr d ->
  Float64.is_maximum
    (fun v => exists x y, at_same_place a b x y /\ v = PrimFloat.abs (x - y)%float) d.
Proof.
  intros Hd.
  destruct (@np_max_abs_diff_fold Float64.scalar a b d Hd) as (d0 & ds & -> & Hin).
  destruct (fold_fmax64 ds d0) as [Hmem Hmax].
  split.
  - apply Hin. exact Hmem.
  - intros v Hv. apply Hmax. apply Hin. exact Hv.
Qed.

Section Verdict.

#[local] Existing Instance Float64.scalar.
Context {RS : @RandomState Float64.scalar}.

Lemma verdict_of_allclose (C_serial C_mpi : @matrix Float64.scalar) (b : bool) :
  np_allclose C_serial C_mpi = inr b ->
  (b = true <->
   forall x y : float,
     @at_same_place Float64.scalar C_serial C_mpi x y ->
     Float64.within_tolerance Float64.tol Float64.tol x y).
Proof.
  intros Hb. rewrite (@np_allclose_elementwise Float64.scalar _ _ _ Hb).
  split; intros H x y Hxy; apply isclose64_tolerance; apply H; exact Hxy.
Qed.

(** C9. On the root [verify_correctness] compares the serial product
    [np.dot(A, B)] of the matrices of seed 42 with what
    [mpi_matrix_multiply] returned.  It returns [True], and reports success,
    exactly when every element of the one is within the tolerance of the
    element of the other at the same place: [|x - y| <= atol + rtol * |y|]
    in binary64 arithmetic for finite numbers, equality for the others, where
    [rtol] and [atol] are the binary64 number nearest to [1e-10].  Otherwise
    it returns [False] and reports a maximum of the absolute differences
    [|x - y|] of the elements at the same place.  On every other rank it
    returns [None].  When every rank calls it, the group runs to completion
    with the verdict on the root and [None] elsewhere. *)
Theorem verification_verdict
    (size num_procs : Z) (e : env) (g : rng) (gs : list rng) :
  0 <= size -> 1 <= num_procs -> Z.of_nat (length gs) = num_procs ->
  Float64.rounds 1 (10 ^ 10) Float64.tol
  /\ exists (A B : @matrix Float64.scalar) g2 (C_serial : @matrix Float64.scalar),
       root_matrices size = inr (A, B, g2)
       /\ np_dot A B = inr C_serial
       /\ (forall C_mpi : @matrix Float64.scalar,
             outcome (interp 0 e g (mpi_matrix_multiply size 0 num_procs))
             = inr (Some C_mpi) ->
             exists (b : bool) report,
               outcome (interp 0 e g (verify_correctness size 0 num_procs))
               = inr (Some b)
               /\ (b = true <->
                   forall x y : float,
                     @at_same_place Float64.scalar C_serial C_mpi x y ->
                     Float64.within_tolerance Float64.tol Float64.tol x y)
               /\ prints (events (interp 0 e g (verify_correctness size 0 num_procs)))
                  = MsgVerifying size :: report
               /\ verdict_report C_serial C_mpi b report)
       /\ (forall rank er gr,
             rank <> 0 ->
             let call := interp rank er gr (mpi_matrix_multiply size rank num_procs) in
             let v := interp rank er gr (verify_correctness size rank num_procs) in
             events v = events call
             /\ (forall x, outcome call = inr x -> outcome v = inr None)
             /\ (forall x, outcome v = inr x -> x = None))
       /\ (exists (b : bool) report cfg,
             (b = true <->
              forall x y : float,
                @at_same_place Float64.scalar C_serial C_serial x y ->
                Float64.within_tolerance Float64.tol Float64.tol x y)
             /\ verdict_report C_serial C_serial b report
             /\ completes (spawn (fun r => verify_correctness size r num_procs) gs) cfg
             /\ results cfg = Some (Some b) :: replicate (length gs - 1) (Some None)
             /\ map st_out cfg
                = (MsgVerifying size :: report) :: replicate (length gs - 1) []).
Proof.
  intros Hs Hn Hlen. split; [exact tol_rounds|].
  destruct (root_matrices_ok size Hs) as (A & B & g2 & Hm & [HAc HAr] & [HBc HBr]).
  destruct (product_exists A B) as [P HP]; [lia|].
  destruct (np_dot_rows A B P HP) as [HPr HPc].
  exists A, B, g2, P. split; [exact Hm|]. split; [exact HP|].
  split; [|split].
  - intros C_mpi Hcall.
    assert (nrows C_mpi = size /\ ncols C_mpi = size) as [HCr HCc].
    { rewrite (root_call size num_procs Hs Hn e g A B P g2 Hm HP) in Hcall.
      cbn [outcome] in Hcall. unfold gather_loop in Hcall.
      pose proof (start_row_bounds size num_procs Hs Hn 1) as Hb.
      destruct (assembled_shape P size (start_row_of size num_procs 1))
        as [Hr0 Hc0]; [lia | lia |].
      destruct (gather_any size num_procs 0 e g2 (py_range 1 num_procs)
                  (assembled P size (start_row_of size num_procs 1)))
        as (_ & _ & Hout).
      destruct (Hout _ Hcall) as (C' & [= <-] & Hr' & Hc'). lia. }
    assert (exists b, np_allclose P C_mpi = inr b) as [b Hb].
    { unfold np_allclose, same_shape.
      rewrite HPr, HPc, HAr, HBc, HCr, HCc, !Z.eqb_refl. simpl. eauto. }
    rewrite (verify_root_call size num_procs e g A B P g2 Hm HP).
    rewrite (root_call_reseeds size num_procs e g2 g).
    pose proof (root_call_silent size num_procs Hs Hn e g) as Hsilent.
    destruct (interp 0 e g (mpi_matrix_multiply size 0 num_procs))
      as [evs out g3].
    simpl in Hcall, Hsilent. subst out. simpl. rewrite Hb.
    exists b. destruct b.
    + exists [MsgCorrect]. simpl. rewrite prints_app, Hsilent.
      split; [reflexivity|]. split; [exact (verdict_of_allclose P C_mpi true Hb)|].
      split; reflexivity.
    + destruct (allclose_false_has_diff P C_mpi Hb) as [d Hd].
      exists [MsgErrors; MsgMaxDiff d]. rewrite Hd. simpl.
      rewrite prints_app, Hsilent.
      split; [reflexivity|]. split; [exact (verdict_of_allclose P C_mpi false Hb)|].
      split; [reflexivity|].
      exists d. split; [reflexivity|]. apply np_max_abs_diff_maximum. exact Hd.
  - intros rank er gr Hrank call v. unfold v.
    rewrite (verify_worker_call size num_procs er gr rank Hrank). fold call.
    simpl. split; [reflexivity|]. split.
    + intros x ->. reflexivity.
    + intros x. destruct (outcome call); congruence.
  - destruct gs as [|g0 gt]; [simpl in Hlen; lia|].
    destruct (verify_run size num_procs A B P) with (g0 := g0) (out0 := @nil message)
      (rest := map (fun g : rng => (g, @nil message)) gt)
      as (b & report & g2' & Hb & Hrep & Hrun);
      try assumption; try lia; eauto.
    { rewrite length_map. simpl in Hlen. lia. }
    exists b, report. eexists.
    split; [exact (verdict_of_allclose P P b Hb)|]. split.
    { unfold verdict_report. destruct b; [exact Hrep|].
      destruct Hrep as (d & Hd & ->). exists d. split; [reflexivity|].
      apply np_max_abs_diff_maximum. exact Hd. }
    split.
    { apply completes_returned; [exact Hrun|].
      constructor; [simpl; eauto | apply load_returned]. }
    simpl. rewrite Nat.sub_0_r. split.
    + unfold results. simpl. f_equal.
      change (map _ (load ?f ?p ?l)) with (results (load f p l)).
      rewrite results_returned, length_map. reflexivity.
    + f_equal. apply out_of_spawned.
Qed.

End Verdict.

Lemma verification_verdict_witness :
  let e := Env None (fun _ _ => @Matrix Float64.scalar 2 [[5%float; 6%float]]) in
  0 <= 2 /\ 1 <= 2 /\ Z.of_nat (length [5; 6]) = 2
  /\ Float64.rounds 1 (10 ^ 10) Float64.tol
  /\ exists (C_serial C_mpi : @matrix Float64.scalar),
       (exists d,
           outcome (@interp Float64.scalar Float64.lcg _ 0 e 0
                      (mpi_matrix_multiply 2 0 2)) = inr (Some C_mpi)
           /\ ~ (forall x y : float,
                   @at_same_place Float64.scalar C_serial C_mpi x y ->
                   Float64.within_tolerance Float64.tol Float64.tol x y)
           /\ outcome (@interp Float64.scalar Float64.lcg _ 0 e 0
                         (verify_correctness 2 0 2)) = inr (Some false)
           /\ prints (events (@interp Float64.scalar Float64.lcg _ 0 e 0
                                (verify_correctness 2 0 2)))
              = [MsgVerifying 2; MsgErrors; MsgMaxDiff d]
           /\ Float64.is_maximum
                (fun v => exists x y : float,
                            @at_same_place Float64.scalar C_serial C_mpi x y
                            /\ v = PrimFloat.abs (x - y)%float) d)
       /\ (forall x y : float,
             @at_same_place Float64.scalar C_serial C_serial x y ->
             Float64.within_tolerance Float64.tol Float64.tol x y)
       /\ (exists cfg,
             completes (@spawn Float64.scalar Float64.lcg _
                          (fun r => verify_correctness 2 r 2) [5; 6]) cfg
             /\ results cfg = [Some (Some true); Some None]
             /\ map st_out cfg = [[MsgVerifying 2; MsgCorrect]; []]).
Proof.
  intros e. split; [lia|]. split; [lia|]. split; [reflexivity|].
  destruct (@verification_verdict Float64.lcg 2 2 e 0 [5; 6])
    as (Htol & A & B & g2 & C & Hm & HP & Hroot & _ & Hrun);
    [lia | lia | reflexivity |].
  split; [exact Htol|].
  assert (exists C_mpi,
             outcome (@interp Float64.scalar Float64.lcg _ 0 e 0
                        (mpi_matrix_multiply 2 0 2)) = inr (Some C_mpi))
    as [C_mpi Hcall] by (vm_compute; eexists; reflexivity).
  assert (forall x y : float,
             @at_same_place Float64.scalar C C x y ->
             Float64.within_tolerance Float64.tol Float64.tol x y) as Hself.
  { vm_compute in Hm. injection Hm as <- <- <-.
    vm_compute in HP. injection HP as <-.
    intros x y Hxy. apply isclose64_tolerance.
    refine (proj1 (@np_allclose_elementwise Float64.scalar _ _ true _) eq_refl x y Hxy).
    vm_compute. reflexivity. }
  exists C, C_mpi. split; [|split; [exact Hself|]].
  - destruct (Hroot C_mpi Hcall) as (b & report & Hout & Hiff & Hprints & Hrep).
    assert (b = false) as ->.
    { vm_compute in Hout. injection Hout as <-. reflexivity. }
    destruct Hrep as (d & -> & Hmax). exists d.
    split; [exact Hcall|]. split.
    { intros Hall. apply Hiff in Hall. discriminate Hall. }
    split; [exact Hout|]. split; [exact Hprints | exact Hmax].
  - destruct Hrun as (b & report & cfg & Hiff & Hrep & Hcomp & Hres & Hout).
    assert (b = true) as -> by (apply Hiff; exact Hself).
    simpl in Hrep. subst report.
    exists cfg. split; [exact Hcomp|]. split; [exact Hres | exact Hout].
Defined.

(** * The balance of the partition *)

(** X1. The partition is balanced: of two ranks the lower one has as many
    rows as the higher one or one more, and every rank has at least
    [size // num_procs] rows and at most that quotient rounded up. *)
Theorem rows_balanced (size num_procs r1 r2 : Z) :
  0 <= size -> 1 <= num_procs -> 0 <= r1 <= r2 -> r2 < num_procs ->
  local_rows_of size num_procs r2 <= local_rows_of size num_procs r1
    <= local_rows_of size num_procs r2 + 1
  /\ size / num_procs <= local_rows_of size num_procs r2
  /\ local_rows_of size num_procs r1 <= (size + num_procs - 1) / num_procs.
Proof.
  intros Hs Hn Hr Hr2.
  destruct (division_facts size num_procs Hs Hn) as (Hdiv & Hrem & Hq).
  assert (size / num_procs <= (size + num_procs - 1) / num_procs) as Hfloor
    by (apply Z.div_le_mono; lia).
  assert (0 < size mod num_procs ->
          size / num_procs + 1 <= (size + num_procs - 1) / num_procs) as Hceil.
  { intros Hpos. apply Z.div_le_lower_bound; [lia|]. nia. }
  unfold local_rows_of, row_range.
  destruct (Z.ltb_spec r1 (size mod num_procs)),
           (Z.ltb_spec r2 (size mod num_procs)); simpl; lia.
Qed.

Lemma rows_balanced_witness :
  local_rows_of 10 4 3 <= local_rows_of 10 4 1 <= local_rows_of 10 4 3 + 1
  /\ 10 / 4 <= local_rows_of 10 4 3
  /\ local_rows_of 10 4 1 <= (10 + 4 - 1) / 4.
Proof. apply (rows_balanced 10 4 1 3); lia. Defined.

Section Ranges.

Lemma map_seq_shift (a : Z) (n : nat) :
  forall s : nat,
    map (fun k => a + Z.of_nat k) (seq s n)
    = map (fun k => a + Z.of_nat s + Z.of_nat k) (seq 0 n).
Proof.
  induction n as [|n IH]; intros s; simpl; [reflexivity|].
  f_equal; [lia|]. rewrite (IH (S s)), <- seq_shift, map_map.
  apply map_ext. intros k. lia.
Qed.

Lemma py_range_app (a m b : Z) :
  a <= m <= b -> py_range a b = py_range a m ++ py_range m b.
Proof.
  intros H. unfold py_range.
  replace (Z.to_nat (b - a)) with (Z.to_nat (m - a) + Z.to_nat (b - m))%nat by lia.
  rewrite seq_app, map_app. f_equal.
  rewrite map_seq_shift. apply map_ext. intros k. lia.
Qed.

Lemma py_range_snoc (a b : Z) :
  a <= b -> py_range a (b + 1) = py_range a b ++ [b].
Proof.
  intros H. rewrite (py_range_app a b (b + 1)) by lia. f_equal.
  rewrite py_range_cons by lia. rewrite py_range_nil by lia. reflexivity.
Qed.

Lemma filter_all {X : Type} (f : X -> bool) (l : list X) :
  (forall x, In x l -> f x = true) -> List.filter f l = l.
Proof.
  induction l as [|x l IH]; intros H; [reflexivity|]. simpl.
  rewrite (H x) by (left; reflexivity). f_equal. apply IH.
  intros y Hy. apply H. right. exact Hy.
Qed.

Lemma filter_none {X : Type} (f : X -> bool) (l : list X) :
  (forall x, In x l -> f x = false) -> List.filter f l = [].
Proof.
  induction l as [|x l IH]; intros H; [reflexivity|]. simpl.
  rewrite (H x) by (left; reflexivity). apply IH.
  intros y Hy. apply H. right. exact Hy.
Qed.

Variables size num_procs : Z.
Hypothesis size_nonneg : 0 <= size.
Hypothesis procs_pos : 1 <= num_procs.

(** A rank has rows exactly when it is below [size]. *)
Lemma rank_has_rows (r : Z) :
  0 <= r < num_procs -> (0 < local_rows_of size num_procs r <-> r < size).
Proof.
  intros Hr.
  destruct (division_facts size num_procs size_nonneg procs_pos) as (Hdiv & Hrem & Hq).
  unfold local_rows_of, row_range.
  destruct (Z.ltb_spec r (size mod num_procs)); simpl; [nia|].
  split; intros H'; nia.
Qed.

Lemma nonempty_ranks_range :
  nonempty_ranks size num_procs (py_range 1 num_procs)
  = py_range 1 (Z.min size num_procs).
Proof.
  unfold nonempty_ranks.
  rewrite (py_range_app 1 (Z.max 1 (Z.min size num_procs)) num_procs) by lia.
  rewrite List.filter_app.
  rewrite filter_all, filter_none, app_nil_r.
  - destruct (Z.le_gt_cases 1 (Z.min size num_procs)).
    + rewrite Z.max_r by lia. reflexivity.
    + rewrite Z.max_l by lia. rewrite !py_range_nil by lia. reflexivity.
  - intros p Hp. apply in_py_range in Hp.
    destruct (Z.gtb_spec (local_rows_of size num_procs p) 0) as [Hpos|]; [|reflexivity].
    apply rank_has_rows in Hpos; lia.
  - intros p Hp. apply in_py_range in Hp.
    destruct (Z.gtb_spec (local_rows_of size num_procs p) 0) as [|Hz]; [reflexivity|].
    assert (0 < local_rows_of size num_procs p); [|lia].
    apply rank_has_rows; lia.
Qed.

End Ranges.

Section Scatter.
Context `{Num : Scalar} `{RS : !RandomState}.
Implicit Types (e : env) (g : rng).

Variables size num_procs : Z.
Hypothesis size_nonneg : 0 <= size.
Hypothesis procs_pos : 1 <= num_procs.

Lemma block_rows (A : matrix) (r : Z) :
  nrows A = size -> 0 <= r < num_procs ->
  mrows (block_of A size num_procs r)
  = take (Z.to_nat (local_rows_of size num_procs r))
      (drop (Z.to_nat (start_row_of size num_procs r)) (mrows A)).
Proof.
  intros HA Hr. unfold block_of, np_slice. simpl.
  pose proof (start_row_bounds size num_procs size_nonneg procs_pos r) as Hb.
  pose proof (local_rows_nonneg size num_procs size_nonneg procs_pos r) as Hp.
  pose proof (range_end size num_procs size_nonneg procs_pos r Hr) as He.
  unfold nrows in HA.
  rewrite py_slice_inside by lia. f_equal. lia.
Qed.

Lemma blocks_prefix (A : matrix) :
  nrows A = size ->
  forall k : nat,
    Z.of_nat k <= num_procs ->
    concat (map (fun r => mrows (block_of A size num_procs r))
              (py_range 0 (Z.of_nat k)))
    = take (Z.to_nat (start_row_of size num_procs (Z.of_nat k))) (mrows A).
Proof.
  intros HA. induction k as [|k IH]; intros Hk.
  - change (Z.of_nat 0) with 0.
    rewrite (start_row_zero size num_procs) by assumption. reflexivity.
  - replace (Z.of_nat (S k)) with (Z.of_nat k + 1) by lia.
    rewrite py_range_snoc by lia.
    rewrite map_app, concat_app, IH by lia. cbn [map concat]. rewrite app_nil_r.
    rewrite block_rows by (try assumption; lia).
    rewrite start_row_next.
    pose proof (start_row_bounds size num_procs size_nonneg procs_pos
                  (Z.of_nat k)) as Hb.
    pose proof (local_rows_nonneg size num_procs size_nonneg procs_pos
                  (Z.of_nat k)) as Hp.
    rewrite take_take_drop. f_equal. lia.
Qed.

End Scatter.

(** X2. A rank has rows exactly when it is below [size].  With the
    transport delivering blocks of the expected shape, the root calls the
    broadcast, then sends to the ranks [1 .. min(size, num_procs) - 1], in
    this order, each its block of [A] with the rank as tag, and only then
    receives from the same ranks, in the same order, with the rank plus 100
    as tag. *)
Theorem root_message_trace `{Num : Scalar} `{RS : !RandomState}
    (size num_procs : Z) (e : env) (g : rng) :
  0 <= size -> 1 <= num_procs -> delivers_blocks e size num_procs ->
  (forall r, 0 <= r < num_procs ->
     (0 < local_rows_of size num_procs r <-> r < size))
  /\ exists A B g2,
       root_matrices size = inr (A, B, g2)
       /\ events (interp 0 e g (mpi_matrix_multiply size 0 num_procs))
          = EvBcast
            :: map (fun p => EvSend p p (block_of A size num_procs p))
                 (py_range 1 (Z.min size num_procs))
            ++ map (fun p => EvRecv p (p + 100))
                 (py_range 1 (Z.min size num_procs)).
Proof.
  intros Hs Hn He. split.
  - intros r Hr. apply rank_has_rows; assumption.
  - destruct (root_call_shaped size num_procs Hs Hn e g He)
      as (A & B & g2 & C & Hm & Hcall & _).
    exists A, B, g2. split; [exact Hm|].
    rewrite Hcall. simpl. unfold scatter_events, gather_events.
    rewrite nonempty_ranks_range by assumption. reflexivity.
Qed.

(** X3. [distribute_matrix_rows] on the root sends to each rank with rows
    its block of [A], keeps the block of rank 0 and leaves the generator as
    it is.  The block of a rank has as many rows as its range, and the blocks
    of all the ranks, in the order of the ranks, are the rows of [A]: no row
    is lost, repeated or moved. *)
Theorem scatter_covers_matrix `{Num : Scalar} `{RS : !RandomState}
    (size num_procs : Z) (A : matrix) (e : env) (g : rng) :
  0 <= size -> 1 <= num_procs -> nrows A = size ->
  interp 0 e g (distribute_matrix_rows (Some A) size 0 num_procs)
  = Result
      (map (fun p => EvSend p p (block_of A size num_procs p))
         (py_range 1 (Z.min size num_procs)))
      (inr (block_of A size num_procs 0, local_rows_of size num_procs 0, 0)) g
  /\ (forall r, 0 <= r < num_procs ->
        nrows (block_of A size num_procs r) = local_rows_of size num_procs r)
  /\ concat (map (fun r => mrows (block_of A size num_procs r))
               (py_range 0 num_procs))
     = mrows A.
Proof.
  intros Hs Hn HA. split; [|split].
  - rewrite interp_distribute_root;
      [|lia | apply local_rows_nonneg; assumption | assumption].
    unfold scatter_events. rewrite nonempty_ranks_range by assumption.
    rewrite (start_row_zero size num_procs) by assumption. reflexivity.
  - intros r Hr. unfold nrows at 1. rewrite (block_rows size num_procs) by assumption.
    pose proof (start_row_bounds size num_procs Hs Hn r) as Hb.
    pose proof (local_rows_nonneg size num_procs Hs Hn r) as Hp.
    pose proof (range_end size num_procs Hs Hn r Hr) as He.
    unfold nrows in HA. rewrite length_take, length_drop. lia.
  - pose proof (blocks_prefix size num_procs Hs Hn A HA (Z.to_nat num_procs)) as H.
    rewrite Z2Nat.id in H by lia.
    rewrite H by lia. rewrite (start_row_end size num_procs) by assumption.
    unfold nrows in HA. apply take_ge. lia.
Qed.

Lemma root_message_trace_witness :
  0 <= 2 /\ 1 <= 4
  /\ @delivers_blocks Float64.scalar
       (Env None (fun p _ => Matrix 2 (replicate (Z.to_nat (local_rows_of 2 4 p)) [])))
       2 4
  /\ exists A B g2,
       @root_matrices Float64.scalar Float64.lcg 2 = inr (A, B, g2)
       /\ events (@interp Float64.scalar Float64.lcg _ 0
                    (Env None (fun p _ =>
                       Matrix 2 (replicate (Z.to_nat (local_rows_of 2 4 p)) [])))
                    0 (mpi_matrix_multiply 2 0 4))
          = EvBcast
            :: map (fun p => EvSend p p (block_of A 2 4 p)) (py_range 1 (Z.min 2 4))
            ++ map (fun p => EvRecv p (p + 100)) (py_range 1 (Z.min 2 4)).
Proof.
  assert (@delivers_blocks Float64.scalar
            (Env None (fun p _ =>
               Matrix 2 (replicate (Z.to_nat (local_rows_of 2 4 p)) [])))
            2 4) as Hblocks.
  { intros p Hp _. assert (p = 1 \/ p = 2 \/ p = 3) as [-> | [-> | ->]] by lia;
      split; reflexivity. }
  split; [lia|]. split; [lia|]. split; [exact Hblocks|].
  apply (@root_message_trace Float64.scalar Float64.lcg 2 4 _ 0);
    [lia | lia | exact Hblocks].
Defined.

Lemma scatter_covers_matrix_witness :
  let A := @Matrix Float64.scalar 1 [[1%float]; [2%float]; [3%float]] in
  0 <= 3 /\ 1 <= 2 /\ nrows A = 3
  /\ concat (map (fun r => mrows (block_of A 3 2 r)) (py_range 0 2)) = mrows A.
Proof.
  intros A. split; [lia|]. split; [lia|]. split; [reflexivity|].
  apply (@scatter_covers_matrix Float64.scalar Float64.lcg 3 2 A
           (Env None (fun _ _ => Matrix 0 [])) 0);
    [lia | lia | reflexivity].
Defined.

(** * Groups that cannot finish *)

(** X6. With a negative size and two or more ranks the call of the group
    cannot finish: the root stops with [ValueError] at its first draw, every
    other rank waits in the broadcast for an object that is never sent, no
    step is left, and no rank returns. *)
Theorem negative_size_hangs `{Num : Scalar} `{RS : !RandomState}
    (size num_procs : Z) (gs : list rng) :
  size < 0 -> 2 <= num_procs -> Z.of_nat (length gs) = num_procs ->
  exists root ws,
    completes (spawn (fun r => mpi_matrix_multiply size r num_procs) gs)
      (root :: ws)
    /\ st_code root = Raise ValueError
    /\ length ws = (length gs - 1)%nat
    /\ Forall (fun st => exists k, st_code st = Bcast None k) ws
    /\ results (root :: ws) = replicate (length gs) None.
Proof.
  intros Hs Hn Hlen.
  destruct gs as [|g0 gt]; [simpl in Hlen; lia|].
  set (rest := map (fun g : rng => (g, @nil message)) gt).
  set (ws := load (fun r => mpi_matrix_multiply size r num_procs) 1 rest).
  exists (PState (rng_seed 42) [] (Raise ValueError)), ws.
  assert (Forall (fun st : pstate (option matrix) =>
                    exists k, st_code st = Bcast None k) ws) as Hws
    by (apply workers_wait; lia).
  assert (Forall (fun st : pstate (option matrix) =>
                    exists v k, st_code st = Bcast v k) ws) as Hws'
    by (eapply Forall_impl; [exact Hws | intros st [k Hk]; eauto]).
  split; [|split; [reflexivity|split; [|split; [exact Hws|]]]].
  - apply completes_nf.
    + unfold spawn. simpl load. fold rest. fold ws.
      eapply steps_step.
      { apply step_first. reflexivity. }
      eapply steps_step.
      { apply step_first. unfold local_step. simpl.
        rewrite np_random_rand_negative by lia. reflexivity. }
      apply steps_refl.
    + eapply raised_root_nf; [reflexivity | exact Hws'].
  - unfold ws, rest. rewrite load_length, length_map. simpl. lia.
  - unfold results in *. simpl. f_equal.
    change (map _ ws) with (results ws).
    rewrite results_waiting by exact Hws'.
    unfold ws, rest. rewrite load_length, length_map. reflexivity.
Qed.

Lemma negative_size_hangs_witness :
  -1 < 0 /\ 2 <= 3 /\ Z.of_nat (length [4; 5; 6]) = 3
  /\ exists root ws,
       completes (@spawn Float64.scalar Float64.lcg _
                    (fun r => mpi_matrix_multiply (-1) r 3) [4; 5; 6])
         (root :: ws)
       /\ st_code root = Raise ValueError
       /\ length ws = 2%nat
       /\ Forall (fun st => exists k, st_code st = Bcast None k) ws
       /\ results (root :: ws) = replicate 3 None.
Proof.
  split; [lia|]. split; [lia|]. split; [reflexivity|].
  apply (@negative_size_hangs Float64.scalar Float64.lcg (-1) 3 [4; 5; 6]);
    [lia | lia | reflexivity].
Defined.

Section StuckVerify.
Context `{Num : Scalar} `{RS : !RandomState}.

Lemma verify_worker_head (size num_procs rank : Z) :
  rank <> 0 ->
  exists k, verify_correctness size rank num_procs = Bcast None k.
Proof.
  intros Hr. unfold verify_correctness.
  destruct (Z.eqb_spec rank 0) as [|_]; [contradiction|].
  destruct (worker_head size num_procs rank Hr) as [k Hk].
  cbn [bind]. rewrite Hk. cbn [bind]. eauto.
Qed.

Lemma verifiers_wait (size num_procs : Z) (sts : list (rng * list message)) :
  forall p : nat,
    (1 <= p)%nat ->
    Forall (fun st => exists k, st_code st = Bcast None k)
      (load (fun r => verify_correctness size r num_procs) p sts).
Proof.
  induction sts as [|[g o] sts IH]; intros p Hp; simpl; constructor.
  - destruct (verify_worker_head size num_procs (Z.of_nat p)) as [k Hk]; [lia|].
    simpl. rewrite Hk. eauto.
  - apply IH. lia.
Qed.

End StuckVerify.

(** X7. The same for [verify_correctness]: with a negative size and two or
    more ranks the root prints its first line and stops with [ValueError] at
    its own draw, every other rank prints nothing and waits in the broadcast
    of [mpi_matrix_multiply], and no rank returns. *)
Theorem verify_negative_size_hangs `{Num : Scalar} `{RS : !RandomState}
    (size num_procs : Z) (gs : list rng) :
  size < 0 -> 2 <= num_procs -> Z.of_nat (length gs) = num_procs ->
  exists root ws,
    completes (spawn (fun r => verify_correctness size r num_procs) gs)
      (root :: ws)
    /\ st_code root = Raise ValueError
    /\ st_out root = [MsgVerifying size]
    /\ length ws = (length gs - 1)%nat
    /\ Forall (fun st => st_out st = [] /\ exists k, st_code st = Bcast None k) ws
    /\ results (root :: ws) = replicate (length gs) None.
Proof.
  intros Hs Hn Hlen.
  destruct gs as [|g0 gt]; [simpl in Hlen; lia|].
  set (rest := map (fun g : rng => (g, @nil message)) gt).
  set (ws := load (fun r => verify_correctness size r num_procs) 1 rest).
  exists (PState (rng_seed 42) [MsgVerifying size] (Raise ValueError)), ws.
  assert (Forall (fun st : pstate (option bool) =>
                    exists k, st_code st = Bcast None k) ws) as Hws
    by (apply verifiers_wait; lia).
  assert (Forall (fun st : pstate (option bool) =>
                    exists v k, st_code st = Bcast v k) ws) as Hws'
    by (eapply Forall_impl; [exact Hws | intros st [k Hk]; eauto]).
  split; [|split; [reflexivity|split; [reflexivity|split; [|split]]]].
  - apply completes_nf.
    + unfold spawn. simpl load. fold rest. fold ws.
      eapply steps_step.
      { apply step_first. reflexivity. }
      eapply steps_step.
      { apply step_first. reflexivity. }
      eapply steps_step.
      { apply step_first. unfold local_step. simpl.
        rewrite np_random_rand_negative by lia. reflexivity. }
      apply steps_refl.
    + eapply raised_root_nf; [reflexivity | exact Hws'].
  - unfold ws, rest. rewrite load_length, length_map. simpl. lia.
  - apply Forall_forall. intros st Hst. split.
    + apply list_elem_of_In, (in_map st_out) in Hst.
      unfold ws, rest in Hst. rewrite out_of_spawned in Hst.
      apply list_elem_of_In, elem_of_replicate in Hst. tauto.
    + rewrite Forall_forall in Hws. apply Hws. exact Hst.
  - unfold results in *. simpl. f_equal.
    change (map _ ws) with (results ws).
    rewrite results_waiting by exact Hws'.
    unfold ws, rest. rewrite load_length, length_map. reflexivity.
Qed.

Lemma verify_negative_size_hangs_witness :
  -2 < 0 /\ 2 <= 2 /\ Z.of_nat (length [4; 5]) = 2
  /\ exists root ws,
       completes (@spawn Float64.scalar Float64.lcg _
                    (fun r => verify_correctness (-2) r 2) [4; 5])
         (root :: ws)
       /\ st_code root = Raise ValueError
       /\ st_out root = [MsgVerifying (-2)]
       /\ length ws = 1%nat
       /\ Forall (fun st => st_out st = [] /\ exists k, st_code st = Bcast None k) ws
       /\ results (root :: ws) = replicate 2 None.
Proof.
  split; [lia|]. split; [lia|]. split; [reflexivity|].
  apply (@verify_negative_size_hangs Float64.scalar Float64.lcg (-2) 2 [4; 5]);
    [lia | lia | reflexivity].
Defined.

(** * Random matrices and products *)

Section Matrices.
Context `{Num : Scalar} `{RS : !RandomState}.

Lemma rand_list_length (c : nat) :
  forall g : rng, length (rand_list c g).1 = c.
Proof.
  induction c as [|c IH]; intros g; simpl; [reflexivity|].
  destruct (rng_next g) as [x g1]. specialize (IH g1).
  destruct (rand_list c g1) as [xs g2]. simpl in *. lia.
Qed.

Lemma rand_rows_width (r c : nat) :
  forall g : rng, Forall (fun row => length row = c) (rand_rows r c g).1.
Proof.
  induction r as [|r IH]; intros g; simpl; [constructor|].
  pose proof (rand_list_length c g) as Hl.
  destruct (rand_list c g) as [row g1]. specialize (IH g1).
  destruct (rand_rows r c g1) as [rest g2]. simpl in *.
  constructor; assumption.
Qed.

Lemma np_random_rand_width (g g' : rng) (r c : Z) (M : matrix) :
  np_random_rand g r c = inr (M, g') ->
  Forall (fun row => Z.of_nat (length row) = Z.max 0 c) (mrows M).
Proof.
  unfold np_random_rand. destruct ((r <? 0) || (c <? 0)); [discriminate|].
  pose proof (rand_rows_width (Z.to_nat r) (Z.to_nat c) g) as Hw.
  destruct (rand_rows (Z.to_nat r) (Z.to_nat c) g) as [rs g1].
  intros [= <- <-]. simpl in *.
  eapply Forall_impl; [exact Hw|]. intros row Hrow. simpl in Hrow. lia.
Qed.

End Matrices.

(** X8. [generate_random_matrix] seeds the generator first.  A seed
    outside [0 .. 2**32 - 1] is a [ValueError] that leaves the generator as
    it was.  With a seed of that range, a negative dimension is a
    [ValueError] that leaves the generator seeded; otherwise the call
    returns, whatever the state of the generator at the call, the same
    matrix of [rows] rows of [cols] elements.  With the default seed 42 the
    square matrix is the matrix [A] of [initialize_matrices] on the root,
    whose [B] is the next draw. *)
Theorem generate_random_matrix_reproducible `{Num : Scalar} `{RS : !RandomState}
    (rows cols seed : Z) :
  (~ 0 <= seed < 2 ^ 32 ->
   forall me e g,
     interp me e g (generate_random_matrix rows cols seed)
     = Result [] (inl ValueError) g)
  /\ (0 <= seed < 2 ^ 32 ->
      (rows < 0 \/ cols < 0 ->
       forall me e g,
         interp me e g (generate_random_matrix rows cols seed)
         = Result [] (inl ValueError) (rng_seed seed))
      /\ (0 <= rows -> 0 <= cols ->
          exists M g1,
            (forall me e g,
               interp me e g (generate_random_matrix rows cols seed)
               = Result [] (inr M) g1)
            /\ nrows M = rows /\ ncols M = cols
            /\ Forall (fun row => Z.of_nat (length row) = cols) (mrows M)
            /\ (rows = cols -> seed = 42 ->
                exists B g2,
                  np_random_rand g1 rows rows = inr (B, g2)
                  /\ forall me e g,
                       interp me e g (initialize_matrices rows 0)
                       = Result [] (inr (Some M, Some B)) g2))).
Proof.
  unfold generate_random_matrix, np_random_seed. split.
  { intros Hseed me e g.
    destruct (Z.leb_spec 0 seed); destruct (Z.ltb_spec seed (2 ^ 32)); simpl;
      try lia; reflexivity. }
  intros [Hlo Hhi].
  destruct (Z.leb_spec 0 seed); [|lia].
  destruct (Z.ltb_spec seed (2 ^ 32)); [|lia]. cbn [andb].
  split.
  - intros Hneg me e g. simpl.
    rewrite np_random_rand_negative by assumption. reflexivity.
  - intros Hr Hc.
    destruct (np_random_rand_ok (rng_seed seed) rows cols Hr Hc)
      as (M & g1 & HM & HMc & HMr).
    exists M, g1. split; [|split; [exact HMr|split; [exact HMc|split]]].
    + intros me e g. simpl. rewrite HM. reflexivity.
    + pose proof (np_random_rand_width _ _ _ _ _ HM) as Hw.
      eapply Forall_impl; [exact Hw|]. intros row Hrow. simpl in Hrow. lia.
    + intros <- ->.
      destruct (np_random_rand_ok g1 rows rows Hr Hr) as (B & g2 & HB & _).
      exists B, g2. split; [exact HB|].
      intros me e g. apply interp_initialize_root.
      unfold root_matrices. rewrite HM, HB. reflexivity.
Qed.

Section SideEffects.
Context `{Num : Scalar} `{RS : !RandomState}.

Lemma load_returned_states {R : Type} (v : R) (gs : list rng) :
  forall p : nat,
    load (fun _ => Ret v) p (map (fun g => (g, [])) gs)
    = map (fun g => PState g [] (Ret v)) gs.
Proof.
  induction gs as [|g gs IH]; intros p; simpl; [reflexivity|].
  rewrite IH. reflexivity.
Qed.

End SideEffects.

(** X5. When every rank calls [mpi_matrix_multiply] the run ends with
    nothing printed, with the generator of every rank but the root in the
    state it had at the call, and with the generator of the root in the state
    reached from the seed 42 by the draws of [A] and [B], whatever its state
    at the call. *)
Theorem call_side_effects `{Num : Scalar} `{RS : !RandomState}
    (size num_procs : Z) (g0 : rng) (gt : list rng) :
  0 <= size -> num_procs = Z.of_nat (S (length gt)) ->
  exists A B g2 P,
    root_matrices size = inr (A, B, g2)
    /\ np_dot A B = inr P
    /\ completes
         (spawn (fun r => mpi_matrix_multiply size r num_procs) (g0 :: gt))
         (PState g2 [] (Ret (Some P))
            :: map (fun g => PState g [] (Ret None)) gt).
Proof.
  intros Hs Hn.
  destruct (root_matrices_ok size Hs) as (A & B & g2 & Hm & [HAc HAr] & [HBc HBr]).
  destruct (product_exists A B) as [P HP]; [lia|].
  destruct (multiply_run size num_procs A B P) with (g0 := g0) (out0 := @nil message)
    (rest := map (fun g : rng => (g, @nil message)) gt) as (g2' & Hm' & Hrun);
    try assumption; try lia; eauto.
  { rewrite length_map. exact Hn. }
  rewrite Hm in Hm'. injection Hm' as <-.
  exists A, B, g2, P. split; [exact Hm|]. split; [exact HP|].
  rewrite load_returned_states in Hrun.
  apply completes_returned; [exact Hrun|].
  constructor; [simpl; eauto|].
  apply Forall_forall. intros st Hst.
  apply list_elem_of_In, in_map_iff in Hst as (g & <- & _). simpl. eauto.
Qed.

Lemma call_side_effects_witness :
  0 <= 2 /\ 2 = Z.of_nat (S (length [9]))
  /\ exists A B g2 P,
       @root_matrices Float64.scalar Float64.lcg 2 = inr (A, B, g2)
       /\ np_dot A B = inr P
       /\ completes
            (@spawn Float64.scalar Float64.lcg _
               (fun r => mpi_matrix_multiply 2 r 2) [7; 9])
            (PState g2 [] (Ret (Some P))
               :: map (fun g => PState g [] (Ret None))
                    ([9] : list (@rng Float64.scalar Float64.lcg))).
Proof.
  split; [lia|]. split; [reflexivity|].
  apply (@call_side_effects Float64.scalar Float64.lcg 2 2 7 [9]);
    [lia | reflexivity].
Defined.

(** * The gather stitches the blocks *)

Section Gather.
Context `{Num : Scalar} `{RS : !RandomState}.
Implicit Types (e : env) (g : rng).

Variables size num_procs : Z.
Hypothesis size_nonneg : 0 <= size.
Hypothesis procs_pos : 1 <= num_procs.

Lemma gather_stitches me e g :
  delivers_blocks e size num_procs ->
  forall (j : nat) (k : Z) (pre : list (list elt)),
    k = num_procs - Z.of_nat j -> 1 <= k ->
    Z.of_nat (length pre) = start_row_of size num_procs k ->
    interp me e g
      (recv_rows size num_procs (py_range k num_procs)
         (Matrix size
            (pre ++ replicate (Z.to_nat (size - start_row_of size num_procs k))
                      (replicate (Z.to_nat size) zero))))
    = Result (gather_events size num_procs (py_range k num_procs))
        (inr (Matrix size
                (pre ++ received_rows size num_procs e (py_range k num_procs))))
        g.
Proof.
  intros He. induction j as [|j IH]; intros k pre Hk Hk1 Hpre.
  - replace k with num_procs by lia.
    rewrite py_range_nil by lia.
    rewrite (start_row_end size num_procs) by assumption.
    rewrite Z.sub_diag. unfold received_rows. simpl. reflexivity.
  - rewrite py_range_cons by lia. rewrite recv_rows_cons.
    unfold gather_events, received_rows, nonempty_ranks. cbn [List.filter].
    pose proof (start_row_bounds size num_procs size_nonneg procs_pos k) as Hb.
    pose proof (local_rows_nonneg size num_procs size_nonneg procs_pos k) as Hp.
    pose proof (range_end size num_procs size_nonneg procs_pos k) as Hend.
    pose proof (start_row_next size num_procs k) as Hnext.
    destruct (Z.gtb_spec (local_rows_of size num_procs k) 0) as [Hpos | Hzero].
    + destruct (He k) as [Hvr Hvc]; [lia | lia |].
      cbn [interp map concat].
      rewrite np_setrows_block;
        [| lia | lia
         | unfold nrows; simpl; rewrite length_app, length_replicate; lia
         | exact Hvr | exact Hvc].
      simpl ncols. simpl mrows.
      rewrite take_app_length' by lia.
      rewrite drop_app_ge by lia.
      rewrite drop_replicate.
      replace (Z.to_nat (size - start_row_of size num_procs k)
               - (Z.to_nat (start_row_of size num_procs k
                            + local_rows_of size num_procs k) - length pre))%nat
        with (Z.to_nat (size - start_row_of size num_procs (k + 1))) by lia.
      rewrite (app_assoc pre).
      rewrite (IH (k + 1) (pre ++ mrows (recv_in e k (k + 100))));
        [| lia | lia | rewrite length_app; unfold nrows in Hvr; lia].
      unfold emit, gather_events, received_rows, nonempty_ranks. simpl.
      rewrite <- app_assoc. reflexivity.
    + replace (start_row_of size num_procs k)
        with (start_row_of size num_procs (k + 1)) by lia.
      rewrite (IH (k + 1) pre); [| lia | lia | lia].
      reflexivity.
Qed.

End Gather.

(** X4. With the transport delivering blocks of the expected shape, the
    matrix the root returns is its own block of the product followed by the
    blocks delivered from the ranks [1 .. min(size, num_procs) - 1], in the
    order of the ranks: every row of the array of zeros is overwritten and no
    block is changed. *)
Theorem gather_concatenates `{Num : Scalar} `{RS : !RandomState}
    (size num_procs : Z) (e : env) (g : rng) :
  0 <= size -> 1 <= num_procs -> delivers_blocks e size num_procs ->
  exists A B g2 P,
    root_matrices size = inr (A, B, g2)
    /\ np_dot A B = inr P
    /\ outcome (interp 0 e g (mpi_matrix_multiply size 0 num_procs))
       = inr (Some (Matrix size
                      (mrows (block_of P size num_procs 0)
                         ++ concat (map (fun p => mrows (recv_in e p (p + 100)))
                                      (py_range 1 (Z.min size num_procs)))))).
Proof.
  intros Hs Hn He.
  destruct (root_matrices_ok size Hs) as (A & B & g2 & Hm & [HAc HAr] & [HBc HBr]).
  destruct (product_exists A B) as [P HP]; [lia|].
  destruct (np_dot_rows A B P HP) as [HPr HPc].
  rewrite HAr in HPr. rewrite HBc in HPc.
  exists A, B, g2, P. split; [exact Hm|]. split; [exact HP|].
  rewrite (root_call size num_procs Hs Hn e g A B P g2 Hm HP).
  cbn [outcome]. unfold gather_loop, assembled. rewrite interp_bind.
  pose proof (start_row_bounds size num_procs Hs Hn 1) as Hb.
  pose proof (start_row_next size num_procs 0) as Hnext.
  rewrite (start_row_zero size num_procs) in Hnext by assumption.
  rewrite (gather_stitches size num_procs Hs Hn 0 e g2 He
             (Z.to_nat (num_procs - 1)) 1
             (take (Z.to_nat (start_row_of size num_procs 1)) (mrows P)));
    [| lia | lia | rewrite length_take; unfold nrows in HPr; lia].
  cbn [outcome interp]. f_equal. f_equal. f_equal. f_equal.
  - rewrite (block_rows size num_procs Hs Hn P 0) by (try assumption; lia).
    rewrite (start_row_zero size num_procs) by assumption.
    cbn [Z.to_nat drop]. f_equal. change (0 + 1) with 1 in Hnext. lia.
  - unfold received_rows. rewrite nonempty_ranks_range by assumption. reflexivity.
Qed.

Lemma gather_concatenates_witness :
  let e := Env None (fun _ _ => @Matrix Float64.scalar 2 [[5%float; 6%float]]) in
  0 <= 2 /\ 1 <= 2 /\ delivers_blocks e 2 2
  /\ exists A B g2 P,
       @root_matrices Float64.scalar Float64.lcg 2 = inr (A, B, g2)
       /\ np_dot A B = inr P
       /\ outcome (@interp Float64.scalar Float64.lcg _ 0 e 0
                     (mpi_matrix_multiply 2 0 2))
          = inr (Some (Matrix 2
                         (mrows (block_of P 2 2 0)
                            ++ concat (map (fun p => mrows (recv_in e p (p + 100)))
                                         (py_range 1 (Z.min 2 2)))))).
Proof.
  intros e.
  assert (delivers_blocks e 2 2) as Hblocks.
  { intros p Hp _. assert (p = 1) as -> by lia. split; reflexivity. }
  split; [lia|]. split; [lia|]. split; [exact Hblocks|].
  apply (@gather_concatenates Float64.scalar Float64.lcg 2 2 e 0);
    [lia | lia | exact Hblocks].
Defined.

(** * Handlers *)

Section Handlers.
Context `{Num : Scalar} `{RS : !RandomState}.

Lemma np_random_rand_raises (g : rng) (r c : Z) :
  match np_random_rand g r c with
  | inl x => (r <? 0) || (c <? 0) = true /\ x = ValueError
  | inr _ => (r <? 0) || (c <? 0) = false
  end.
Proof.
  unfold np_random_rand. destruct ((r <? 0) || (c <? 0)); [split; reflexivity|].
  destruct (rand_rows (Z.to_nat r) (Z.to_nat c) g). reflexivity.
Qed.

(** The run of a program under a handler: the run of the program, followed
    where it raised by the run of the handler. *)
Lemma interp_try_except {R : Type} me e (p : proc R) (h : exn -> proc R) :
  forall g,
    interp me e g (try_except p h)
    = match outcome (interp me e g p) with
      | inr _ => interp me e g p
      | inl x =>
          let r' := interp me e (rng_after (interp me e g p)) (h x) in
          Result (events (interp me e g p) ++ events r') (outcome r') (rng_after r')
      end.
Proof.
  induction p as [r | x | s k IH | r c k IH | v k IH | m d t k IH | s t k IH | m k IH];
    intros g; simpl.
  - reflexivity.
  - destruct (interp me e g (h x)); reflexivity.
  - apply IH.
  - pose proof (np_random_rand_raises g r c) as Hr.
    destruct (np_random_rand g r c) as [x | [m g']] eqn:Hd.
    + destruct Hr as [-> ->]. simpl.
      destruct (interp me e g (h ValueError)); reflexivity.
    + rewrite Hr. simpl. rewrite Hd. apply IH.
  - rewrite IH.
    destruct (outcome (interp me e g (k (if me =? 0 then v else bcast_in e))));
      reflexivity.
  - rewrite IH. destruct (outcome (interp me e g k)); reflexivity.
  - rewrite IH. destruct (outcome (interp me e g (k (recv_in e s t)))); reflexivity.
  - rewrite IH. destruct (outcome (interp me e g k)); reflexivity.
Qed.

Lemma local_step_try {R : Type} (h : exn -> proc R) (st st' : pstate R) :
  local_step st = Some st' ->
  local_step (try_state h st) = Some (try_state h st')
  \/ try_state h st' = try_state h st.
Proof.
  destruct st as [g out code]. unfold local_step, try_state. simpl.
  destruct code; try discriminate; simpl; intros [= <-]; try (left; reflexivity).
  pose proof (np_random_rand_raises g r c) as Hr.
  destruct (np_random_rand g r c) as [x | [m g']] eqn:Hd.
  - destruct Hr as [-> ->]. right. reflexivity.
  - rewrite Hr. left. simpl. rewrite Hd. reflexivity.
Qed.

Lemma try_all_lookup {R : Type} (H : nat -> exn -> proc R) (cfg : list (pstate R)) :
  forall (p i : nat) (st : pstate R),
    cfg !! i = Some st ->
    try_all H p cfg !! i = Some (try_state (H (p + i)%nat) st).
Proof.
  induction cfg as [|st0 cfg IH]; intros p i st Hi; [discriminate|].
  destruct i as [|i]; simpl in *.
  - injection Hi as ->. rewrite Nat.add_0_r. reflexivity.
  - rewrite (IH (S p) i st Hi).
    replace (S p + i)%nat with (p + S i)%nat by lia. reflexivity.
Qed.

Lemma try_all_insert {R : Type} (H : nat -> exn -> proc R) (cfg : list (pstate R)) :
  forall (p i : nat) (st : pstate R),
    try_all H p (<[i := st]> cfg)
    = <[i := try_state (H (p + i)%nat) st]> (try_all H p cfg).
Proof.
  induction cfg as [|st0 cfg IH]; intros p i st; [reflexivity|].
  destruct i as [|i]; simpl.
  - rewrite Nat.add_0_r. reflexivity.
  - rewrite (IH (S p) i st).
    replace (S p + i)%nat with (p + S i)%nat by lia. reflexivity.
Qed.

Lemma try_all_at_bcast {R : Type} (H : nat -> exn -> proc R) (cfg : list (pstate R)) :
  forall p : nat,
    forallb at_bcast cfg = true -> forallb at_bcast (try_all H p cfg) = true.
Proof.
  induction cfg as [|st cfg IH]; intros p Hall; [reflexivity|].
  simpl in *. apply andb_prop in Hall as [Hst Hcfg].
  rewrite (IH (S p) Hcfg), andb_true_r.
  unfold at_bcast, try_state in *. simpl.
  destruct (st_code st); try discriminate. reflexivity.
Qed.

Lemma try_all_deliver {R : Type} (H : nat -> exn -> proc R) (v : option matrix)
    (cfg : list (pstate R)) :
  forall p : nat,
    forallb at_bcast cfg = true ->
    map (deliver v) (try_all H p cfg) = try_all H p (map (deliver v) cfg).
Proof.
  induction cfg as [|st cfg IH]; intros p Hall; [reflexivity|].
  simpl in *. apply andb_prop in Hall as [Hst Hcfg].
  rewrite (IH (S p) Hcfg). f_equal.
  unfold at_bcast, deliver, try_state in *. simpl.
  destruct (st_code st); try discriminate. reflexivity.
Qed.

(** A step of a group is at most a step of the group under handlers. *)
Lemma step_try_all {R : Type} (H : nat -> exn -> proc R) (p : nat)
    (cfg cfg' : list (pstate R)) :
  step cfg cfg' -> steps (try_all H p cfg) (try_all H p cfg').
Proof.
  intros Hstep. destruct Hstep as [cfg i st st' Hi Hloc | cfg root v k Hroot Hcode Hall
                                   | cfg i j si sj m tag k k' Hi Hj Hsi Hsj].
  - rewrite try_all_insert.
    pose proof (try_all_lookup H cfg p i st Hi) as Hl.
    destruct (local_step_try (H (p + i)%nat) st st' Hloc) as [Hs | Heq].
    + eapply steps_step; [|apply steps_refl].
      eapply step_local; [exact Hl | exact Hs].
    + rewrite Heq, list_insert_id by exact Hl. apply steps_refl.
  - rewrite <- try_all_deliver by assumption.
    eapply steps_step; [|apply steps_refl].
    eapply step_bcast.
    + apply (try_all_lookup H cfg p 0 root Hroot).
    + unfold try_state. simpl. rewrite Hcode. reflexivity.
    + apply try_all_at_bcast. exact Hall.
  - rewrite !try_all_insert.
    eapply steps_step; [|apply steps_refl].
    eapply (step_transfer (try_all H p cfg) i j
              (try_state (H (p + i)%nat) si) (try_state (H (p + j)%nat) sj)
              m tag (try_except k (H (p + i)%nat))
              (fun x => try_except (k' x) (H (p + j)%nat))).
    + apply try_all_lookup. exact Hi.
    + apply try_all_lookup. exact Hj.
    + unfold try_state. simpl. rewrite Hsi. reflexivity.
    + unfold try_state. simpl. rewrite Hsj. reflexivity.
Qed.

Lemma steps_try_all {R : Type} (H : nat -> exn -> proc R) (p : nat)
    (cfg cfg' : list (pstate R)) :
  steps cfg cfg' -> steps (try_all H p cfg) (try_all H p cfg').
Proof.
  induction 1 as [cfg | cfg c1 c2 Hstep _ IH]; [apply steps_refl|].
  eapply steps_trans; [apply step_try_all; exact Hstep | exact IH].
Qed.

End Handlers.

(** * The tests that call the multiplication *)

Section SuiteRuns.
Context `{Num : Scalar} `{RS : !RandomState}.

Lemma load_bind {R Q : Type} (f : Z -> proc R) (K : Z -> R -> proc Q)
    (sts : list (rng * list message)) :
  forall p : nat,
    load (fun r => bind (f r) (K r)) p sts
    = bind_all (fun i => K (Z.of_nat i)) p (load f p sts).
Proof.
  induction sts as [|[g o] sts IH]; intros p; simpl; [reflexivity|].
  rewrite IH. reflexivity.
Qed.

Lemma bind_all_returned {R Q : Type} (v : R) (K : Z -> R -> proc Q)
    (sts : list (rng * list message)) :
  forall p : nat,
    bind_all (fun i => K (Z.of_nat i)) p (load (fun _ => Ret v) p sts)
    = load (fun r => K r v) p sts.
Proof.
  induction sts as [|[g o] sts IH]; intros p; simpl; [reflexivity|].
  rewrite IH. reflexivity.
Qed.

Lemma load_try {R : Type} (f : Z -> proc R) (H : Z -> exn -> proc R)
    (sts : list (rng * list message)) :
  forall p : nat,
    load (fun r => try_except (f r) (H r)) p sts
    = try_all (fun i => H (Z.of_nat i)) p (load f p sts).
Proof.
  induction sts as [|[g o] sts IH]; intros p; simpl; [reflexivity|].
  rewrite IH. reflexivity.
Qed.

Lemma load_all_returned {R : Type} (f : Z -> R) (sts : list (rng * list message)) :
  forall p : nat,
    Forall (fun st => exists v, st_code st = Ret v)
      (load (fun r => Ret (f r)) p sts).
Proof.
  induction sts as [|[g o] sts IH]; intros p; simpl; constructor; eauto.
Qed.

Lemma results_load {R : Type} (f : Z -> R) (sts : list (rng * list message)) :
  forall p : nat,
    results (load (fun r => Ret (f r)) p sts)
    = map (fun r => Some (f r))
        (py_range (Z.of_nat p) (Z.of_nat p + Z.of_nat (length sts))).
Proof.
  induction sts as [|[g o] sts IH]; intros p.
  - simpl. rewrite py_range_nil by lia. reflexivity.
  - rewrite py_range_cons by (simpl; lia).
    simpl load. unfold results in *. cbn [map st_code]. f_equal.
    rewrite IH. f_equal. f_equal; simpl length; lia.
Qed.

(** Every rank calls [mpi_matrix_multiply] and goes on with what [K] makes
    of the value returned. *)
Lemma group_call {Q : Type} (size num_procs : Z) (K : Z -> option matrix -> proc Q)
    (g0 : rng) (out0 : list message) (rest : list (rng * list message))
    (A B P : matrix) (g2 : rng) :
  0 <= size -> num_procs = Z.of_nat (S (length rest)) ->
  root_matrices size = inr (A, B, g2) -> np_dot A B = inr P ->
  steps
    (load (fun r => bind (mpi_matrix_multiply size r num_procs) (K r)) 0
       ((g0, out0) :: rest))
    (PState g2 out0 (K 0 (Some P)) :: load (fun r => K r None) 1 rest).
Proof.
  intros Hs Hn Hm HP.
  destruct (root_matrices_ok size Hs)
    as (A' & B' & g2' & Hm' & [HAc HAr] & [HBc HBr]).
  rewrite Hm in Hm'. injection Hm' as <- <- <-.
  destruct (multiply_run size num_procs A B P) with (g0 := g0) (out0 := out0)
    (rest := rest) as (g2' & Hm' & Hrun); try assumption; try lia; eauto.
  rewrite Hm in Hm'. injection Hm' as <-.
  rewrite load_bind.
  eapply steps_trans; [apply steps_bind_all; exact Hrun|].
  cbn [bind_all]. rewrite bind_all_returned. apply steps_refl.
Qed.

(** The same under handlers. *)
Lemma group_try_call {Q : Type} (size num_procs : Z)
    (K : Z -> option matrix -> proc Q) (H : Z -> exn -> proc Q)
    (g0 : rng) (out0 : list message) (rest : list (rng * list message))
    (A B P : matrix) (g2 : rng) :
  0 <= size -> num_procs = Z.of_nat (S (length rest)) ->
  root_matrices size = inr (A, B, g2) -> np_dot A B = inr P ->
  steps
    (load (fun r => try_except (bind (mpi_matrix_multiply size r num_procs) (K r))
                      (H r)) 0
       ((g0, out0) :: rest))
    (PState g2 out0 (try_except (K 0 (Some P)) (H 0))
       :: load (fun r => try_except (K r None) (H r)) 1 rest).
Proof.
  intros Hs Hn Hm HP.
  rewrite (load_try (fun r => bind (mpi_matrix_multiply size r num_procs) (K r))).
  eapply steps_trans.
  { apply steps_try_all. exact (group_call size num_procs K g0 out0 rest A B P g2
                                  Hs Hn Hm HP). }
  cbn [try_all]. rewrite <- load_try. apply steps_refl.
Qed.

Lemma self_close_eq (size : Z) (A B P : matrix) (g2 : rng) (b : bool) :
  root_matrices size = inr (A, B, g2) -> np_dot A B = inr P ->
  np_allclose P P = inr b -> self_close size = b.
Proof. intros Hm HP Hb. unfold self_close. rewrite Hm, HP, Hb. reflexivity. Qed.

Section Correctness.

Variable num_procs : Z.
Variable rest : list (rng * list message).
Hypothesis group_size : num_procs = Z.of_nat (S (length rest)).

Lemma log_worker (r : Z) (m : line) :
  r <> 0 -> log (new_suite r num_procs) m 0 = new_suite r num_procs.
Proof.
  intros Hr. unfold log. simpl.
  destruct (Z.eqb_spec r 0) as [|_]; [contradiction | reflexivity].
Qed.

Lemma worker_loop_cons (r size : Z) (sizes : list Z) :
  r <> 0 ->
  correctness_loop (new_suite r num_procs) (size :: sizes)
  = bind (mpi_matrix_multiply size r num_procs)
      (fun _ => correctness_loop (new_suite r num_procs) sizes).
Proof.
  intros Hr. cbn [correctness_loop]. rewrite log_worker by assumption.
  change (suite_rank (new_suite r num_procs)) with r.
  change (suite_procs (new_suite r num_procs)) with num_procs.
  destruct (Z.eqb_spec r 0) as [|_]; [contradiction|]. reflexivity.
Qed.

Lemma correctness_loop_run (sizes : list Z) :
  Forall (fun s => 0 <= s) sizes ->
  forall (a b : Z) (out : list line) (g0 : rng) (out0 : list message),
  exists (g0' : rng) (out' : list line),
    steps
      (PState g0 out0 (correctness_loop (Suite 0 num_procs a b out) sizes)
         :: load (fun r => correctness_loop (new_suite r num_procs) sizes) 1 rest)
      (PState g0' out0
         (Ret (Suite 0 num_procs
                 (a + Z.of_nat (length (List.filter self_close sizes)))
                 (b + Z.of_nat (length (List.filter (fun s => negb (self_close s))
                                          sizes)))
                 out'))
         :: load (fun r => Ret (new_suite r num_procs)) 1 rest).
Proof.
  induction 1 as [|size sizes Hsize _ IH]; intros a b out g0 out0.
  - exists g0, out. simpl. rewrite !Z.add_0_r. apply steps_refl.
  - destruct (root_matrices_ok size Hsize)
      as (A & B & g2 & Hm & [HAc HAr] & [HBc HBr]).
    destruct (product_exists A B) as [P HP]; [lia|].
    assert (exists c, np_allclose P P = inr c) as [c Hc].
    { unfold np_allclose, same_shape. rewrite !Z.eqb_refl. simpl. eauto. }
    pose proof (self_close_eq size A B P g2 c Hm HP Hc) as Hclose.
    set (self1 := Suite 0 num_procs a b (out ++ [TestingSize size])).
    assert (exists self2,
               after_multiply num_procs size P self1 sizes 0 (Some P)
               = correctness_loop self2 sizes
               /\ self2 = Suite 0 num_procs
                            (a + (if c then 1 else 0)) (b + (if c then 0 else 1))
                            (suite_out self2)) as (self2 & Hafter & Hself2).
    { unfold after_multiply. change (0 =? 0) with true. cbv iota.
      unfold allclose_obj. rewrite Hc. cbn [lift bind].
      destruct c.
      - eexists. split; [reflexivity|]. simpl. rewrite Z.add_0_r. reflexivity.
      - destruct (allclose_false_has_diff P P Hc) as [d Hd].
        unfold max_abs_diff_obj. rewrite Hd. cbn [lift bind].
        eexists. split; [reflexivity|]. simpl. rewrite Z.add_0_r. reflexivity. }
    destruct (IH (a + (if c then 1 else 0)) (b + (if c then 0 else 1))
                (suite_out self2) g2 out0) as (g0' & out' & Hrun).
    exists g0', out'.
    unfold root_matrices in Hm.
    destruct (np_random_rand (rng_seed 42) size size) as [x | [A' g1]] eqn:HA;
      [discriminate|].
    destruct (np_random_rand g1 size size) as [x | [B' g2']] eqn:HB;
      [discriminate|].
    injection Hm as -> -> ->.
    (* the root draws the matrices of the serial product *)
    eapply steps_step.
    { apply step_first. reflexivity. }
    eapply steps_step.
    { apply step_first. unfold local_step. simpl. rewrite HA. reflexivity. }
    eapply steps_step.
    { apply step_first. unfold local_step. simpl. rewrite HB. reflexivity. }
    (* the call of every rank *)
    rewrite (load_ext _
               (fun r => bind (mpi_matrix_multiply size r num_procs)
                           (after_multiply num_procs size P self1 sizes r))).
    2: { intros r Hr. rewrite worker_loop_cons by lia. unfold after_multiply.
         destruct (Z.eqb_spec (Z.of_nat r) 0) as [|_]; [lia | reflexivity]. }
    match goal with
    | |- steps (_ :: ?l) ?fin =>
        change (steps
                  (PState g2 out0
                     (bind (bind (lift (serial_matrix_multiply A B))
                              (fun C => Ret (Some C)))
                        (fun C_serial =>
                           bind (mpi_matrix_multiply size 0 num_procs)
                             (fun C_mpi =>
                                bind
                                  (bind (lift (allclose_obj C_serial C_mpi))
                                     (fun close : bool =>
                                        if close
                                        then Ret (passed (log self1 (PassedSize size) 0))
                                        else
                                          bind (lift (max_abs_diff_obj C_serial C_mpi))
                                            (fun max_diff =>
                                               Ret (failed
                                                      (log self1
                                                         (FailedSize size max_diff) 0)))))
                                  (fun self' => correctness_loop self' sizes))))
                     :: l) fin)
    end.
    unfold serial_matrix_multiply. rewrite HP.
    match goal with
    | |- steps (_ :: ?l) ?fin =>
        change (steps
                  (load (fun r => bind (mpi_matrix_multiply size r num_procs)
                                    (after_multiply num_procs size P self1 sizes r)) 0
                     ((g2, out0) :: rest))
                  fin)
    end.
    eapply steps_trans.
    { apply (group_call size num_procs (after_multiply num_procs size P self1 sizes)
               g2 out0 rest A B P g2 Hsize group_size).
      - unfold root_matrices. rewrite HA, HB. reflexivity.
      - exact HP. }
    rewrite Hafter.
    rewrite (load_ext (fun r => after_multiply num_procs size P self1 sizes r None)
               (fun r => correctness_loop (new_suite r num_procs) sizes)).
    2: { intros r Hr. unfold after_multiply.
         destruct (Z.eqb_spec (Z.of_nat r) 0) as [|_]; [lia | reflexivity]. }
    rewrite <- Hself2 in Hrun.
    assert (a + Z.of_nat (length (List.filter self_close (size :: sizes)))
            = a + (if c then 1 else 0)
              + Z.of_nat (length (List.filter self_close sizes))) as ->.
    { cbn [List.filter]. rewrite Hclose. destruct c; cbn [length]; lia. }
    assert (b + Z.of_nat (length (List.filter (fun s => negb (self_close s))
                                    (size :: sizes)))
            = b + (if c then 0 else 1)
              + Z.of_nat (length (List.filter (fun s => negb (self_close s))
                                    sizes))) as ->.
    { cbn [List.filter]. rewrite Hclose. destruct c; cbn [negb length]; lia. }
    exact Hrun.
Qed.

End Correctness.

End SuiteRuns.

Lemma spawn_cons `{Num : Scalar} `{RS : !RandomState} {R : Type}
    (f : Z -> proc R) (g0 : rng) (gt : list rng) :
  spawn f (g0 :: gt)
  = PState g0 [] (f 0) :: load f 1 (map (fun g => (g, [])) gt).
Proof. reflexivity. Qed.

(** X10. When every rank of a group runs [test_correctness] on sizes that
    are not negative, the group runs to completion; the root counts one
    passed test for every size whose serial product is close to itself and
    one failed test for every other size, so a failure never comes from the
    distributed computation; the other ranks end with their counters at 0
    and nothing printed. *)
Theorem correctness_test_counts `{Num : Scalar} `{RS : !RandomState}
    (sizes : list Z) (num_procs : Z) (gs : list rng) :
  Forall (fun s => 0 <= s) sizes ->
  1 <= num_procs -> Z.of_nat (length gs) = num_procs ->
  exists cfg root_suite,
    completes
      (spawn (fun r => test_correctness (new_suite r num_procs) sizes) gs) cfg
    /\ results cfg
       = Some root_suite
         :: map (fun r => Some (new_suite r num_procs)) (py_range 1 num_procs)
    /\ tests_passed root_suite
       = Z.of_nat (length (List.filter self_close sizes))
    /\ tests_failed root_suite
       = Z.of_nat (length (List.filter (fun s => negb (self_close s)) sizes)).
Proof.
  intros Hsizes Hn Hlen.
  destruct gs as [|g0 gt]; [simpl in Hlen; lia|].
  set (rest := map (fun g : rng => (g, @nil message)) gt).
  assert (num_procs = Z.of_nat (S (length rest))) as Hrest.
  { unfold rest. rewrite length_map. simpl in Hlen. lia. }
  destruct (correctness_loop_run num_procs rest Hrest sizes Hsizes 0 0
              [TestingCorrectness] g0 []) as (g0' & out' & Hrun).
  eexists. eexists. split; [|split; [|split]].
  - apply completes_returned.
    + rewrite spawn_cons. fold rest.
      rewrite (load_ext _ (fun r => correctness_loop (new_suite r num_procs) sizes)).
      * exact Hrun.
      * intros r Hr. unfold test_correctness.
        rewrite (log_worker num_procs) by lia. reflexivity.
    + constructor; [simpl; eauto | apply load_all_returned].
  - unfold results. cbn [map st_code]. f_equal.
    change (map _ (load ?f ?p ?l)) with (results (load f p l)).
    rewrite (results_load (fun r => new_suite r num_procs)). f_equal. f_equal.
    change (Z.of_nat 1) with 1. lia.
  - reflexivity.
  - reflexivity.
Qed.

Lemma correctness_test_counts_witness :
  Forall (fun s => 0 <= s) [2; 0; 3] /\ 1 <= 2 /\ Z.of_nat (length [11; 12]) = 2
  /\ exists cfg root_suite,
       completes
         (@spawn Float64.scalar Float64.lcg _
            (fun r => test_correctness (new_suite r 2) [2; 0; 3]) [11; 12]) cfg
       /\ results cfg
          = Some root_suite :: map (fun r => Some (new_suite r 2)) (py_range 1 2)
       /\ tests_passed root_suite = 3
       /\ tests_failed root_suite = 0.
Proof.
  assert (Forall (fun s => 0 <= s) [2; 0; 3]) as Hsizes
    by (repeat constructor; lia).
  split; [exact Hsizes|]. split; [lia|]. split; [reflexivity|].
  destruct (@correctness_test_counts Float64.scalar Float64.lcg [2; 0; 3] 2 [11; 12])
    as (cfg & root_suite & Hrun & Hres & Hpass & Hfail);
    [exact Hsizes | lia | reflexivity |].
  exists cfg, root_suite. split; [exact Hrun|]. split; [exact Hres|].
  split; [rewrite Hpass | rewrite Hfail]; vm_compute; reflexivity.
Defined.

Section EdgeCases.
Context `{Num : Scalar} `{RS : !RandomState}.

Variable num_procs : Z.
Variable rest : list (rng * list message).
Hypothesis group_size : num_procs = Z.of_nat (S (length rest)).

(** The size of the small matrix. *)
Abbreviation small := (Z.max 2 (num_procs - 1)).

Lemma small_worker (r : Z) :
  r <> 0 ->
  small_matrix_test (new_suite r num_procs)
  = try_except
      (bind (mpi_matrix_multiply small r num_procs)
         (fun _ => Ret (new_suite r num_procs)))
      (fun e => Ret (failed (log (new_suite r num_procs) (ErrorSmall e) 0))).
Proof.
  intros Hr. unfold small_matrix_test.
  rewrite !(log_worker num_procs) by assumption.
  change (suite_procs (new_suite r num_procs)) with num_procs.
  change (suite_rank (new_suite r num_procs)) with r.
  destruct (Z.eqb_spec r 0) as [|_]; [contradiction | reflexivity].
Qed.

Lemma small_matrix_test_run (a b : Z) (out : list line) (g0 : rng)
    (out0 : list message) :
  exists g2,
    steps
      (PState g0 out0 (small_matrix_test (Suite 0 num_procs a b out))
         :: load (fun r => small_matrix_test (new_suite r num_procs)) 1 rest)
      (PState g2 out0
         (Ret (Suite 0 num_procs (a + 1) b
                 (out ++ [TestingSmall small num_procs; PassedSmall])))
         :: load (fun r => Ret (new_suite r num_procs)) 1 rest).
Proof.
  assert (0 <= small) as Hsmall by lia.
  destruct (root_matrices_ok small Hsmall)
    as (A & B & g2 & Hm & [HAc HAr] & [HBc HBr]).
  destruct (product_exists A B) as [P HP]; [lia|].
  destruct (np_dot_rows A B P HP) as [HPr HPc].
  exists g2.
  rewrite (load_ext _
             (fun r => try_except
                         (bind (mpi_matrix_multiply small r num_procs)
                            (after_small num_procs a b out r))
                         (small_handler num_procs a b out r))).
  2: { intros r Hr. rewrite small_worker by lia.
       unfold after_small, small_handler.
       destruct (Z.eqb_spec (Z.of_nat r) 0) as [|_]; [lia | reflexivity]. }
  match goal with
  | |- steps (_ :: ?l) ?fin =>
      change (steps
                (load (fun r => try_except
                                  (bind (mpi_matrix_multiply small r num_procs)
                                     (after_small num_procs a b out r))
                                  (small_handler num_procs a b out r)) 0
                   ((g0, out0) :: rest))
                fin)
  end.
  eapply steps_trans.
  { exact (group_try_call small num_procs (after_small num_procs a b out)
             (small_handler num_procs a b out) g0 out0 rest A B P g2
             Hsmall group_size Hm HP). }
  rewrite (load_ext (fun r => try_except (after_small num_procs a b out r None)
                                (small_handler num_procs a b out r))
             (fun r => Ret (new_suite r num_procs))).
  2: { intros r Hr. unfold after_small.
       destruct (Z.eqb_spec (Z.of_nat r) 0) as [|_]; [lia | reflexivity]. }
  unfold after_small, has_shape. change (0 =? 0) with true. cbv iota.
  rewrite HPr, HPc, HAr, HBc, Z.eqb_refl. simpl. rewrite <- app_assoc.
  apply steps_refl.
Qed.

End EdgeCases.

Section SingleProcess.
Context `{Num : Scalar} `{RS : !RandomState}.

Lemma single_process_test_run {Q : Type} (a b : Z) (out : list line) (g0 : rng)
    (out0 : list message) (K : suite -> proc Q) :
  exists g2,
    steps
      [PState g0 out0 (bind (single_process_test (Suite 0 1 a b out)) K)]
      [PState g2 out0
         (K (Suite 0 1 (a + 1) b ((out ++ [TestingSingle]) ++ [PassedSingle])))].
Proof.
  destruct (root_matrices_ok 50) as (A & B & g2 & Hm & [HAc HAr] & [HBc HBr]);
    [lia|].
  destruct (product_exists A B) as [P HP]; [lia|].
  exists g2.
  set (body := fun (_ : Z) (C : option matrix) =>
                 if (0 =? 0) && match C with Some _ => true | None => false end
                 then Ret (passed (log (log (Suite 0 1 a b out) TestingSingle 0)
                                     PassedSingle 0))
                 else Ret (failed (log (log (Suite 0 1 a b out) TestingSingle 0)
                                     FailedSingle 0))).
  set (handler := fun (_ : Z) (e : exn) =>
                    Ret (failed (log (log (Suite 0 1 a b out) TestingSingle 0)
                                   (ErrorSingle e) 0))).
  pose proof (group_try_call 50 1 body handler g0 out0 [] A B P g2
                ltac:(lia) eq_refl Hm HP) as Hrun.
  apply (steps_bind_all (fun _ => K) 0) in Hrun.
  exact Hrun.
Qed.

End SingleProcess.

(** X11. The small matrix of [test_edge_cases] has [max(2, num_procs - 1)]
    rows: a rank without rows exists only from three processes on, and it is
    the last rank alone.  When every rank of a group runs [test_edge_cases]
    the group runs to completion and no handler runs: the root counts two
    passed tests with one process and one otherwise, and no failed test; the
    other ranks end with their counters at 0 and nothing printed. *)
Theorem edge_case_tests_pass `{Num : Scalar} `{RS : !RandomState}
    (num_procs : Z) (gs : list rng) :
  1 <= num_procs -> Z.of_nat (length gs) = num_procs ->
  (forall r, 0 <= r < num_procs ->
     (local_rows_of (Z.max 2 (num_procs - 1)) num_procs r = 0
      <-> 3 <= num_procs /\ r = num_procs - 1))
  /\ exists cfg,
       completes (spawn (fun r => test_edge_cases (new_suite r num_procs)) gs) cfg
       /\ results cfg
          = Some (Suite 0 num_procs (if num_procs =? 1 then 2 else 1) 0
                    (TestingEdgeCases
                       :: (if num_procs =? 1 then [TestingSingle; PassedSingle]
                           else [])
                       ++ [TestingSmall (Z.max 2 (num_procs - 1)) num_procs;
                           PassedSmall]))
            :: map (fun r => Some (new_suite r num_procs)) (py_range 1 num_procs).
Proof.
  intros Hn Hlen. split.
  - intros r Hr.
    pose proof (rank_has_rows (Z.max 2 (num_procs - 1)) num_procs
                  ltac:(lia) Hn r Hr) as Hrows.
    pose proof (local_rows_nonneg (Z.max 2 (num_procs - 1)) num_procs
                  ltac:(lia) Hn r) as Hpos.
    lia.
  - destruct gs as [|g0 gt]; [simpl in Hlen; lia|].
    set (rest := map (fun g : rng => (g, @nil message)) gt).
    assert (num_procs = Z.of_nat (S (length rest))) as Hrest.
    { unfold rest. rewrite length_map. simpl in Hlen. lia. }
    assert (forall final root_suite,
               steps (spawn (fun r => test_edge_cases (new_suite r num_procs))
                        (g0 :: gt))
                 (final :: load (fun r => Ret (new_suite r num_procs)) 1 rest) ->
               st_code final = Ret root_suite ->
               exists cfg,
                 completes (spawn (fun r => test_edge_cases (new_suite r num_procs))
                              (g0 :: gt)) cfg
                 /\ results cfg
                    = Some root_suite
                      :: map (fun r => Some (new_suite r num_procs))
                           (py_range 1 num_procs)) as Hdone.
    { intros final root_suite Hrun Hfinal. eexists. split.
      - apply completes_returned; [exact Hrun|].
        constructor; [eauto | apply load_all_returned].
      - unfold results. cbn [map]. rewrite Hfinal. f_equal.
        change (map _ (load ?f ?p ?l)) with (results (load f p l)).
        rewrite (results_load (fun r => new_suite r num_procs)). f_equal. f_equal.
        change (Z.of_nat 1) with 1. lia. }
    destruct (Z.eqb_spec num_procs 1) as [Hone | Hmany].
    + (* one process *)
      assert (rest = []) as Hnil.
      { destruct rest; [reflexivity | simpl in Hrest; lia]. }
      clear Hlen Hrest Hn. subst num_procs.
      destruct (single_process_test_run 0 0 [TestingEdgeCases] g0 []
                  small_matrix_test) as (g1 & Hrun1).
      destruct (small_matrix_test_run 1 [] eq_refl 1 0
                  (([TestingEdgeCases] ++ [TestingSingle]) ++ [PassedSingle])
                  g1 []) as (g2 & Hrun2).
      eapply Hdone.
      * rewrite spawn_cons. fold rest. rewrite Hnil.
        eapply steps_trans; [exact Hrun1|]. exact Hrun2.
      * reflexivity.
    + (* several processes *)
      destruct (small_matrix_test_run num_procs rest Hrest 0 0 [TestingEdgeCases]
                  g0 []) as (g2 & Hrun).
      eapply Hdone.
      * rewrite spawn_cons. fold rest.
        rewrite (load_ext _ (fun r => small_matrix_test (new_suite r num_procs))).
        2: { intros r Hr. unfold test_edge_cases.
             rewrite (log_worker num_procs) by lia.
             unfold single_process_test.
             change (suite_procs (new_suite (Z.of_nat r) num_procs)) with num_procs.
             destruct (Z.eqb_spec num_procs 1) as [|_]; [contradiction|].
             reflexivity. }
        assert (test_edge_cases (new_suite 0 num_procs)
                = small_matrix_test (Suite 0 num_procs 0 0 [TestingEdgeCases]))
          as ->.
        { unfold test_edge_cases, single_process_test.
          change (suite_procs (log (new_suite 0 num_procs) TestingEdgeCases 0))
            with num_procs.
          destruct (Z.eqb_spec num_procs 1) as [|_]; [contradiction|].
          reflexivity. }
        exact Hrun.
      * reflexivity.
Qed.

Lemma edge_case_tests_pass_witness :
  1 <= 3 /\ Z.of_nat (length [1; 2; 3]) = 3
  /\ exists cfg,
       completes (@spawn Float64.scalar Float64.lcg _
                    (fun r => test_edge_cases (new_suite r 3)) [1; 2; 3]) cfg
       /\ results cfg
          = Some (Suite 0 3 1 0 [TestingEdgeCases; TestingSmall 2 3; PassedSmall])
            :: map (fun r => Some (new_suite r 3)) (py_range 1 3).
Proof.
  split; [lia|]. split; [reflexivity|].
  apply (@edge_case_tests_pass Float64.scalar Float64.lcg 3 [1; 2; 3]);
    [lia | reflexivity].
Defined.

(** * Exceptions under the handlers of the tests *)

Section Caught.
Context `{Num : Scalar} `{RS : !RandomState}.

(** A call under a handler returns when what follows the call returns and
    the handler returns. *)
Lemma try_bind_returns {A R : Type} me e g (p : proc A) (body : A -> proc R)
    (handler : exn -> proc R) (good : R -> Prop) :
  (forall C, exists s, body C = Ret s /\ good s) ->
  (forall x, exists s, handler x = Ret s /\ good s) ->
  exists s,
    outcome (interp me e g (try_except (bind p body) handler)) = inr s /\ good s.
Proof.
  intros Hbody Hhandler. rewrite interp_try_except, interp_bind.
  destruct (outcome (interp me e g p)) as [x | C]; cbn [outcome].
  - destruct (Hhandler x) as (s & -> & Hs). exists s. split; [reflexivity | exact Hs].
  - destruct (Hbody C) as (s & -> & Hs). cbn [interp outcome].
    exists s. split; [reflexivity | exact Hs].
Qed.

Lemma log_rank (self : suite) (m : line) (f : Z) :
  suite_rank (log self m f) = suite_rank self.
Proof. unfold log. destruct (suite_rank self =? f); reflexivity. Qed.

Lemma log_procs (self : suite) (m : line) (f : Z) :
  suite_procs (log self m f) = suite_procs self.
Proof. unfold log. destruct (suite_rank self =? f); reflexivity. Qed.

Lemma log_passed (self : suite) (m : line) (f : Z) :
  tests_passed (log self m f) = tests_passed self.
Proof. unfold log. destruct (suite_rank self =? f); reflexivity. Qed.

Lemma log_failed (self : suite) (m : line) (f : Z) :
  tests_failed (log self m f) = tests_failed self.
Proof. unfold log. destruct (suite_rank self =? f); reflexivity. Qed.

End Caught.

Ltac suite_fields :=
  repeat (cbn [passed failed suite_rank suite_procs tests_passed tests_failed];
          rewrite ?log_rank, ?log_procs, ?log_passed, ?log_failed).

(** X12. [test_edge_cases] lets no exception escape: on every rank and
    whatever the transport delivers, it returns; it keeps the rank and the
    process count of the object and lowers no counter; and on the root it
    records exactly one verdict for each test it runs, two with one process
    and one otherwise. *)
Theorem edge_case_tests_never_raise `{Num : Scalar} `{RS : !RandomState}
    (self : suite) (e : env) (g : rng) :
  exists s,
    outcome (interp (suite_rank self) e g (test_edge_cases self)) = inr s
    /\ suite_rank s = suite_rank self /\ suite_procs s = suite_procs self
    /\ tests_passed self <= tests_passed s
    /\ tests_failed self <= tests_failed s
    /\ (suite_rank self = 0 ->
        tests_passed s + tests_failed s
        = tests_passed self + tests_failed self
          + (if suite_procs self =? 1 then 2 else 1)).
Proof.
  set (good1 := fun s : suite =>
                  suite_rank s = suite_rank self
                  /\ suite_procs s = suite_procs self
                  /\ tests_passed self <= tests_passed s
                  /\ tests_failed self <= tests_failed s
                  /\ tests_passed s + tests_failed s
                     = tests_passed self + tests_failed self
                       + (if suite_procs self =? 1 then 1 else 0)).
  assert (forall g0, exists s1,
             outcome (interp (suite_rank self) e g0
                        (single_process_test (log self TestingEdgeCases 0)))
             = inr s1 /\ good1 s1) as Hsingle.
  { intros g0. unfold single_process_test. rewrite log_procs.
    destruct (Z.eqb_spec (suite_procs self) 1) as [Hone | Hmany].
    - apply try_bind_returns.
      + intros C.
        destruct ((suite_rank (log (log self TestingEdgeCases 0) TestingSingle 0)
                   =? 0)
                  && match C with Some _ => true | None => false end);
          eexists; (split; [reflexivity|]); unfold good1; suite_fields;
          destruct (Z.eqb_spec (suite_procs self) 1); repeat split; lia.
      + intros x. eexists. split; [reflexivity|]. unfold good1. suite_fields.
        destruct (Z.eqb_spec (suite_procs self) 1); repeat split; lia.
    - eexists. split; [reflexivity|]. unfold good1. suite_fields.
      destruct (Z.eqb_spec (suite_procs self) 1); repeat split; lia. }
  assert (forall g0 s1, exists s,
             outcome (interp (suite_rank self) e g0 (small_matrix_test s1)) = inr s
             /\ suite_rank s = suite_rank s1 /\ suite_procs s = suite_procs s1
             /\ tests_passed s1 <= tests_passed s
             /\ tests_failed s1 <= tests_failed s
             /\ (suite_rank s1 = 0 ->
                 tests_passed s + tests_failed s
                 = tests_passed s1 + tests_failed s1 + 1)) as Hsmall.
  { intros g0 s1. unfold small_matrix_test. cbv zeta.
    apply (try_bind_returns _ _ _ _ _ _
             (fun s => suite_rank s = suite_rank s1 /\ suite_procs s = suite_procs s1
                       /\ tests_passed s1 <= tests_passed s
                       /\ tests_failed s1 <= tests_failed s
                       /\ (suite_rank s1 = 0 ->
                           tests_passed s + tests_failed s
                           = tests_passed s1 + tests_failed s1 + 1))).
    - intros C. rewrite log_rank.
      destruct (Z.eqb_spec (suite_rank s1) 0) as [Hroot | Hother].
      + destruct (has_shape C _ _); eexists; (split; [reflexivity|]);
          suite_fields; repeat split; lia.
      + eexists. split; [reflexivity|]. suite_fields. repeat split; lia.
    - intros x. eexists. split; [reflexivity|]. suite_fields. repeat split; lia. }
  unfold test_edge_cases. cbv zeta. rewrite interp_bind.
  destruct (Hsingle g) as (s1 & Hs1 & Hr1 & Hp1 & Hpass1 & Hfail1 & Hcount1).
  rewrite Hs1.
  destruct (Hsmall (rng_after (interp (suite_rank self) e g
                                 (single_process_test
                                    (log self TestingEdgeCases 0)))) s1)
    as (s & Hs & Hr & Hp & Hpass & Hfail & Hcount).
  exists s. cbn [outcome]. split; [exact Hs|].
  split; [congruence|]. split; [congruence|]. split; [lia|]. split; [lia|].
  intros Hroot. rewrite Hcount by congruence. rewrite Hcount1.
  destruct (suite_procs self =? 1); lia.
Qed.

(** * A run on matrices of ones *)

(** With a generator whose samples are all 1, two processes multiply the
    4 by 4 matrices of ones: the scheduler takes 6 steps and the root holds
    the matrix whose elements are all 4. *)
Example all_ones_on_two_processes :
  steps
    (@spawn Float64.scalar Float64.ones _ (fun r => mpi_matrix_multiply 4 r 2) [tt; tt])
    (run 6 (@spawn Float64.scalar Float64.ones _
              (fun r => mpi_matrix_multiply 4 r 2) [tt; tt]))
  /\ results
       (run 6 (@spawn Float64.scalar Float64.ones _
                 (fun r => mpi_matrix_multiply 4 r 2) [tt; tt]))
     = [Some (Some (@Matrix Float64.scalar 4 (replicate 4 (replicate 4 4%float))));
        Some None].
Proof.
  split; [apply run_sound | vm_compute; reflexivity].
Qed.
